(** * httpr: request execution, retries, hooks and request groups

    A shallow embedding of [service.go] and [group.go].  Go pointers to
    structs that a method mutates are modelled by state passing (the method
    returns the updated struct); [nil] pointers, slices and maps are [None];
    a Go [panic] is the [Panic] result.  The parts of [net/http], [io/ioutil]
    and [time] the code calls are parameters of the development. *)

From Stdlib Require Import ZArith.
From stdpp Require Import base option list strings gmap.

Local Open Scope string_scope.
Local Open Scope list_scope.
Local Open Scope Z_scope.

(** ** Results of Go calls *)

(** A Go call either returns normally or panics with a message. *)
Inductive result (A : Type) : Type :=
| Normal (a : A)
| Panic (msg : string).
Arguments Normal {A} a.
Arguments Panic {A} msg.

(** Go's [error] interface: only the message is observable here. *)
Inductive error : Type :=
| Error (msg : string).

Definition Duration := Z.
Definition Time := Z.

(** [len(args)%2 != 0], the guard of the paired-argument builders. *)
Definition odd_len {A} (args : list A) : bool :=
  negb (Nat.eqb (length args mod 2) 0).

(** The pairs [(args[i], args[i+1])] for [i = 0, 2, 4, ...]. *)
Fixpoint pairs_of (args : list string) : list (string * string) :=
  match args with
  | k :: v :: rest => (k, v) :: pairs_of rest
  | _ => []
  end.

(** ** The world a request runs in *)

Inductive Scope : Type :=
| Shared   (* hooks of the owning Service *)
| Own.     (* hooks of the Request itself *)

(** What a run does that can be observed from outside, in the order done. *)
Inductive Event : Type :=
| EvBeforeHook (sc : Scope) (i : nat)   (* the [i]-th pre-send hook of [sc] is called *)
| EvAfterHook (sc : Scope) (i : nat)    (* the [i]-th post-response hook of [sc] is called *)
| EvSleep (d : Duration)                (* [time.Sleep(d)] *)
| EvDo (k : nat)                        (* the [k]-th network call, [client.Do] *)
| EvReadAll                             (* [ioutil.ReadAll] on a response body *)
| EvClose.                              (* [Body.Close()] *)

Record World : Type := mkWorld {
  clock : Time;
  calls : nat;
  trace : list Event
}.

(** Go code over the world: it returns or panics, and leaves a world. *)
Definition Go (A : Type) : Type := World -> result A * World.

Definition ret {A} (a : A) : Go A := fun w => (Normal a, w).

Definition bind {A B} (m : Go A) (f : A -> Go B) : Go B :=
  fun w =>
    match m w with
    | (Normal a, w') => f a w'
    | (Panic msg, w') => (Panic msg, w')
    end.

Definition panic {A} (msg : string) : Go A := fun w => (Panic msg, w).

Notation "x <- m ;; k" := (bind m (fun x => k))
  (at level 100, m at next level, right associativity).
Notation "m ;;; k" := (bind m (fun _ => k))
  (at level 100, right associativity).

Definition emit (e : Event) : Go unit :=
  fun w => (Normal tt, mkWorld (clock w) (calls w) (trace w ++ [e])).

Definition time_Now : Go Time := fun w => (Normal (clock w), w).

(** [time.Sleep] returns at once for a zero or negative duration. *)
Definition time_Sleep (d : Duration) : Go unit :=
  fun w => (Normal tt, mkWorld (clock w + Z.max 0 d) (calls w) (trace w ++ [EvSleep d])).

Definition nil_dereference : string :=
  "runtime error: invalid memory address or nil pointer dereference".

Module Service.

Section WithEnvironment.

(** The body of an HTTP response is an [io.ReadCloser]; its state, and what
    [ioutil.ReadAll] and [Close] do to it, belong to [net/http]. *)
Variable Stream : Type.
Variable ioutil_ReadAll : Stream -> (list Byte.byte * option error) * Stream.
Variable Body_Close : Stream -> Stream.

Record Conf : Type := mkConf {
  Timeout : Duration;
  Debug : bool
}.

Record Client : Type := mkClient {
  Client_Timeout : Duration
}.

(** [*http.Request], as far as hooks can observe and change it. *)
Record WireRequest : Type := mkWireRequest {
  Method : string;
  URL : string;
  Header : gmap string (list string)
}.

(** [*http.Response] *)
Record WireResponse : Type := mkWireResponse {
  StatusCode : Z;
  Body : Stream
}.

(** [http.NewRequest(method, uri, nil)] *)
Variable http_NewRequest : string -> string -> WireRequest + error.

(** [client.Do(r)]: what the network answers to the [k]-th call made. *)
Variable client_Do : nat -> WireRequest -> WireResponse + error.

Record Response : Type := mkResponse {
  rsp : WireResponse;
  body : option (list Byte.byte);
  err : option error;
  dump : bool
}.

(** What a hook can read of the [*Request] it is passed. *)
Record RequestView : Type := mkRequestView {
  v_uri : string;
  v_method : string;
  v_retries : list Duration;
  v_startAt : Time;
  v_endAt : Time;
  v_req : option WireRequest
}.

(** A hook is modelled by what it does to the wire request (a pre-send
    hook) or by the stop signal it returns (a post-response hook). *)
Definition BeforeRequestHook : Type := WireRequest -> WireRequest.
Definition AfterFunc : Type := RequestView -> option Response -> bool.

Record Service : Type := mkService {
  host : string;
  hosts : list string;
  paths : option (gmap string string);
  s_header : option (gmap string (list string));
  s_conf : Conf;
  client : option Client;                 (* [*http.Client], nil in [&Service{}] *)
  s_beforeRequest : list BeforeRequestHook;
  s_afterHooks : list AfterFunc
}.

Record Request : Type := mkRequest {
  uri : string;
  conf : Conf;
  method : string;
  retries : list Duration;
  header : option (gmap string (list string));
  service : option Service;
  startAt : Time;
  endAt : Time;
  params : option (gmap string (list string));
  req : option WireRequest;
  beforeRequest : list BeforeRequestHook;
  afterHooks : list AfterFunc
}.

Definition view (r : Request) : RequestView :=
  mkRequestView (uri r) (method r) (retries r) (startAt r) (endAt r) (req r).

Definition second : Duration := 1000000000.

Definition NewService (c : option Conf) : Service :=
  let c := match c with
           | Some c' => c'
           | None => mkConf (20 * second) false
           end in
  mkService "" [] None None c (Some (mkClient (Timeout c))) [] [].

(** ** Builders with paired arguments *)

(** The loop [for i := 0; i < len(args); i += 2 { m[args[i]] = args[i+1] }],
    run on an argument list of even length. *)
Fixpoint store_paths (args : list string) (m : gmap string string)
  : gmap string string :=
  match args with
  | k :: v :: rest => store_paths rest (<[k:=v]> m)
  | _ => m
  end.

Definition Service_Paths (s : Service) (methodAndPath : list string)
  : result Service :=
  if odd_len methodAndPath then Panic "method and path are not pairs"
  else
    let m := match paths s with Some m => m | None => ∅ end in
    Normal (mkService (host s) (hosts s)
              (Some (store_paths methodAndPath m))
              (s_header s) (s_conf s) (client s)
              (s_beforeRequest s) (s_afterHooks s)).

(** [url.Values.Add]: [v[key] = append(v[key], value)] *)
Definition Values_Add (v : gmap string (list string)) (key value : string)
  : gmap string (list string) :=
  <[key := default [] (v !! key) ++ [value]]> v.

Fixpoint add_params (args : list string) (v : gmap string (list string))
  : gmap string (list string) :=
  match args with
  | k :: x :: rest => add_params rest (Values_Add v k x)
  | _ => v
  end.

Definition set_params (r : Request) (p : option (gmap string (list string)))
  : Request :=
  mkRequest (uri r) (conf r) (method r) (retries r) (header r) (service r)
    (startAt r) (endAt r) p (req r) (beforeRequest r) (afterHooks r).

Definition Request_Params (r : Request) (ps : list string) : result Request :=
  if odd_len ps then Panic "params error"
  else
    let v := match params r with Some v => v | None => ∅ end in
    Normal (set_params r (Some (add_params ps v))).

Definition Service_Request (s : Service) (method uri : string) : Request :=
  mkRequest (host s +:+ uri) (s_conf s) method [] (s_header s) (Some s)
    0 0 None None [] [].

Definition NewRequest (method uri : string) : Request :=
  mkRequest uri (mkConf (20 * second) false) method [] None None
    0 0 None None [] [].

Definition set_retries (r : Request) (x : list Duration) : Request :=
  mkRequest (uri r) (conf r) (method r) x (header r) (service r)
    (startAt r) (endAt r) (params r) (req r) (beforeRequest r) (afterHooks r).

Definition set_beforeRequest (r : Request) (x : list BeforeRequestHook) : Request :=
  mkRequest (uri r) (conf r) (method r) (retries r) (header r) (service r)
    (startAt r) (endAt r) (params r) (req r) x (afterHooks r).

Definition set_afterHooks (r : Request) (x : list AfterFunc) : Request :=
  mkRequest (uri r) (conf r) (method r) (retries r) (header r) (service r)
    (startAt r) (endAt r) (params r) (req r) (beforeRequest r) x.

Definition set_method (r : Request) (x : string) : Request :=
  mkRequest (uri r) (conf r) x (retries r) (header r) (service r)
    (startAt r) (endAt r) (params r) (req r) (beforeRequest r) (afterHooks r).

Definition set_req (r : Request) (x : option WireRequest) : Request :=
  mkRequest (uri r) (conf r) (method r) (retries r) (header r) (service r)
    (startAt r) (endAt r) (params r) x (beforeRequest r) (afterHooks r).

Definition set_startAt (r : Request) (x : Time) : Request :=
  mkRequest (uri r) (conf r) (method r) (retries r) (header r) (service r)
    x (endAt r) (params r) (req r) (beforeRequest r) (afterHooks r).

Definition set_endAt (r : Request) (x : Time) : Request :=
  mkRequest (uri r) (conf r) (method r) (retries r) (header r) (service r)
    (startAt r) x (params r) (req r) (beforeRequest r) (afterHooks r).

Definition Request_RetryDelay (r : Request) (retires : list Duration) : Request :=
  set_retries r retires.

Definition Request_BeforeRequest (r : Request) (hooks : list BeforeRequestHook)
  : Request :=
  set_beforeRequest r (beforeRequest r ++ hooks).

Definition Request_AfterExec (r : Request) (hooks : list AfterFunc) : Request :=
  set_afterHooks r (afterHooks r ++ hooks).

(** ** Executing one request *)

(** [Request.Request]: the wire request is built once and then reused.  Of
    the Go pair [(r, err)] exactly one component is non-nil. *)
Definition Request_Request (rq : Request) : (WireRequest + error) * Request :=
  match req rq with
  | Some r => (inl r, rq)
  | None =>
      let rq := if decide (method rq = "") then set_method rq "GET" else rq in
      match http_NewRequest (method rq) (uri rq) with
      | inr e => (inr e, rq)
      | inl r => (inl r, set_req rq (Some r))
      end
  end.

(** [c.Do(r)] on the client [c]: one network call. *)
Definition Client_Do (c : Client) (r : WireRequest) : Go (WireResponse + error) :=
  fun w => (Normal (client_Do (calls w) r),
            mkWorld (clock w) (S (calls w)) (trace w ++ [EvDo (calls w)])).

(** [Request._do]: [req.service.client.Do(r)], with no check of
    [req.service] nor of the client: [Do] on a nil client reads a field of
    it before any call is made. *)
Definition Request__do (rq : Request) (r : WireRequest)
  : Go (option Response * option error) :=
  match service rq with
  | None => panic nil_dereference
  | Some s =>
      match client s with
      | None => panic nil_dereference
      | Some c =>
          resp <- Client_Do c r ;;
          match resp with
          | inr e => ret (None, Some e)
          | inl resp => ret (Some (mkResponse resp None None false), None)
          end
      end
  end.

(** [Request.client], the accessor that does check [req.service]; the
    client it returns is the Service's, nil or not, or a new one. *)
Definition Request_client (rq : Request) : option Client :=
  match service rq with
  | Some s => client s
  | None => Some (mkClient (Timeout (conf rq)))
  end.

Fixpoint run_before (sc : Scope) (i : nat) (hooks : list BeforeRequestHook)
  (r : WireRequest) : Go WireRequest :=
  match hooks with
  | [] => ret r
  | hook :: rest =>
      emit (EvBeforeHook sc i) ;;; run_before sc (S i) rest (hook r)
  end.

Definition Request_doBeforeRequestHooks (rq : Request) (r : WireRequest)
  : Go WireRequest :=
  r <- match service rq with
       | Some s => run_before Shared 0 (s_beforeRequest s) r
       | None => ret r
       end ;;
  run_before Own 0 (beforeRequest rq) r.

Fixpoint run_after (sc : Scope) (i : nat) (hooks : list AfterFunc)
  (v : RequestView) (rs : option Response) : Go bool :=
  match hooks with
  | [] => ret false
  | hook :: rest =>
      emit (EvAfterHook sc i) ;;;
      if hook v rs then ret true else run_after sc (S i) rest v rs
  end.

Definition Request_doAfterHooks (rq : Request) (rs : option Response) : Go bool :=
  stop <- match service rq with
          | Some s => run_after Shared 0 (s_afterHooks s) (view rq) rs
          | None => ret false
          end ;;
  if (stop : bool) then ret true
  else run_after Own 0 (afterHooks rq) (view rq) rs.

(** The retry loop of [Request.do]; [cur] is the pair [(rsp, err)] held when
    the loop is entered. *)
Fixpoint retry_loop (rq : Request) (r : WireRequest) (waits : list Duration)
  (cur : option Response * option error) : Go (option Response * option error) :=
  match waits with
  | [] => ret cur
  | wait :: rest =>
      time_Sleep wait ;;;
      res <- Request__do rq r ;;
      match snd res with
      | Some _ => ret res
      | None => retry_loop rq r rest res
      end
  end.

(** [Request.do].  The hooks change [*r] in place and [req.req] points to
    the same object, so the request is left holding the changed value. *)
Definition Request_do (rq : Request)
  : Go ((option Response * option error) * Request) :=
  let '(m, rq) := Request_Request rq in
  match m with
  | inr e => ret ((None, Some e), rq)
  | inl r =>
      r <- Request_doBeforeRequestHooks rq r ;;
      let rq := set_req rq (Some r) in
      t <- time_Now ;;
      let rq := set_startAt rq t in
      res <- Request__do rq r ;;
      match snd res with
      | None => ret (res, rq)
      | Some _ =>
          res <- retry_loop rq r (retries rq) res ;;
          ret (res, rq)
      end
  end.

(** [Request.Response] *)
Definition Request_Response (rq : Request)
  : Go ((option Response * option error) * Request) :=
  t <- time_Now ;;
  let rq := set_startAt rq t in
  out <- Request_do rq ;;
  let '(res, rq) := out in
  t <- time_Now ;;
  let rq := set_endAt rq t in
  Request_doAfterHooks rq (fst res) ;;;
  ret (res, rq).

(** ** Reading the body of a response *)

Definition set_Body (rs : Response) (st : Stream) : Response :=
  mkResponse (mkWireResponse (StatusCode (rsp rs)) st) (body rs) (err rs) (dump rs).

(** [Response.Bytes] *)
Definition Response_Bytes (rs : Response)
  : Go ((option (list Byte.byte) * option error) * Response) :=
  match body rs, err rs with
  | None, None =>
      emit EvReadAll ;;;
      let '((bs, e), st) := ioutil_ReadAll (Body (rsp rs)) in
      let rs := set_Body rs st in
      match e with
      | Some _ => ret ((Some bs, e), rs)
      | None =>
          (* the deferred [rsp.rsp.Body.Close()] *)
          emit EvClose ;;;
          ret ((Some bs, None), set_Body rs (Body_Close st))
      end
  | _, _ => ret ((body rs, err rs), rs)
  end.

(** ** The other builders *)

(** [Service.Method]: the path is looked up under [uriKey]; a lookup in a
    nil map finds nothing. *)
Definition Service_Method (s : Service) (method uriKey : string) : result Request :=
  match default ∅ (paths s) !! uriKey with
  | None => Panic ("not found" +:+ uriKey)
  | Some uri => Normal (Service_Request s method uri)
  end.

Definition Service_Get (s : Service) (uri : string) : Request :=
  Service_Request s "GET" uri.

Definition Service_Post (s : Service) (uri : string) : Request :=
  Service_Request s "POST" uri.

(** [strings.Join] *)
Fixpoint strings_Join (elems : list string) (sep : string) : string :=
  match elems with
  | [] => ""
  | [a] => a
  | a :: rest => a +:+ sep +:+ strings_Join rest sep
  end.

Definition Service_Rest (s : Service) (method : string) (ps : list string) : Request :=
  Service_Request s method (strings_Join ps "/").

(** [textproto.CanonicalMIMEHeaderKey], which [http.Header.Add] applies to
    the key. *)
Variable CanonicalMIMEHeaderKey : string -> string.

Definition nil_map_assignment : string := "assignment to entry in nil map".

Definition with_s_header (s : Service) (h : option (gmap string (list string)))
  : Service :=
  mkService (host s) (hosts s) (paths s) h (s_conf s) (client s)
    (s_beforeRequest s) (s_afterHooks s).

(** [Service.RawHeader]: [s.header[key] = []string{value}], with no check
    of [s.header]; writing to a nil map panics. *)
Definition Service_RawHeader (s : Service) (key value : string) : result Service :=
  match s_header s with
  | None => Panic nil_map_assignment
  | Some h => Normal (with_s_header s (Some (<[key := [value]]> h)))
  end.

(** [Service.Header]: [s.header.Add(key, value)], that is
    [h[k] = append(h[k], value)] for the canonical key [k]. *)
Definition Service_Header (s : Service) (key value : string) : result Service :=
  match s_header s with
  | None => Panic nil_map_assignment
  | Some h => Normal (with_s_header s
                        (Some (Values_Add h (CanonicalMIMEHeaderKey key) value)))
  end.

Definition with_header (r : Request) (h : option (gmap string (list string)))
  : Request :=
  mkRequest (uri r) (conf r) (method r) (retries r) h (service r)
    (startAt r) (endAt r) (params r) (req r) (beforeRequest r) (afterHooks r).

(** [Request.RawHeader]: the map is made when it is nil.  A map that
    [Service.Request] took from the Service is the Service's as well; the
    statements on the header builders are about requests whose Service has
    no header map. *)
Definition Request_RawHeader (r : Request) (key value : string) : Request :=
  let h := match header r with Some h => h | None => ∅ end in
  with_header r (Some (<[key := [value]]> h)).

(** [Request.Header] *)
Definition Request_Header (r : Request) (key value : string) : Request :=
  let h := match header r with Some h => h | None => ∅ end in
  with_header r (Some (Values_Add h (CanonicalMIMEHeaderKey key) value)).

(** The pair [(rsp, err)] that [_do] returns for an answer of the
    network. *)
Definition outcome_of (x : WireResponse + error)
  : option Response * option error :=
  match x with
  | inl resp => (Some (mkResponse resp None None false), None)
  | inr e => (None, Some e)
  end.

(** The events of the retries that sleep the delays [ds], the first of
    them making the [k]-th network call. *)
Fixpoint retry_events (k : nat) (ds : list Duration) : list Event :=
  match ds with
  | [] => []
  | d :: rest => EvSleep d :: EvDo k :: retry_events (S k) rest
  end.

(** The time slept over the delays [ds]. *)
Fixpoint slept (ds : list Duration) : Z :=
  match ds with
  | [] => 0
  | d :: rest => Z.max 0 d + slept rest
  end.

(** The delays slept by the retries whose first call is the [k]-th: every
    delay up to and with the first one whose call fails. *)
Fixpoint retried (k : nat) (r : WireRequest) (waits : list Duration)
  : list Duration :=
  match waits with
  | [] => []
  | d :: rest =>
      match client_Do k r with
      | inl _ => d :: retried (S k) r rest
      | inr _ => [d]
      end
  end.

(** The number of hooks of [hooks] called on [v] and [rs]: all of them up
    to and with the first that signals stop. *)
Fixpoint called_hooks (hooks : list AfterFunc) (v : RequestView)
  (rs : option Response) : nat :=
  match hooks with
  | [] => 0
  | hook :: rest => if hook v rs then 1 else S (called_hooks rest v rs)
  end.

(** Exactly one of the response and the error is nil. *)
Definition one_of (res : option Response * option error) : Prop :=
  match res with
  | (Some _, None) | (None, Some _) => True
  | _ => False
  end.

(** ** Vocabulary of the statements *)

(** The world [w] after the events [evs]. *)
Definition after_events (w : World) (evs : list Event) : World :=
  mkWorld (clock w) (calls w) (trace w ++ evs).

(** The values of the pairs of [ps] whose key is [k], in order. *)
Definition values_of (k : string) (ps : list (string * string)) : list string :=
  snd <$> filter (fun p => fst p = k) ps.

(** [k] is bound again by a pair of [ps] after position [i]. *)
Definition rebound_after (k : string) (i : nat) (ps : list (string * string)) : Prop :=
  exists j v, (i < j)%nat /\ ps !! j = Some (k, v).

(** The events of calling [n1] shared-scope hooks and then [n2] hooks of the
    request, each list from its first hook to its last. *)
Definition before_tags (n1 n2 : nat) : list Event :=
  (EvBeforeHook Shared <$> seq 0 n1) ++ (EvBeforeHook Own <$> seq 0 n2).

Definition after_tags (n1 n2 : nat) : list Event :=
  (EvAfterHook Shared <$> seq 0 n1) ++ (EvAfterHook Own <$> seq 0 n2).

Definition is_after_hook (e : Event) : Prop :=
  match e with
  | EvAfterHook _ _ => True
  | _ => False
  end.

(** ** Properties of the paired-argument builders *)

Lemma list_pair_ind {A} (P : list A -> Prop) :
  P [] -> (forall x, P [x]) -> (forall x y l, P l -> P (x :: y :: l)) ->
  forall l, P l.
Proof.
  intros Hnil Hone Hstep l.
  assert (H : P l /\ forall x, P (x :: l)).
  { induction l as [|a l [IH1 IH2]]; split; auto. }
  apply H.
Qed.

Lemma store_paths_pairs (args : list string) (m : gmap string string) :
  store_paths args m = foldl (fun m p => <[fst p := snd p]> m) m (pairs_of args).
Proof.
  revert m. induction args as [| x | x y l IH] using list_pair_ind; intros m;
    simpl; auto.
Qed.

Lemma add_params_pairs (args : list string) (v : gmap string (list string)) :
  add_params args v = foldl (fun v p => Values_Add v (fst p) (snd p)) v (pairs_of args).
Proof.
  revert v. induction args as [| x | x y l IH] using list_pair_ind; intros v;
    simpl; auto.
Qed.

Lemma foldl_insert_untouched (ps : list (string * string)) (m : gmap string string) k :
  (forall j v, ps !! j <> Some (k, v)) ->
  foldl (fun m p => <[fst p := snd p]> m) m ps !! k = m !! k.
Proof.
  revert m. induction ps as [|[k0 v0] ps IH]; intros m Hno; simpl; [done|].
  rewrite IH.
  - apply lookup_insert_ne. intros ->. by apply (Hno 0%nat v0).
  - intros j v. apply (Hno (S j) v).
Qed.

Lemma foldl_insert_last (ps : list (string * string)) (m : gmap string string) i k v :
  ps !! i = Some (k, v) ->
  ~ rebound_after k i ps ->
  foldl (fun m p => <[fst p := snd p]> m) m ps !! k = Some v.
Proof.
  revert m i. induction ps as [|[k0 v0] ps IH]; intros m i Hi Hlast; [done|].
  destruct i as [|i]; simpl in *.
  - injection Hi as -> ->. rewrite foldl_insert_untouched.
    + apply lookup_insert_eq.
    + intros j v' Hj. apply Hlast. exists (S j), v'. split; [lia | done].
  - apply (IH _ i); [done|]. intros (j & v' & Hlt & Hj). apply Hlast.
    exists (S j), v'. split; [lia | done].
Qed.

Lemma foldl_Values_Add (ps : list (string * string)) (v : gmap string (list string)) k :
  default [] (foldl (fun v p => Values_Add v (fst p) (snd p)) v ps !! k)
  = default [] (v !! k) ++ values_of k ps.
Proof.
  revert v. induction ps as [|[k0 x] ps IH]; intros v; simpl.
  - unfold values_of. simpl. by rewrite app_nil_r.
  - rewrite IH. unfold values_of, Values_Add. rewrite filter_cons. simpl.
    destruct (decide (k0 = k)) as [->|Hne].
    + rewrite lookup_insert_eq. simpl. by rewrite <- app_assoc.
    + by rewrite lookup_insert_ne.
Qed.

Lemma odd_len_true {A} (args : list A) :
  (length args mod 2 <> 0)%nat -> odd_len args = true.
Proof. unfold odd_len. by destruct (Nat.eqb_spec (length args mod 2) 0). Qed.

Lemma odd_len_false {A} (args : list A) :
  (length args mod 2 = 0)%nat -> odd_len args = false.
Proof. unfold odd_len. by destruct (Nat.eqb_spec (length args mod 2) 0). Qed.

(** C9.  [Service.Paths] and [Request.Params] panic exactly when they are
    given an odd number of arguments.  On an even number they return
    normally: [Paths] has bound each key to the value of its last pair, and
    [Params] has appended the values of each key's pairs, in order, to the
    values the key had. *)
Theorem paired_builders_panic_on_odd_store_on_even
  (s : Service) (rq : Request) (args : list string) :
  ((length args mod 2 <> 0)%nat ->
     Service_Paths s args = Panic "method and path are not pairs" /\
     Request_Params rq args = Panic "params error") /\
  ((length args mod 2 = 0)%nat ->
     exists m vs,
       Service_Paths s args
         = Normal (mkService (host s) (hosts s) (Some m) (s_header s) (s_conf s)
                     (client s) (s_beforeRequest s) (s_afterHooks s)) /\
       Request_Params rq args = Normal (set_params rq (Some vs)) /\
       (forall i k v, pairs_of args !! i = Some (k, v) ->
          ~ rebound_after k i (pairs_of args) -> m !! k = Some v) /\
       (forall k, (forall j v, pairs_of args !! j <> Some (k, v)) ->
          m !! k = default ∅ (paths s) !! k) /\
       (forall k, default [] (vs !! k)
          = default [] (default ∅ (params rq) !! k) ++ values_of k (pairs_of args))).
Proof.
  split; intros Hlen.
  - unfold Service_Paths, Request_Params. by rewrite odd_len_true.
  - unfold Service_Paths, Request_Params. rewrite odd_len_false by done.
    eexists _, _. split; [reflexivity|]. split; [reflexivity|].
    rewrite store_paths_pairs, add_params_pairs.
    split; [|split].
    + intros i k v Hi Hlast. by apply (foldl_insert_last _ _ i).
    + intros k Hno. rewrite foldl_insert_untouched by done. by destruct (paths s).
    + intros k. rewrite foldl_Values_Add. by destruct (params rq).
Qed.

(** ** Properties of the hook pipeline *)

Lemma after_events_nil w : after_events w [] = w.
Proof. destruct w. unfold after_events. simpl. by rewrite app_nil_r. Qed.

Lemma after_events_app w evs1 evs2 :
  after_events (after_events w evs1) evs2 = after_events w (evs1 ++ evs2).
Proof. unfold after_events. simpl. by rewrite app_assoc. Qed.

Lemma emit_after_events e w : emit e w = (Normal tt, after_events w [e]).
Proof. reflexivity. Qed.

Lemma run_before_spec sc i hooks r w :
  run_before sc i hooks r w
  = (Normal (foldl (fun r hook => hook r) r hooks),
     after_events w (EvBeforeHook sc <$> seq i (length hooks))).
Proof.
  revert i r w. induction hooks as [|hook rest IH]; intros i r w; simpl.
  - by rewrite after_events_nil.
  - unfold bind. rewrite emit_after_events, IH, after_events_app. reflexivity.
Qed.

Lemma run_after_no_stop sc i hooks v rs w :
  (forall hook, hook ∈ hooks -> hook v rs = false) ->
  run_after sc i hooks v rs w
  = (Normal false, after_events w (EvAfterHook sc <$> seq i (length hooks))).
Proof.
  revert i w. induction hooks as [|hook rest IH]; intros i w Hall; simpl.
  - by rewrite after_events_nil.
  - unfold bind. rewrite emit_after_events.
    rewrite (Hall hook) by apply list_elem_of_here.
    rewrite IH, after_events_app; [reflexivity|].
    intros h Hh. apply Hall. by apply list_elem_of_further.
Qed.

Lemma run_after_stop sc i pre hook post v rs w :
  (forall h, h ∈ pre -> h v rs = false) ->
  hook v rs = true ->
  run_after sc i (pre ++ hook :: post) v rs w
  = (Normal true, after_events w (EvAfterHook sc <$> seq i (S (length pre)))).
Proof.
  revert i w. induction pre as [|h0 pre IH]; intros i w Hpre Hstop; simpl.
  - unfold bind. rewrite emit_after_events, Hstop. reflexivity.
  - unfold bind. rewrite emit_after_events.
    rewrite (Hpre h0) by apply list_elem_of_here.
    rewrite IH, after_events_app; [reflexivity | | done].
    intros h Hh. apply Hpre. by apply list_elem_of_further.
Qed.

Lemma take_after_tags_shared n1 n2 k :
  (k <= n1)%nat ->
  take k (after_tags n1 n2) = EvAfterHook Shared <$> seq 0 k.
Proof.
  intros Hk. unfold after_tags.
  rewrite take_app_le by (rewrite length_fmap, length_seq; lia).
  rewrite <- fmap_take, take_seq. f_equal. f_equal. lia.
Qed.

Lemma take_after_tags_own n1 n2 k :
  (k <= n2)%nat ->
  take (n1 + k) (after_tags n1 n2)
  = (EvAfterHook Shared <$> seq 0 n1) ++ (EvAfterHook Own <$> seq 0 k).
Proof.
  intros Hk. unfold after_tags.
  rewrite take_app_ge by (rewrite length_fmap, length_seq; lia).
  rewrite length_fmap, length_seq.
  replace (n1 + k - n1)%nat with k by lia.
  rewrite <- fmap_take, take_seq. do 3 f_equal. lia.
Qed.

(** C5.  For a request owned by a Service, the pre-send hooks called are
    all shared-scope hooks and then all hooks of the request, each list in
    order, every hook seeing the wire request as the hooks before it left
    it.  The post-response hooks are called in the same order; when none
    signals stop all of them are called, and when one does it is the last
    one called. *)
Theorem hooks_run_shared_then_own_until_stop
  (rq : Request) (s : Service) (r : WireRequest) (rs : option Response) (w : World) :
  service rq = Some s ->
  let before := s_beforeRequest s ++ beforeRequest rq in
  let after := s_afterHooks s ++ afterHooks rq in
  let called := after_tags (length (s_afterHooks s)) (length (afterHooks rq)) in
  Request_doBeforeRequestHooks rq r w
    = (Normal (foldl (fun r hook => hook r) r before),
       after_events w (before_tags (length (s_beforeRequest s))
                         (length (beforeRequest rq)))) /\
  ((forall hook, hook ∈ after -> hook (view rq) rs = false) ->
     Request_doAfterHooks rq rs w = (Normal false, after_events w called)) /\
  (forall pre hook post,
     after = pre ++ hook :: post ->
     (forall h, h ∈ pre -> h (view rq) rs = false) ->
     hook (view rq) rs = true ->
     Request_doAfterHooks rq rs w
       = (Normal true, after_events w (take (S (length pre)) called))).
Proof.
  intros Hs before after called. subst before after called.
  unfold Request_doBeforeRequestHooks, Request_doAfterHooks. rewrite Hs.
  split; [|split].
  - unfold bind. rewrite run_before_spec, run_before_spec, after_events_app.
    by rewrite foldl_app.
  - intros Hall. unfold bind.
    rewrite run_after_no_stop by (intros h Hh; apply Hall, elem_of_app; auto).
    rewrite run_after_no_stop by (intros h Hh; apply Hall, elem_of_app; auto).
    by rewrite after_events_app.
  - intros pre hook post Heq Hpre Hstop. unfold bind.
    apply app_eq_app in Heq as [l [[Hsa Hpost]|[Hp Hown]]].
    + destruct l as [|h l]; simpl in Hpost.
      * (* the stopping hook is the first hook of the request *)
        rewrite app_nil_r in Hsa. subst pre. rewrite <- Hpost.
        rewrite run_after_no_stop by done.
        rewrite (run_after_stop Own 0 [] hook post) by (done || set_solver).
        rewrite after_events_app. simpl length.
        replace (S (length (s_afterHooks s)))
          with (length (s_afterHooks s) + 1)%nat by lia.
        rewrite take_after_tags_own by (simpl; lia).
        reflexivity.
      * (* the stopping hook is a shared-scope hook *)
        injection Hpost as <- Hpost. rewrite Hsa.
        rewrite run_after_stop by done.
        rewrite take_after_tags_shared; [reflexivity|].
        rewrite length_app. simpl. lia.
    + (* the stopping hook is a hook of the request *)
      subst pre. rewrite Hown.
      rewrite run_after_no_stop
        by (intros h Hh; apply Hpre, elem_of_app; auto).
      rewrite run_after_stop;
        [| intros h Hh; apply Hpre, elem_of_app; auto | done].
      rewrite after_events_app, length_app.
      replace (S (length (s_afterHooks s) + length l))
        with (length (s_afterHooks s) + S (length l))%nat by lia.
      rewrite take_after_tags_own; [reflexivity|].
      rewrite length_app. simpl. lia.
Qed.

Lemma run_after_only_after_hooks sc i hooks v rs w :
  exists stop evs,
    run_after sc i hooks v rs w = (Normal stop, after_events w evs) /\
    Forall is_after_hook evs.
Proof.
  revert i w. induction hooks as [|hook rest IH]; intros i w; simpl.
  - exists false, []. by rewrite after_events_nil.
  - unfold bind. rewrite emit_after_events. destruct (hook v rs).
    + exists true, [EvAfterHook sc i]. split; [done|]. by repeat constructor.
    + destruct (IH (S i) (after_events w [EvAfterHook sc i]))
        as (stop & evs & -> & Hevs).
      exists stop, (EvAfterHook sc i :: evs). rewrite after_events_app.
      split; [done|]. by constructor.
Qed.

Lemma doAfterHooks_only_after_hooks rq rs w :
  exists stop evs,
    Request_doAfterHooks rq rs w = (Normal stop, after_events w evs) /\
    Forall is_after_hook evs.
Proof.
  unfold Request_doAfterHooks, bind.
  destruct (service rq) as [s|].
  - destruct (run_after_only_after_hooks Shared 0 (s_afterHooks s) (view rq) rs w)
      as (stop & evs & -> & Hevs).
    destruct stop; [by exists true, evs|].
    destruct (run_after_only_after_hooks Own 0 (afterHooks rq) (view rq) rs
                (after_events w evs)) as (stop & evs' & -> & Hevs').
    exists stop, (evs ++ evs'). rewrite after_events_app.
    split; [done|]. by apply Forall_app.
  - simpl.
    destruct (run_after_only_after_hooks Own 0 (afterHooks rq) (view rq) rs w)
      as (stop & evs & -> & Hevs).
    by exists stop, evs.
Qed.

(** ** Properties of the executor *)

Lemma Request_Request_set_startAt rq t :
  Request_Request (set_startAt rq t)
  = (fst (Request_Request rq), set_startAt (snd (Request_Request rq)) t).
Proof.
  unfold Request_Request. simpl. destruct (req rq); [done|].
  destruct (decide (method rq = "")); simpl;
    destruct (http_NewRequest _ (uri rq)); reflexivity.
Qed.

Lemma Request_Request_failure_keeps_req rq e :
  fst (Request_Request rq) = inr e -> req (snd (Request_Request rq)) = None.
Proof.
  unfold Request_Request. destruct (req rq) eqn:Hreq; [done|].
  destruct (decide (method rq = "")); simpl;
    destruct (http_NewRequest _ (uri rq)); simpl; done.
Qed.

(** C3, as the code has it.  When the wire request cannot be built,
    [Response] returns that error with no response; it makes no network
    call, does not sleep and calls no pre-send hook.  The post-response
    hooks are run all the same, on a nil response: the events of the run
    are those of [doAfterHooks], and nothing else. *)
Theorem materialization_failure_runs_only_after_hooks
  (rq : Request) (e : error) (w : World) :
  fst (Request_Request rq) = inr e ->
  exists rq' evs,
    Request_Response rq w = (Normal ((None, Some e), rq'), after_events w evs) /\
    req rq' = None /\
    Forall is_after_hook evs /\
    after_events w evs = snd (Request_doAfterHooks rq' None w).
Proof.
  intros Hfail.
  unfold Request_Response, Request_do, bind, time_Now.
  rewrite Request_Request_set_startAt, Hfail. simpl.
  set (rq' := set_endAt (set_startAt (snd (Request_Request rq)) (clock w)) (clock w)).
  destruct (doAfterHooks_only_after_hooks rq' None w) as (stop & evs & Hrun & Hevs).
  exists rq', evs. rewrite Hrun. simpl. repeat split; try done.
  by apply (Request_Request_failure_keeps_req rq e).
Qed.

Lemma Request__do_no_service rq r w :
  service rq = None -> Request__do rq r w = (Panic nil_dereference, w).
Proof. intros H. unfold Request__do. by rewrite H. Qed.

Lemma Response_no_service rq r w :
  service rq = None ->
  fst (Request_Request rq) = inl r ->
  Request_Response rq w
  = (Panic nil_dereference,
     after_events w (EvBeforeHook Own <$> seq 0 (length (beforeRequest rq)))).
Proof.
  intros Hs Hr.
  unfold Request_Response, Request_do, bind, time_Now.
  rewrite Request_Request_set_startAt, Hr. simpl.
  unfold Request_doBeforeRequestHooks, bind.
  assert (Hsvc : service (set_startAt (snd (Request_Request rq)) (clock w)) = None).
  { simpl. unfold Request_Request. destruct (req rq); [done|].
    destruct (decide (method rq = "")); simpl;
      destruct (http_NewRequest _ (uri rq)); simpl; done. }
  assert (Hbefore : beforeRequest (set_startAt (snd (Request_Request rq)) (clock w))
                    = beforeRequest rq).
  { simpl. unfold Request_Request. destruct (req rq); [done|].
    destruct (decide (method rq = "")); simpl;
      destruct (http_NewRequest _ (uri rq)); simpl; done. }
  rewrite Hsvc, Hbefore. simpl. rewrite run_before_spec.
  rewrite Request__do_no_service by done. reflexivity.
Qed.

(** C10.  A request made by [NewRequest] has no Service, whatever retry
    delays and hooks are then put on it.  When its method and URI give a
    wire request, [Response] runs the request's pre-send hooks and then
    panics on the nil Service in [_do], before any network call; the
    accessor [client], which [_do] does not use, would have given a client. *)
Theorem standalone_request_panics_on_nil_service
  (method uri : string) (retires : list Duration)
  (before : list BeforeRequestHook) (after : list AfterFunc)
  (r : WireRequest) (w : World) :
  http_NewRequest (if decide (method = "") then "GET" else method) uri = inl r ->
  let rq := Request_AfterExec
              (Request_BeforeRequest
                 (Request_RetryDelay (NewRequest method uri) retires) before)
              after in
  service rq = None /\
  Request_Response rq w
    = (Panic nil_dereference,
       after_events w (EvBeforeHook Own <$> seq 0 (length before))) /\
  Request_client rq = Some (mkClient (20 * second)).
Proof.
  intros Hr rq. split; [reflexivity|]. split; [|reflexivity].
  rewrite (Response_no_service rq r); [reflexivity | reflexivity |].
  unfold Request_Request. simpl.
  destruct (decide (method = "")); simpl; by rewrite Hr.
Qed.

(** *** The retry loop *)

Lemma Request_Request_keeps rq :
  service (snd (Request_Request rq)) = service rq /\
  retries (snd (Request_Request rq)) = retries rq /\
  beforeRequest (snd (Request_Request rq)) = beforeRequest rq /\
  afterHooks (snd (Request_Request rq)) = afterHooks rq.
Proof.
  unfold Request_Request. destruct (req rq); [done|].
  destruct (decide (method rq = "")); simpl;
    destruct (http_NewRequest _ (uri rq)); simpl; done.
Qed.

Lemma Request__do_failure rq s r e w :
  service rq = Some s -> client s <> None ->
  client_Do (calls w) r = inr e ->
  Request__do rq r w
  = (Normal (None, Some e),
     mkWorld (clock w) (S (calls w)) (trace w ++ [EvDo (calls w)])).
Proof.
  intros Hs Hcl He. unfold Request__do, bind, Client_Do. rewrite Hs.
  destruct (client s); [|done]. by rewrite He.
Qed.

Lemma Request__do_success rq s r resp w :
  service rq = Some s -> client s <> None ->
  client_Do (calls w) r = inl resp ->
  Request__do rq r w
  = (Normal (Some (mkResponse resp None None false), None),
     mkWorld (clock w) (S (calls w)) (trace w ++ [EvDo (calls w)])).
Proof.
  intros Hs Hcl He. unfold Request__do, bind, Client_Do. rewrite Hs.
  destruct (client s); [|done]. by rewrite He.
Qed.

(** A retry that fails ends the loop, whatever delays are left. *)
Lemma retry_loop_returns_on_failure rq s r d rest cur e w :
  service rq = Some s -> client s <> None ->
  client_Do (calls w) r = inr e ->
  retry_loop rq r (d :: rest) cur w
  = (Normal (None, Some e),
     mkWorld (clock w + Z.max 0 d) (S (calls w))
       (trace w ++ [EvSleep d; EvDo (calls w)])).
Proof.
  intros Hs Hcl He. simpl. unfold bind at 1. unfold time_Sleep. unfold bind.
  erewrite Request__do_failure by (simpl; eauto). simpl.
  by rewrite <- app_assoc.
Qed.

(** A retry that succeeds does not end the loop: the next delay is slept
    and the call is made again. *)
Lemma retry_loop_goes_on_after_success rq s r d rest cur resp w :
  service rq = Some s -> client s <> None ->
  client_Do (calls w) r = inl resp ->
  retry_loop rq r (d :: rest) cur w
  = retry_loop rq r rest (Some (mkResponse resp None None false), None)
      (mkWorld (clock w + Z.max 0 d) (S (calls w))
         (trace w ++ [EvSleep d; EvDo (calls w)])).
Proof.
  intros Hs Hcl He. simpl. unfold bind at 1. unfold time_Sleep. unfold bind at 1.
  erewrite Request__do_success by (simpl; eauto). simpl.
  by rewrite <- app_assoc.
Qed.

(** On a transport that fails every call, [do] makes the first call and at
    most one retry. *)
Lemma do_always_failing rq s r w :
  service rq = Some s -> client s <> None ->
  fst (Request_Request rq) = inl r ->
  (forall k r', exists e, client_Do k r' = inr e) ->
  exists e rq' w',
    Request_do rq w = (Normal ((None, Some e), rq'), w') /\
    calls w' = (calls w + Nat.min (S (length (retries rq))) 2)%nat.
Proof.
  intros Hs Hcl Hr Hfail. unfold Request_do.
  destruct (Request_Request_keeps rq) as (Hs' & Hret & _ & _).
  destruct (Request_Request rq) as [m rq1]. simpl in *. subst m.
  unfold bind at 1. unfold Request_doBeforeRequestHooks, bind at 1.
  rewrite Hs', Hs, run_before_spec. unfold bind at 1. rewrite run_before_spec.
  unfold bind at 1. unfold time_Now. unfold bind at 1.
  match goal with
  | |- context [Request__do ?q ?x ?v] =>
      destruct (Hfail (calls v) x) as [e He];
      rewrite (Request__do_failure q s x e v)
        by (first [exact He | exact Hcl | simpl; congruence])
  end.
  cbn [snd]. unfold bind. rewrite Hret.
  destruct (retries rq) as [|d rest].
  - simpl. eexists _, _, _. split; [reflexivity|]. simpl. lia.
  - match goal with
    | |- context [retry_loop ?q ?x _ ?c ?v] =>
        destruct (Hfail (calls v) x) as [e' He'];
        rewrite (retry_loop_returns_on_failure q s x d rest c e' v)
          by (first [exact He' | exact Hcl | simpl; congruence])
    end.
    eexists _, _, _. split; [reflexivity|]. simpl. lia.
Qed.

(** *** Reading the body *)

(** [Bytes] never assigns [rsp.body] or [rsp.err]: a response whose cache
    is empty, as [_do] makes it, still has an empty cache after the call,
    and the call has read the stream. *)
Lemma Response_Bytes_leaves_cache_empty rs w :
  body rs = None -> err rs = None ->
  exists out rs' evs,
    Response_Bytes rs w = (Normal (out, rs'), after_events w (EvReadAll :: evs)) /\
    out = (Some (fst (fst (ioutil_ReadAll (Body (rsp rs))))),
           snd (fst (ioutil_ReadAll (Body (rsp rs))))) /\
    body rs' = None /\ err rs' = None.
Proof.
  intros Hb He. unfold Response_Bytes. rewrite Hb, He.
  unfold bind at 1. rewrite emit_after_events.
  destruct (ioutil_ReadAll (Body (rsp rs))) as [[bs e] st]. simpl.
  destruct e as [e|].
  - eexists _, _, []. split; [reflexivity|]. simpl. auto.
  - unfold bind. rewrite emit_after_events, after_events_app.
    eexists _, _, [EvClose]. split; [reflexivity|]. simpl. auto.
Qed.

(** ** Further properties of the builders *)

Lemma store_paths_lookup_last (args : list string) (m : gmap string string) i k v :
  pairs_of args !! i = Some (k, v) ->
  ~ rebound_after k i (pairs_of args) ->
  store_paths args m !! k = Some v.
Proof. rewrite store_paths_pairs. apply foldl_insert_last. Qed.

(** What [Paths] has stored, [Method] finds: a key is resolved to the path
    of its last pair, and the request made is the one [Request] makes for
    that path.  A key that no pair names and that was not bound before
    makes [Method] panic. *)
Theorem Paths_then_Method
  (s s' : Service) (args : list string) (method k : string) :
  Service_Paths s args = Normal s' ->
  (forall i v,
     pairs_of args !! i = Some (k, v) ->
     ~ rebound_after k i (pairs_of args) ->
     Service_Method s' method k = Normal (Service_Request s' method v) /\
     uri (Service_Request s' method v) = host s +:+ v /\
     service (Service_Request s' method v) = Some s') /\
  ((forall j v, pairs_of args !! j <> Some (k, v)) ->
   default ∅ (paths s) !! k = None ->
   Service_Method s' method k = Panic ("not found" +:+ k)).
Proof.
  unfold Service_Paths. destruct (odd_len args); [done|]. intros Hs'.
  simplify_eq. unfold Service_Method. simpl. split.
  - intros i v Hi Hlast. by rewrite (store_paths_lookup_last _ _ i k v).
  - intros Hno Hold. rewrite store_paths_pairs, foldl_insert_untouched by done.
    destruct (paths s); simpl in *; by rewrite Hold.
Qed.

(** [NewService] leaves the header map of the Service nil and [Paths] does
    not touch it, so on a Service made by these two [RawHeader] and
    [Header] panic, whatever the key and the value; and [Method] panics on
    a Service that has been given no path. *)
Theorem Service_header_builders_panic_on_new_service
  (c : option Conf) (args : list string) (s : Service)
  (key value method : string) :
  Service_Paths (NewService c) args = Normal s ->
  Service_RawHeader s key value = Panic nil_map_assignment /\
  Service_Header s key value = Panic nil_map_assignment /\
  Service_RawHeader (NewService c) key value = Panic nil_map_assignment /\
  Service_Header (NewService c) key value = Panic nil_map_assignment /\
  Service_Method (NewService c) method key = Panic ("not found" +:+ key).
Proof.
  unfold Service_Paths. destruct (odd_len args); [done|]. intros Hs.
  simplify_eq. done.
Qed.

Lemma pairs_of_app (a b : list string) :
  (length a mod 2 = 0)%nat -> pairs_of (a ++ b) = pairs_of a ++ pairs_of b.
Proof.
  revert b. induction a as [| x | x y l IH] using list_pair_ind; intros b Hlen.
  - done.
  - done.
  - simpl. f_equal. apply IH. cbn [length] in Hlen.
    replace (S (S (length l))) with (length l + 1 * 2)%nat in Hlen by lia.
    by rewrite Nat.Div0.mod_add in Hlen.
Qed.

Lemma odd_len_app {A} (a b : list A) :
  (length a mod 2 = 0)%nat -> odd_len (a ++ b) = odd_len b.
Proof.
  intros Hlen. unfold odd_len. rewrite length_app.
  by rewrite Nat.Div0.add_mod, Hlen, Nat.add_0_l, Nat.Div0.mod_mod.
Qed.

(** Calls of a builder compose.  Hooks added by a second [BeforeRequest] or
    [AfterExec] come after those of the first; a second [RetryDelay]
    replaces the delays of the first; and [Params] given an even number of
    arguments and then more arguments does what one [Params] does on all
    of them. *)
Theorem builder_calls_compose
  (rq : Request) (h1 h2 : list BeforeRequestHook) (a1 a2 : list AfterFunc)
  (d1 d2 : list Duration) (p1 p2 : list string) :
  Request_BeforeRequest (Request_BeforeRequest rq h1) h2
    = Request_BeforeRequest rq (h1 ++ h2) /\
  Request_AfterExec (Request_AfterExec rq a1) a2
    = Request_AfterExec rq (a1 ++ a2) /\
  Request_RetryDelay (Request_RetryDelay rq d1) d2 = Request_RetryDelay rq d2 /\
  ((length p1 mod 2 = 0)%nat ->
   exists rq1,
     Request_Params rq p1 = Normal rq1 /\
     Request_Params rq1 p2 = Request_Params rq (p1 ++ p2)).
Proof.
  split; [|split; [|split]].
  - unfold Request_BeforeRequest, set_beforeRequest. simpl. by rewrite app_assoc.
  - unfold Request_AfterExec, set_afterHooks. simpl. by rewrite app_assoc.
  - reflexivity.
  - intros Hlen. unfold Request_Params. rewrite odd_len_false by done.
    eexists. split; [reflexivity|]. rewrite odd_len_app by done.
    destruct (odd_len p2); [done|]. simpl. unfold set_params. simpl.
    do 3 f_equal. rewrite !add_params_pairs, pairs_of_app by done.
    by rewrite foldl_app.
Qed.

(** ** Further properties of the executor *)

Lemma doBeforeRequestHooks_owned rq s r w :
  service rq = Some s ->
  Request_doBeforeRequestHooks rq r w
  = (Normal (foldl (fun r hook => hook r) r (s_beforeRequest s ++ beforeRequest rq)),
     after_events w (before_tags (length (s_beforeRequest s))
                       (length (beforeRequest rq)))).
Proof.
  intros Hs. unfold Request_doBeforeRequestHooks, bind. rewrite Hs.
  rewrite !run_before_spec, after_events_app. by rewrite foldl_app.
Qed.

Lemma Request__do_owned rq s r w :
  service rq = Some s -> client s <> None ->
  Request__do rq r w
  = (Normal (outcome_of (client_Do (calls w) r)),
     mkWorld (clock w) (S (calls w)) (trace w ++ [EvDo (calls w)])).
Proof.
  intros Hs Hcl. unfold Request__do, bind, Client_Do. rewrite Hs.
  destruct (client s); [|done].
  by destruct (client_Do (calls w) r).
Qed.

Lemma Request__do_no_client rq s r w :
  service rq = Some s -> client s = None ->
  Request__do rq r w = (Panic nil_dereference, w).
Proof. intros Hs Hcl. unfold Request__do. by rewrite Hs, Hcl. Qed.

Lemma one_of_outcome x : one_of (outcome_of x).
Proof. by destruct x. Qed.

Lemma retried_prefix k r waits : retried k r waits `prefix_of` waits.
Proof.
  revert k. induction waits as [|d rest IH]; intros k; simpl; [done|].
  destruct (client_Do k r); [by apply prefix_cons | apply prefix_cons, prefix_nil].
Qed.

(** The retry loop, entered with the outcome of the call [k0] in hand. *)
Lemma retry_loop_shape rq s r waits k0 w :
  service rq = Some s -> client s <> None ->
  calls w = S k0 ->
  let ds := retried (S k0) r waits in
  retry_loop rq r waits (outcome_of (client_Do k0 r)) w
  = (Normal (outcome_of (client_Do (k0 + length ds) r)),
     mkWorld (clock w + slept ds) (calls w + length ds)
       (trace w ++ retry_events (calls w) ds)).
Proof.
  intros Hs Hcl. revert k0 w.
  induction waits as [|d rest IH]; intros k0 w Hk.
  - simpl. unfold ret.
    rewrite !Nat.add_0_r, Z.add_0_r, app_nil_r. by destruct w.
  - cbn [retry_loop retried]. unfold bind at 1, time_Sleep. unfold bind at 1.
    rewrite (Request__do_owned _ s) by done. cbn [calls clock trace].
    rewrite Hk.
    destruct (client_Do (S k0) r) as [resp|e] eqn:Hcall; cbn [snd outcome_of].
    + pose proof (IH (S k0) (mkWorld (clock w + Z.max 0 d) (S (S k0))
                               ((trace w ++ [EvSleep d]) ++ [EvDo (S k0)]))
                    eq_refl) as Hloop.
      cbn zeta in Hloop.
      rewrite Hcall in Hloop. cbn [outcome_of] in Hloop. rewrite Hloop.
      cbn [calls clock trace length slept retry_events]. f_equal.
      * do 3 f_equal. lia.
      * f_equal; [lia | lia |]. by rewrite <- !app_assoc.
    + unfold ret. cbn [length slept retry_events]. f_equal.
      * replace (k0 + 1)%nat with (S k0) by lia. by rewrite Hcall.
      * f_equal; [lia | lia |]. by rewrite <- app_assoc.
Qed.

(** The delays slept by a run whose first call is the [k]-th. *)
Definition delays_slept (k : nat) (r : WireRequest) (waits : list Duration)
  : list Duration :=
  match client_Do k r with
  | inl _ => []
  | inr _ => retried (S k) r waits
  end.

Lemma delays_slept_prefix k r waits : delays_slept k r waits `prefix_of` waits.
Proof.
  unfold delays_slept. destruct (client_Do k r); [apply prefix_nil|].
  apply retried_prefix.
Qed.

Lemma Request_do_owned rq rq1 s r w :
  service rq = Some s -> client s <> None ->
  Request_Request rq = (inl r, rq1) ->
  let r' := foldl (fun r hook => hook r) r (s_beforeRequest s ++ beforeRequest rq) in
  let ds := delays_slept (calls w) r' (retries rq) in
  Request_do rq w
  = (Normal (outcome_of (client_Do (calls w + length ds) r'),
             set_startAt (set_req rq1 (Some r')) (clock w)),
     mkWorld (clock w + slept ds) (calls w + S (length ds))
       (trace w ++ before_tags (length (s_beforeRequest s))
                     (length (beforeRequest rq))
                ++ EvDo (calls w) :: retry_events (S (calls w)) ds)).
Proof.
  intros Hs Hcl Hrr r' ds. subst ds. unfold delays_slept.
  destruct (Request_Request_keeps rq) as (Hs1 & Hret & Hbefore & _).
  rewrite Hrr in Hs1, Hret, Hbefore. cbn [snd] in Hs1, Hret, Hbefore.
  rewrite Hs in Hs1.
  unfold Request_do. rewrite Hrr. unfold bind at 1.
  rewrite (doBeforeRequestHooks_owned rq1 s) by done. rewrite Hbefore.
  fold r'. unfold bind at 1, time_Now. unfold bind at 1.
  rewrite (Request__do_owned _ s) by done. cbn [calls clock trace after_events].
  set (w2 := mkWorld (clock w) (S (calls w))
               ((trace w ++ before_tags (length (s_beforeRequest s))
                              (length (beforeRequest rq)))
                ++ [EvDo (calls w)])).
  pose proof (retry_loop_shape (set_startAt (set_req rq1 (Some r')) (clock w))
                s r' (retries rq) (calls w) w2 Hs1 Hcl eq_refl) as Hloop.
  cbn zeta in Hloop.
  destruct (client_Do (calls w) r') as [resp|e] eqn:Hcall; cbn [snd outcome_of].
  - unfold ret. cbn [length slept retry_events]. rewrite Nat.add_0_r, Hcall.
    cbn [outcome_of]. f_equal. subst w2.
    f_equal; [lia | lia |]. by rewrite <- app_assoc.
  - unfold bind. cbn [retries set_startAt set_req]. rewrite Hret.
    cbn [outcome_of] in Hloop. rewrite Hloop. unfold ret. f_equal. subst w2.
    cbn [calls clock trace]. f_equal; [lia |].
    by rewrite <- !app_assoc.
Qed.

(** The post-response hooks of one list: the hooks called and the signal
    returned. *)
Lemma run_after_called sc i hooks v rs w :
  run_after sc i hooks v rs w
  = (Normal (existsb (fun hook => hook v rs) hooks),
     after_events w (EvAfterHook sc <$> seq i (called_hooks hooks v rs))).
Proof.
  revert i w. induction hooks as [|hook rest IH]; intros i w; simpl.
  - unfold ret, after_events. rewrite app_nil_r. by destruct w.
  - unfold bind. rewrite emit_after_events.
    destruct (hook v rs); simpl; [reflexivity|].
    rewrite IH, after_events_app. reflexivity.
Qed.

Lemma called_hooks_le hooks v rs : (called_hooks hooks v rs <= length hooks)%nat.
Proof.
  induction hooks as [|hook rest IH]; simpl; [done|].
  destruct (hook v rs); lia.
Qed.

Lemma called_hooks_app_stop hooks1 hooks2 v rs :
  existsb (fun hook : AfterFunc => hook v rs) hooks1 = true ->
  called_hooks (hooks1 ++ hooks2) v rs = called_hooks hooks1 v rs.
Proof.
  induction hooks1 as [|hook rest IH]; simpl; [done|].
  destruct (hook v rs); simpl; [done|]. intros H. by rewrite IH.
Qed.

Lemma called_hooks_app_go hooks1 hooks2 v rs :
  existsb (fun hook : AfterFunc => hook v rs) hooks1 = false ->
  called_hooks (hooks1 ++ hooks2) v rs
  = (length hooks1 + called_hooks hooks2 v rs)%nat.
Proof.
  induction hooks1 as [|hook rest IH]; simpl; [done|].
  destruct (hook v rs); simpl; [done|]. intros H. by rewrite IH.
Qed.

(** The post-response hooks of a request a Service owns: the events are the
    tags of the hooks called, shared-scope hooks first. *)
Lemma doAfterHooks_owned rq s rs w :
  service rq = Some s ->
  let hooks := s_afterHooks s ++ afterHooks rq in
  Request_doAfterHooks rq rs w
  = (Normal (existsb (fun hook => hook (view rq) rs) hooks),
     after_events w
       (take (called_hooks hooks (view rq) rs)
          (after_tags (length (s_afterHooks s)) (length (afterHooks rq))))).
Proof.
  intros Hs hooks. subst hooks.
  unfold Request_doAfterHooks, bind. rewrite Hs, run_after_called.
  rewrite existsb_app. unfold AfterFunc in *.
  destruct (existsb (fun hook : RequestView -> option Response -> bool =>
                       hook (view rq) rs) (s_afterHooks s)) eqn:Hstop; simpl.
  - rewrite (called_hooks_app_stop _ _ _ _ Hstop).
    rewrite take_after_tags_shared by apply called_hooks_le. reflexivity.
  - rewrite (called_hooks_app_go _ _ _ _ Hstop).
    rewrite run_after_called, after_events_app.
    rewrite take_after_tags_own by apply called_hooks_le.
    pose proof (called_hooks_app_go _ [] _ _ Hstop) as Hall.
    rewrite app_nil_r in Hall. simpl in Hall. rewrite Nat.add_0_r in Hall.
    rewrite Hall. reflexivity.
Qed.

Lemma Response_owned_shape
  (rq rq1 : Request) (s : Service) (r : WireRequest) (w : World) :
  service rq = Some s -> client s <> None ->
  Request_Request rq = (inl r, rq1) ->
  let r' := foldl (fun r hook => hook r) r (s_beforeRequest s ++ beforeRequest rq) in
  let ds := delays_slept (calls w) r' (retries rq) in
  let out := outcome_of (client_Do (calls w + length ds) r') in
  let rq2 := set_endAt (set_startAt (set_req rq1 (Some r')) (clock w))
               (clock w + slept ds) in
  Request_Response rq w
  = (Normal (out, rq2),
     mkWorld (clock w + slept ds) (calls w + S (length ds))
       (trace w ++ before_tags (length (s_beforeRequest s))
                     (length (beforeRequest rq))
                ++ EvDo (calls w) :: retry_events (S (calls w)) ds
                ++ take (called_hooks (s_afterHooks s ++ afterHooks rq)
                           (view rq2) (fst out))
                     (after_tags (length (s_afterHooks s))
                        (length (afterHooks rq))))).
Proof.
  intros Hs Hcl Hrr r' ds out rq2.
  assert (Hrr' : Request_Request (set_startAt rq (clock w))
                 = (inl r, set_startAt rq1 (clock w))).
  { rewrite Request_Request_set_startAt, Hrr. done. }
  pose proof (Request_do_owned (set_startAt rq (clock w)) _ s r w Hs Hcl Hrr')
    as Hdo.
  cbn zeta in Hdo. cbn [beforeRequest retries set_startAt] in Hdo.
  fold r' in Hdo. fold ds in Hdo. fold out in Hdo.
  destruct (Request_Request_keeps rq) as (Hs1 & _ & _ & Hafter).
  rewrite Hrr in Hs1, Hafter. cbn [snd] in Hs1, Hafter.
  unfold Request_Response, bind, time_Now. rewrite Hdo.
  cbn [clock calls trace].
  match goal with
  | |- context [Request_doAfterHooks ?q ?x ?v] =>
      change q with rq2;
      rewrite (doAfterHooks_owned rq2 s x v) by (cbn; congruence)
  end.
  cbn [afterHooks set_endAt set_startAt set_req rq2]. rewrite Hafter.
  unfold ret, after_events. cbn [clock calls trace]. f_equal.
  f_equal. rewrite <- !app_assoc. simpl. done.
Qed.

Lemma slept_nonneg ds : 0 <= slept ds.
Proof. induction ds as [|d ds IH]; simpl; lia. Qed.

(** Executing a request owned by a Service that has a client, whose wire
    request can be built.  [Response] returns, and what it does is fixed:
    the pre-send hooks run first, shared-scope hooks and then the hooks of
    the request; then the network is called once and, when that call
    fails, once more after each retry delay up to and with the first
    delay whose call fails, every call carrying the wire request as the
    hooks left it; then the post-response hooks run, shared-scope hooks
    first, on the request with its end time set and on the response of
    the last call, up to and with the first hook that signals stop.  The
    envelope is the outcome of the last call.  The request is left holding
    the wire request the hooks changed, the time of the start and the
    time of the end. *)
Theorem Response_of_owned_request
  (rq rq1 : Request) (s : Service) (r : WireRequest) (w : World) :
  service rq = Some s -> client s <> None ->
  Request_Request rq = (inl r, rq1) ->
  let r' := foldl (fun r hook => hook r) r (s_beforeRequest s ++ beforeRequest rq) in
  let ds := match client_Do (calls w) r' with
            | inl _ => []
            | inr _ => retried (S (calls w)) r' (retries rq)
            end in
  let out := outcome_of (client_Do (calls w + length ds) r') in
  let rq2 := set_endAt (set_startAt (set_req rq1 (Some r')) (clock w))
               (clock w + slept ds) in
  Request_Response rq w
  = (Normal (out, rq2),
     mkWorld (clock w + slept ds) (calls w + S (length ds))
       (trace w ++ before_tags (length (s_beforeRequest s))
                     (length (beforeRequest rq))
                ++ EvDo (calls w) :: retry_events (S (calls w)) ds
                ++ take (called_hooks (s_afterHooks s ++ afterHooks rq)
                           (view rq2) (fst out))
                     (after_tags (length (s_afterHooks s))
                        (length (afterHooks rq))))) /\
  ds `prefix_of` retries rq.
Proof.
  intros Hs Hcl Hrr r' ds out rq2.
  split; [by apply Response_owned_shape | apply delays_slept_prefix].
Qed.

(** [Response] on a request a Service owns, with hooks that return.  When
    the Service has a client, as every Service made by [NewService] has,
    [Response] does not panic: it returns an envelope in which exactly one
    of the response and the error is nil, after at most one network call
    more than there are retry delays, and none when the wire request
    cannot be built; the request is left with the start and the end of
    the run as its two timestamps.  When the Service has no client and the
    wire request can be built, [Response] panics on the nil client after
    the pre-send hooks, before any network call. *)
Theorem Response_of_owned_request_returns
  (rq : Request) (s : Service) (w : World) :
  service rq = Some s ->
  (client s <> None ->
   exists res rq' w',
     Request_Response rq w = (Normal (res, rq'), w') /\
     one_of res /\
     (calls w <= calls w' <= calls w + S (length (retries rq)))%nat /\
     (forall e, fst (Request_Request rq) = inr e -> calls w' = calls w) /\
     startAt rq' = clock w /\ endAt rq' = clock w' /\ clock w <= clock w') /\
  (client s = None ->
   forall r, fst (Request_Request rq) = inl r ->
   Request_Response rq w
   = (Panic nil_dereference,
      after_events w (before_tags (length (s_beforeRequest s))
                        (length (beforeRequest rq))))).
Proof.
  intros Hs. split.
  - intros Hcl. destruct (Request_Request rq) as [[r|e] rq1] eqn:Hrr.
    + pose proof (Response_owned_shape rq rq1 s r w Hs Hcl Hrr) as Hrun.
      cbn zeta in Hrun.
      eexists _, _, _. split; [exact Hrun|].
      match goal with
      | |- context [delays_slept ?k ?x ?l] =>
          pose proof (prefix_length _ _ (delays_slept_prefix k x l));
          pose proof (slept_nonneg (delays_slept k x l))
      end.
      cbn [fst]. repeat split; try done; cbn [calls clock]; try lia.
      apply one_of_outcome.
    + unfold Request_Response, Request_do, bind, time_Now.
      rewrite Request_Request_set_startAt, Hrr. simpl.
      match goal with
      | |- context [Request_doAfterHooks ?q ?x ?v] =>
          destruct (doAfterHooks_only_after_hooks q x v)
            as (stop & after & Hafter & Hall); rewrite Hafter
      end.
      eexists _, _, _. split; [reflexivity|].
      repeat split; try done; simpl; lia.
  - intros Hcl r Hr.
    destruct (Request_Request_keeps rq) as (Hs1 & _ & Hbefore & _).
    unfold Request_Response, Request_do, bind, time_Now.
    rewrite Request_Request_set_startAt.
    destruct (Request_Request rq) as [m rq1]. cbn [fst snd] in *. subst m.
    unfold bind.
    rewrite (doBeforeRequestHooks_owned (set_startAt rq1 (clock w)) s)
      by (cbn; congruence).
    cbn [beforeRequest set_startAt]. rewrite Hbefore.
    rewrite (Request__do_no_client _ s) by (cbn; congruence).
    reflexivity.
Qed.


(** Executing a request again runs the pre-send hooks again, on the wire
    request the first run left: what the hooks do to the wire request
    adds up from run to run.  The Service has a client, so that the runs
    return. *)
Theorem hooks_apply_again_on_reexecution
  (rq rq1 : Request) (s : Service) (r : WireRequest) (w : World) :
  service rq = Some s -> client s <> None ->
  Request_Request rq = (inl r, rq1) ->
  let hooks := s_beforeRequest s ++ beforeRequest rq in
  let once := foldl (fun r hook => hook r) r hooks in
  let twice := foldl (fun r hook => hook r) once hooks in
  exists res1 rqA wA (ds : list Duration) rqB wB,
    Request_Response rq w = (Normal (res1, rqA), wA) /\
    req rqA = Some once /\
    Request_Response rqA wA
      = (Normal (outcome_of (client_Do (calls wA + length ds) twice), rqB), wB) /\
    req rqB = Some twice.
Proof.
  intros Hs Hcl Hrr hooks once twice.
  destruct (Request_Request_keeps rq) as (Hs1 & _ & Hbefore & _).
  rewrite Hrr in Hs1, Hbefore. cbn [snd] in Hs1, Hbefore.
  pose proof (Response_owned_shape rq rq1 s r w Hs Hcl Hrr) as Hrun1.
  cbn zeta in Hrun1.
  eexists _, _, _.
  match type of Hrun1 with
  | _ = (Normal (_, ?qa), ?wa) =>
      assert (HsA : service qa = Some s) by (cbn; congruence);
      assert (HrrA : Request_Request qa = (inl once, qa)) by reflexivity;
      pose proof (Response_owned_shape qa qa s once wa HsA Hcl HrrA) as Hrun2
  end.
  cbn zeta in Hrun2.
  cbn [beforeRequest set_endAt set_startAt set_req] in Hrun2.
  rewrite Hbefore in Hrun2.
  eexists _, _, _. split; [exact Hrun1|]. split; [reflexivity|].
  split; [exact Hrun2|]. reflexivity.
Qed.

(** The outcome [out] of a run, with [f] applied to the request it
    returns. *)
Definition on_request {X} (f : Request -> Request)
  (out : result (X * Request) * World) : result (X * Request) * World :=
  match out with
  | (Normal (x, q), w) => (Normal (x, f q), w)
  | (Panic msg, w) => (Panic msg, w)
  end.

Lemma Request_Request_ignores_data rq p h :
  Request_Request (with_header (set_params rq p) h)
  = (fst (Request_Request rq),
     with_header (set_params (snd (Request_Request rq)) p) h).
Proof.
  unfold Request_Request. simpl. destruct (req rq); [done|].
  destruct (decide (method rq = "")); simpl;
    destruct (http_NewRequest _ (uri rq)); reflexivity.
Qed.

Lemma retry_loop_ignores_data rq p h r waits cur w :
  retry_loop (with_header (set_params rq p) h) r waits cur w
  = retry_loop rq r waits cur w.
Proof.
  revert cur w. induction waits as [|d rest IH]; intros cur w; [done|].
  cbn [retry_loop]. unfold bind at 1 3. destruct (time_Sleep d w) as [[[]|msg] w1];
    [|done].
  unfold bind.
  change (Request__do (with_header (set_params rq p) h) r w1)
    with (Request__do rq r w1).
  destruct (Request__do rq r w1) as [[res|msg] w2]; [|done].
  destruct (snd res); [done|]. apply IH.
Qed.

Lemma Request_do_ignores_data rq p h w :
  Request_do (with_header (set_params rq p) h) w
  = on_request (fun q => with_header (set_params q p) h) (Request_do rq w).
Proof.
  unfold Request_do. rewrite Request_Request_ignores_data.
  destruct (Request_Request rq) as [[r|e] rq1]; cbn [fst snd]; [|done].
  unfold bind at 1 5.
  change (Request_doBeforeRequestHooks (with_header (set_params rq1 p) h) r w)
    with (Request_doBeforeRequestHooks rq1 r w).
  destruct (Request_doBeforeRequestHooks rq1 r w) as [[r'|msg] w1]; [|done].
  unfold bind at 1 4. unfold time_Now. unfold bind at 1 3.
  match goal with
  | |- context [Request__do ?q r' w1] =>
      change (Request__do q r' w1)
        with (Request__do (set_startAt (set_req rq1 (Some r')) (clock w1)) r' w1)
  end.
  destruct (Request__do (set_startAt (set_req rq1 (Some r')) (clock w1)) r' w1)
    as [[res|msg] w2]; [|done].
  destruct (snd res); [|done].
  unfold bind.
  change (retries (set_startAt (set_req (with_header (set_params rq1 p) h)
                                  (Some r')) (clock w1)))
    with (retries (set_startAt (set_req rq1 (Some r')) (clock w1))).
  change (set_startAt (set_req (with_header (set_params rq1 p) h) (Some r'))
            (clock w1))
    with (with_header (set_params (set_startAt (set_req rq1 (Some r')) (clock w1))
                         p) h).
  rewrite retry_loop_ignores_data.
  by destruct (retry_loop _ r' _ res w2) as [[res'|msg] w3].
Qed.

(** The parameters and the headers put on a request are never sent.  The
    wire request is built from the method and the URI, so a run of
    [Response] on a request gives the same result, calls and events
    whatever [Params], [RawHeader] or [Header] has stored in it: the
    request returned differs in these two fields only.  A hook is passed
    the request and reads of it what [RequestView] has.  For the two
    header builders the Service of the request has no header map, as no
    function makes one for a Service: the map written is then the
    request's own, and not one it shares with its Service. *)
Theorem params_and_headers_are_not_sent
  (rq rq' : Request) (args : list string) (key value : string) (w : World) :
  Request_Params rq args = Normal rq' \/
  (forall s, service rq = Some s -> s_header s = None) /\
  (rq' = Request_RawHeader rq key value \/
   rq' = Request_Header rq key value) ->
  Request_Response rq' w
  = on_request (fun q => with_header (set_params q (params rq')) (header rq'))
      (Request_Response rq w).
Proof.
  assert (Hgen : forall p h,
            Request_Response (with_header (set_params rq p) h) w
            = on_request (fun q => with_header (set_params q p) h)
                (Request_Response rq w)).
  { intros p h. unfold Request_Response, bind, time_Now.
    change (set_startAt (with_header (set_params rq p) h) (clock w))
      with (with_header (set_params (set_startAt rq (clock w)) p) h).
    rewrite Request_do_ignores_data.
    destruct (Request_do (set_startAt rq (clock w)) w) as [[[res q]|msg] w1];
      cbn [on_request]; [|done].
    match goal with
    | |- context [Request_doAfterHooks ?a (fst res) w1] =>
        change (Request_doAfterHooks a (fst res) w1)
          with (Request_doAfterHooks (set_endAt q (clock w1)) (fst res) w1)
    end.
    by destruct (Request_doAfterHooks (set_endAt q (clock w1)) (fst res) w1)
      as [[stop|msg] w2]. }
  intros [Hp|[_ [->| ->]]].
  - unfold Request_Params in Hp. destruct (odd_len args); [done|].
    simplify_eq. apply Hgen.
  - apply Hgen.
  - apply Hgen.
Qed.

End WithEnvironment.

(** ** The wire request is built once *)

(** A call of [Request.Request] that succeeds leaves the wire request in
    the request, and a call on a request that holds one returns the one
    held and leaves the request as it is, without consulting
    [http.NewRequest]: the result is the same under any other
    [http.NewRequest], one that refuses everything included.  Only a call
    on a request that holds none builds: it replaces an empty method by
    GET and makes the wire request from the method and the URI alone. *)
Theorem Request_Request_builds_once (Stream : Type)
  (http_NewRequest other_NewRequest : string -> string -> WireRequest + error)
  (rq rq1 : Request Stream) (r : WireRequest) :
  Request_Request Stream http_NewRequest rq = (inl r, rq1) ->
  req _ rq1 = Some r /\
  Request_Request Stream other_NewRequest rq1 = (inl r, rq1) /\
  (forall r0, req _ rq = Some r0 ->
     r = r0 /\ rq1 = rq /\
     Request_Request Stream other_NewRequest rq = (inl r0, rq)) /\
  (req _ rq = None ->
     method _ rq1 = (if decide (method _ rq = "") then "GET" else method _ rq) /\
     http_NewRequest (method _ rq1) (uri _ rq) = inl r /\
     rq1 = set_req Stream (set_method Stream rq (method _ rq1)) (Some r)).
Proof.
  unfold Request_Request. intros H.
  destruct (req _ rq) as [r0|] eqn:Hreq.
  - simplify_eq. rewrite Hreq. repeat split; try done; congruence.
  - destruct (decide (method _ rq = "")) as [Hm|Hm]; simpl in H;
      destruct (http_NewRequest _ (uri _ rq)) as [r1|e] eqn:Hnew; simplify_eq;
      simpl; repeat split; try done.
Qed.

(** ** A concrete environment *)

(** A response body as [net/http] hands it out: reading gives the bytes
    still pending, and reading after [Close] is an error. *)
Record SampleStream : Type := mkSampleStream {
  pending : list Byte.byte;
  closed : bool
}.

Definition sample_ReadAll (st : SampleStream)
  : (list Byte.byte * option error) * SampleStream :=
  if closed st
  then (([], Some (Error "http: read on closed response body")), st)
  else ((pending st, None), mkSampleStream [] false).

Definition sample_Close (st : SampleStream) : SampleStream :=
  mkSampleStream (pending st) true.

(** A method must be one of the usual ones; every URI is accepted. *)
Definition sample_NewRequest (method uri : string) : WireRequest + error :=
  if String.eqb method "GET" || String.eqb method "POST"
  then inl (mkWireRequest method uri ∅)
  else inr (Error "net/http: invalid method").

Definition hi : list Byte.byte := [Byte.x68; Byte.x69].

Definition sample_response : WireResponse SampleStream :=
  mkWireResponse SampleStream 200 (mkSampleStream hi false).

(** The transport that fails every call. *)
Definition always_fails (k : nat) (r : WireRequest)
  : WireResponse SampleStream + error :=
  inr (Error "dial tcp: connection refused").

(** The transport that fails the first [n] calls and answers the others. *)
Definition fails_first (n : nat) (k : nat) (r : WireRequest)
  : WireResponse SampleStream + error :=
  if (k <? n)%nat then inr (Error "dial tcp: connection refused")
  else inl sample_response.

Definition set_header (key value : string) : BeforeRequestHook :=
  fun r => mkWireRequest (Method r) (URL r) (<[key := [value]]> (Header r)).

(** Copies the header [from], as the hook finds it, to the header [to]. *)
Definition copy_header (from to : string) : BeforeRequestHook :=
  fun r => mkWireRequest (Method r) (URL r)
             (<[to := default [] (Header r !! from)]> (Header r)).

Definition never_stop : AfterFunc SampleStream := fun _ _ => false.
Definition always_stop : AfterFunc SampleStream := fun _ _ => true.

Definition w0 : World := mkWorld 0 0 [].

Definition sample_service : Service SampleStream :=
  mkService SampleStream "http://example.org" [] None None
    (mkConf (20 * second) false) (Some (mkClient (20 * second)))
    [set_header "X-Scope" "shared"] [never_stop; always_stop].

Definition sample_request : Request SampleStream :=
  Request_AfterExec SampleStream
    (Request_BeforeRequest SampleStream
       (Service_Request SampleStream sample_service "GET" "/items")
       [copy_header "X-Scope" "X-Seen"])
    [never_stop].

(** A request of [sample_service] with the retry delays [ds]. *)
Definition retrying (ds : list Duration) : Request SampleStream :=
  Request_RetryDelay SampleStream
    (Service_Request SampleStream (NewService SampleStream None) "GET" "/items") ds.

(** A Service with one hook of each kind, the post-response hook never
    signalling stop. *)
Definition quiet_service : Service SampleStream :=
  mkService SampleStream "http://example.org" [] None None
    (mkConf (20 * second) false) (Some (mkClient (20 * second)))
    [set_header "X-Scope" "shared"] [never_stop].

(** A request whose method [http.NewRequest] refuses, with one hook of each
    kind of its own. *)
Definition bad_request : Request SampleStream :=
  Request_AfterExec SampleStream
    (Request_BeforeRequest SampleStream
       (Service_Request SampleStream quiet_service "BAD METHOD" "/items")
       [set_header "X-Scope" "own"])
    [never_stop].

Lemma paired_builders_witness :
  (Service_Paths SampleStream sample_service ["GET"]
     = Panic "method and path are not pairs" /\
   Request_Params SampleStream sample_request ["GET"] = Panic "params error") /\
  exists m vs,
    Service_Paths SampleStream sample_service ["a"; "/x"; "b"; "/y"; "a"; "/z"]
      = Normal (mkService SampleStream (host _ sample_service) (hosts _ sample_service)
                  (Some m) (s_header _ sample_service) (s_conf _ sample_service)
                  (client _ sample_service) (s_beforeRequest _ sample_service)
                  (s_afterHooks _ sample_service)) /\
    Request_Params SampleStream sample_request ["a"; "/x"; "b"; "/y"; "a"; "/z"]
      = Normal (set_params SampleStream sample_request (Some vs)) /\
    m !! "a" = Some "/z" /\ m !! "b" = Some "/y" /\
    default [] (vs !! "a") = ["/x"; "/z"].
Proof.
  split.
  - apply (paired_builders_panic_on_odd_store_on_even SampleStream
             sample_service sample_request ["GET"]).
    simpl. lia.
  - destruct (paired_builders_panic_on_odd_store_on_even SampleStream
                sample_service sample_request ["a"; "/x"; "b"; "/y"; "a"; "/z"])
      as [_ Heven].
    destruct (Heven eq_refl) as (m & vs & Hp & Hq & Hlast & _ & Hvs).
    exists m, vs. split; [exact Hp|]. split; [exact Hq|].
    split; [|split].
    + apply (Hlast 2%nat); [reflexivity|].
      intros (j & v & Hlt & Hj). simpl in Hj.
      do 3 (destruct j as [|j]; [lia|]). discriminate.
    + apply (Hlast 1%nat); [reflexivity|].
      intros (j & v & Hlt & Hj). simpl in Hj.
      do 2 (destruct j as [|j]; [lia|]).
      destruct j as [|j]; discriminate.
    + rewrite Hvs. reflexivity.
Defined.

(** A request of [quiet_service] with a post-response hook of its own. *)
Definition quiet_request : Request SampleStream :=
  Request_AfterExec SampleStream
    (Service_Request SampleStream quiet_service "GET" "/items") [never_stop].

(** The hook of the request sees the header the hook of the Service has
    set; the second hook of [sample_service] stops the post-response hooks,
    and none stops those of [quiet_request]. *)
Lemma hooks_order_witness :
  Request_doBeforeRequestHooks SampleStream sample_request
    (mkWireRequest "GET" "http://example.org/items" ∅) w0
  = (Normal (mkWireRequest "GET" "http://example.org/items"
               (<["X-Seen" := ["shared"]]> (<["X-Scope" := ["shared"]]> ∅))),
     mkWorld 0 0 [EvBeforeHook Shared 0; EvBeforeHook Own 0]) /\
  Request_doAfterHooks SampleStream sample_request None w0
  = (Normal true, mkWorld 0 0 [EvAfterHook Shared 0; EvAfterHook Shared 1]) /\
  Request_doAfterHooks SampleStream quiet_request None w0
  = (Normal false, mkWorld 0 0 [EvAfterHook Shared 0; EvAfterHook Own 0]).
Proof.
  destruct (hooks_run_shared_then_own_until_stop SampleStream sample_request
              sample_service (mkWireRequest "GET" "http://example.org/items" ∅)
              None w0 eq_refl) as (Hbefore & _ & Hstop).
  destruct (hooks_run_shared_then_own_until_stop SampleStream quiet_request
              quiet_service (mkWireRequest "GET" "http://example.org/items" ∅)
              None w0 eq_refl) as (_ & Hnone & _).
  split; [exact Hbefore|]. split.
  - apply (Hstop [never_stop] always_stop [never_stop]); [reflexivity | | reflexivity].
    intros h Hh. apply list_elem_of_singleton in Hh. by subst h.
  - apply Hnone. intros h Hh.
    apply elem_of_cons in Hh as [->|Hh]; [reflexivity|].
    apply list_elem_of_singleton in Hh. by subst h.
Defined.

Lemma materialization_failure_witness :
  exists rq' evs,
    Request_Response SampleStream sample_NewRequest always_fails bad_request w0
      = (Normal ((None, Some (Error "net/http: invalid method")), rq'),
         after_events w0 evs) /\
    req _ rq' = None /\
    Forall is_after_hook evs /\
    after_events w0 evs = snd (Request_doAfterHooks SampleStream rq' None w0).
Proof.
  apply (materialization_failure_runs_only_after_hooks SampleStream
           sample_NewRequest always_fails bad_request
           (Error "net/http: invalid method") w0).
  reflexivity.
Defined.

(** C3, as stated, fails: the wire request of [bad_request] cannot be
    built, and [Response] still calls the post-response hook of the Service
    and then the one of the request. *)
Lemma materialization_failure_calls_after_hooks :
  fst (Request_Request SampleStream sample_NewRequest bad_request)
    = inr (Error "net/http: invalid method") /\
  fst (Request_Response SampleStream sample_NewRequest always_fails bad_request w0)
    = Normal ((None, Some (Error "net/http: invalid method")), bad_request) /\
  trace (snd (Request_Response SampleStream sample_NewRequest always_fails
                bad_request w0))
    = [EvAfterHook Shared 0; EvAfterHook Own 0].
Proof. repeat split. Qed.

Lemma standalone_request_witness :
  let rq := Request_AfterExec SampleStream
              (Request_BeforeRequest SampleStream
                 (Request_RetryDelay SampleStream
                    (NewRequest SampleStream "GET" "http://example.org/items")
                    [second])
                 [set_header "X-Scope" "own"])
              [never_stop] in
  service _ rq = None /\
  Request_Response SampleStream sample_NewRequest (fails_first 0) rq w0
    = (Panic nil_dereference, mkWorld 0 0 [EvBeforeHook Own 0]) /\
  Request_client SampleStream rq = Some (mkClient (20 * second)).
Proof.
  apply (standalone_request_panics_on_nil_service SampleStream sample_NewRequest
           (fails_first 0) "GET" "http://example.org/items" [second]
           [set_header "X-Scope" "own"] [never_stop]
           (mkWireRequest "GET" "http://example.org/items" ∅) w0).
  reflexivity.
Defined.

(** C1 at three delays: on the transport that fails every call, [Response]
    sleeps the first delay only and makes two network calls, not four. *)
Lemma always_failing_three_delays_two_calls :
  exists rq',
    Request_Response SampleStream sample_NewRequest always_fails
      (retrying [1 * second; 2 * second; 3 * second]) w0
    = (Normal ((None, Some (Error "dial tcp: connection refused")), rq'),
       mkWorld (1 * second) 2 [EvDo 0; EvSleep (1 * second); EvDo 1]).
Proof. eexists. vm_compute. reflexivity. Qed.

(** C2 at two delays: on the transport that fails the first two calls and
    answers the third, [Response] gives up at the failed first retry; the
    third call, which would have succeeded, is never made. *)
Lemma two_failures_two_delays_no_success :
  exists rq',
    Request_Response SampleStream sample_NewRequest (fails_first 2)
      (retrying [1 * second; 2 * second]) w0
    = (Normal ((None, Some (Error "dial tcp: connection refused")), rq'),
       mkWorld (1 * second) 2 [EvDo 0; EvSleep (1 * second); EvDo 1]).
Proof. eexists. vm_compute. reflexivity. Qed.

(** The other face of the same loop: once a retry has succeeded, the delays
    that are left are still slept and the call is made again each time. *)
Lemma retries_go_on_after_success :
  exists rq',
    Request_Response SampleStream sample_NewRequest (fails_first 1)
      (retrying [1 * second; 2 * second; 3 * second]) w0
    = (Normal ((Some (mkResponse SampleStream sample_response None None false),
                None), rq'),
       mkWorld (6 * second) 4
         [EvDo 0; EvSleep (1 * second); EvDo 1; EvSleep (2 * second); EvDo 2;
          EvSleep (3 * second); EvDo 3]).
Proof. eexists. vm_compute. reflexivity. Qed.

(** C4 on a body of two bytes: the first [Bytes] reads and closes the
    stream and leaves the cache of the response empty, so the second
    [Bytes] reads the stream again, and returns no bytes and an error where
    the first returned the body. *)
Lemma second_Bytes_reads_the_stream_again :
  let rs := mkResponse SampleStream sample_response None None false in
  let rs1 := mkResponse SampleStream
               (mkWireResponse SampleStream 200 (mkSampleStream [] true))
               None None false in
  Response_Bytes SampleStream sample_ReadAll sample_Close rs w0
    = (Normal ((Some hi, None), rs1), mkWorld 0 0 [EvReadAll; EvClose]) /\
  Response_Bytes SampleStream sample_ReadAll sample_Close rs1
      (mkWorld 0 0 [EvReadAll; EvClose])
    = (Normal ((Some [], Some (Error "http: read on closed response body")), rs1),
       mkWorld 0 0 [EvReadAll; EvClose; EvReadAll]).
Proof. split; reflexivity. Qed.

(** ** Instances of the further properties *)

(** Header keys as given, for keys already in canonical form. *)
Definition keep_key (key : string) : string := key.

(** A request of [sample_service] with no method yet. *)
Definition no_method : Request SampleStream :=
  Service_Request SampleStream sample_service "" "/items".

(** The transport of names that refuses every method. *)
Definition refuses_all (method uri : string) : WireRequest + error :=
  inr (Error "net/http: invalid method").

Lemma Request_Request_witness :
  let r := mkWireRequest "GET" "http://example.org/items" ∅ in
  let rq1 := set_req SampleStream (set_method SampleStream no_method "GET") (Some r) in
  Request_Request SampleStream sample_NewRequest no_method = (inl r, rq1) /\
  Request_Request SampleStream refuses_all no_method
    = (inr (Error "net/http: invalid method"),
       set_method SampleStream no_method "GET") /\
  Request_Request SampleStream refuses_all rq1 = (inl r, rq1) /\
  method _ rq1 = "GET".
Proof.
  intros r rq1.
  destruct (Request_Request_builds_once SampleStream sample_NewRequest
              refuses_all no_method rq1 r eq_refl) as (_ & H2 & _ & H4).
  destruct (H4 eq_refl) as (H5 & _).
  split; [reflexivity|]. split; [reflexivity|].
  split; [exact H2 | exact H5].
Defined.

Lemma Paths_then_Method_witness :
  exists s',
    Service_Paths SampleStream sample_service
      ["users"; "/users"; "items"; "/items"] = Normal s' /\
    Service_Method SampleStream s' "GET" "items"
      = Normal (Service_Request SampleStream s' "GET" "/items") /\
    uri _ (Service_Request SampleStream s' "GET" "/items")
      = "http://example.org/items" /\
    Service_Method SampleStream s' "GET" "orders" = Panic "not foundorders".
Proof.
  eexists. split; [reflexivity|].
  match goal with
  | |- Service_Method _ ?s' _ _ = _ /\ _ =>
      destruct (Paths_then_Method SampleStream sample_service s'
                  ["users"; "/users"; "items"; "/items"] "GET" "items" eq_refl)
        as [Hfound _];
      destruct (Paths_then_Method SampleStream sample_service s'
                  ["users"; "/users"; "items"; "/items"] "GET" "orders" eq_refl)
        as [_ Hmissing]
  end.
  destruct (Hfound 1%nat "/items" eq_refl) as (H1 & H2 & _).
  { intros (j & v & Hlt & Hj). simpl in Hj.
    do 2 (destruct j as [|j]; [lia|]). discriminate. }
  split; [exact H1|]. split; [exact H2|].
  apply Hmissing; [|reflexivity].
  intros j v Hj. simpl in Hj.
  do 2 (destruct j as [|j]; [discriminate|]). discriminate.
Defined.

Lemma Service_header_witness :
  Service_RawHeader SampleStream
    (mkService SampleStream "" [] (Some (<["a" := "/a"]> ∅)) None
       (mkConf (20 * second) false) (Some (mkClient (20 * second))) [] [])
    "Accept" "text/plain" = Panic nil_map_assignment /\
  Service_Header SampleStream keep_key (NewService SampleStream None)
    "Accept" "text/plain" = Panic nil_map_assignment.
Proof.
  destruct (Service_header_builders_panic_on_new_service SampleStream keep_key
              None ["a"; "/a"]
              (mkService SampleStream "" [] (Some (<["a" := "/a"]> ∅)) None
                 (mkConf (20 * second) false) (Some (mkClient (20 * second))) [] [])
              "Accept" "text/plain" "GET" eq_refl) as (H1 & _ & _ & H4 & _).
  split; [exact H1 | exact H4].
Defined.

Lemma builder_calls_witness :
  exists rq1,
    Request_Params SampleStream sample_request ["a"; "1"] = Normal rq1 /\
    Request_Params SampleStream rq1 ["b"; "2"; "a"; "3"]
      = Request_Params SampleStream sample_request ["a"; "1"; "b"; "2"; "a"; "3"].
Proof.
  destruct (builder_calls_compose SampleStream sample_request [] [] [] [] [] []
              ["a"; "1"] ["b"; "2"; "a"; "3"]) as (_ & _ & _ & H).
  apply H. reflexivity.
Defined.

Lemma params_and_headers_witness :
  Request_Response SampleStream sample_NewRequest (fails_first 0)
    (Request_Header SampleStream keep_key sample_request "Accept" "text/plain") w0
  = on_request SampleStream
      (fun q => with_header SampleStream
                  (set_params SampleStream q
                     (params _ (Request_Header SampleStream keep_key
                                  sample_request "Accept" "text/plain")))
                  (header _ (Request_Header SampleStream keep_key
                               sample_request "Accept" "text/plain")))
      (Request_Response SampleStream sample_NewRequest (fails_first 0)
         sample_request w0).
Proof.
  apply (params_and_headers_are_not_sent SampleStream sample_NewRequest
           (fails_first 0) keep_key sample_request _ [] "Accept" "text/plain" w0).
  right. split; [|right; reflexivity].
  intros s [= <-]. reflexivity.
Defined.

(** A request of [sample_service] with two retry delays, on a transport
    whose first call fails: both delays are slept, and the second
    shared-scope post-response hook, which signals stop, is the last hook
    called. *)
Definition patient : Request SampleStream :=
  Request_RetryDelay SampleStream sample_request [1 * second; 2 * second].

Lemma Response_of_owned_request_witness :
  exists rq2,
    Request_Response SampleStream sample_NewRequest (fails_first 1) patient w0
    = (Normal ((Some (mkResponse SampleStream sample_response None None false),
                None), rq2),
       mkWorld (3 * second) 3
         [EvBeforeHook Shared 0; EvBeforeHook Own 0;
          EvDo 0; EvSleep (1 * second); EvDo 1; EvSleep (2 * second); EvDo 2;
          EvAfterHook Shared 0; EvAfterHook Shared 1]) /\
    req _ rq2
      = Some (mkWireRequest "GET" "http://example.org/items"
                (<["X-Seen" := ["shared"]]> (<["X-Scope" := ["shared"]]> ∅))) /\
    startAt _ rq2 = 0 /\ endAt _ rq2 = 3 * second.
Proof.
  pose proof (Response_of_owned_request SampleStream sample_NewRequest
                (fails_first 1) patient
                (set_req SampleStream patient
                   (Some (mkWireRequest "GET" "http://example.org/items" ∅)))
                sample_service
                (mkWireRequest "GET" "http://example.org/items" ∅) w0
                eq_refl ltac:(discriminate) eq_refl) as [H _].
  eexists. split; [exact H|]. split; [reflexivity|]. split; reflexivity.
Defined.

(** The zero Service: [&Service{}], which has no client. *)
Definition zero_service : Service SampleStream :=
  mkService SampleStream "" [] None None (mkConf 0 false) None [] [].

Lemma Response_returns_witness :
  (exists res rq' w',
     Request_Response SampleStream sample_NewRequest always_fails
       (retrying [1 * second; 2 * second]) w0 = (Normal (res, rq'), w') /\
     one_of SampleStream res /\
     (0 <= calls w' <= 0 + 3)%nat /\
     startAt _ rq' = 0 /\ endAt _ rq' = clock w' /\ 0 <= clock w') /\
  Request_Response SampleStream sample_NewRequest always_fails
    (Service_Request SampleStream zero_service "GET" "/items") w0
  = (Panic nil_dereference, w0).
Proof.
  split.
  - destruct (Response_of_owned_request_returns SampleStream sample_NewRequest
                always_fails (retrying [1 * second; 2 * second])
                (NewService SampleStream None) w0 eq_refl) as [H _].
    destruct (H ltac:(discriminate))
      as (res & rq' & w' & H1 & H2 & H3 & _ & H5 & H6 & H7).
    exists res, rq', w'. repeat split; try done; apply H3.
  - destruct (Response_of_owned_request_returns SampleStream sample_NewRequest
                always_fails
                (Service_Request SampleStream zero_service "GET" "/items")
                zero_service w0 eq_refl) as [_ H].
    exact (H eq_refl (mkWireRequest "GET" "/items" ∅) eq_refl).
Defined.

(** A hook that adds a value to a header adds it again at each run. *)
Definition add_header (key value : string) : BeforeRequestHook :=
  fun r => mkWireRequest (Method r) (URL r) (Values_Add (Header r) key value).

Definition tagging : Request SampleStream :=
  Request_BeforeRequest SampleStream
    (Service_Request SampleStream (NewService SampleStream None) "GET" "/items")
    [add_header "X-Run" "again"].

Lemma reexecution_witness :
  exists res1 rqA wA (ds : list Duration) rqB wB,
    Request_Response SampleStream sample_NewRequest (fails_first 0) tagging w0
      = (Normal (res1, rqA), wA) /\
    req _ rqA = Some (mkWireRequest "GET" "/items" (<["X-Run" := ["again"]]> ∅)) /\
    Request_Response SampleStream sample_NewRequest (fails_first 0) rqA wA
      = (Normal (outcome_of SampleStream
                   (fails_first 0 (calls wA + length ds)
                      (mkWireRequest "GET" "/items"
                         (<["X-Run" := ["again"; "again"]]> ∅))),
                 rqB), wB) /\
    req _ rqB
      = Some (mkWireRequest "GET" "/items" (<["X-Run" := ["again"; "again"]]> ∅)).
Proof.
  exact (hooks_apply_again_on_reexecution SampleStream sample_NewRequest
           (fails_first 0) tagging
           (set_req SampleStream tagging (Some (mkWireRequest "GET" "/items" ∅)))
           (NewService SampleStream None) (mkWireRequest "GET" "/items" ∅) w0
           eq_refl ltac:(discriminate) eq_refl).
Defined.

End Service.

(** * Groups of requests ([group.go])

    A Group holds pointers to requests; the requests live in a store and a
    pointer is an index into it (a pointer outside the store is nil).
    Goroutines are threads of a machine that takes one step at a time; the
    steps of the caller (the consumer of the stream) are the calls [Sync],
    [Async], [Continue], [Stop] and the receives.  Channels and cancellation
    contexts are numbered as they are made.  The two modes use different
    fields of the Group and are modelled one at a time. *)

Module Group.

Section WithEnvironment.

Variable Stream : Type.
Variable http_NewRequest : string -> string -> Service.WireRequest + error.
Variable client_Do :
  nat -> Service.WireRequest -> Service.WireResponse Stream + error.

Record ResponseWrapper : Type := mkResponseWrapper {
  Response : option (Service.Response Stream);
  Err : option error
}.

(** [rsp, err := req.Response()] on the pointer [p], wrapped as the
    goroutines wrap it. *)
Definition run_request (store : list (Service.Request Stream)) (w : World) (p : nat)
  : result (ResponseWrapper * list (Service.Request Stream)) * World :=
  match store !! p with
  | None => (Panic nil_dereference, w)
  | Some rq =>
      match Service.Request_Response Stream http_NewRequest client_Do rq w with
      | (Normal (res, rq'), w') =>
          (Normal (mkResponseWrapper (fst res) (snd res), <[p := rq']> store), w')
      | (Panic msg, w') => (Panic msg, w')
      end
  end.

(** ** Sequential gated mode: [Sync], [Continue], [Stop] *)

(** Where the goroutine started by [Sync] stands. *)
Inductive Producer : Type :=
| AtLoop (rest : list nat)
    (* at the head of [for _, req := range g.requests], [rest] still to do *)
| AtSend (rest : list nat) (next stop : nat) (env : ResponseWrapper)
    (* blocked in [g.sync <- env]; [next] and [stop] are its two contexts *)
| AtSelect (rest : list nat) (next stop : nat)
    (* blocked in [select] on [next.Done()] and [stop.Done()] *)
| AtClose       (* the deferred function, before [close(g.sync)] *)
| AtClear       (* the deferred function, before [g.sync = nil] *)
| Finished.

Record SyncState : Type := mkSyncState {
  requests : list nat;                    (* g.requests *)
  sync : option nat;                      (* g.sync, a channel *)
  next : option nat;                      (* g.next, the cancel function of a context *)
  stop : option nat;                      (* g.stop *)
  store : list (Service.Request Stream);  (* the requests pointed to *)
  world : World;
  cancelled : list nat;                   (* contexts whose Done channel is closed *)
  closed : list nat;                      (* channels that are closed *)
  fresh : nat;                            (* the next channel or context made *)
  producers : list Producer;              (* goroutines started by Sync *)
  executed : list nat;                    (* requests run, in order *)
  delivered : list (nat * ResponseWrapper);  (* envelopes received, with their channel *)
  crashed : option string                 (* the panic of a goroutine, once one has panicked *)
}.

(** [NewGroup(req...)] with nothing started. *)
Definition NewGroup (reqs : list nat) (st : list (Service.Request Stream)) (w : World)
  : SyncState :=
  mkSyncState reqs None None None st w [] [] 0 [] [] [] None.

Definition set_producer (j : nat) (p : Producer) (s : SyncState) : SyncState :=
  mkSyncState (requests s) (sync s) (next s) (stop s) (store s) (world s)
    (cancelled s) (closed s) (fresh s) (<[j := p]> (producers s))
    (executed s) (delivered s) (crashed s).

Definition cancel (c : nat) (s : SyncState) : SyncState :=
  mkSyncState (requests s) (sync s) (next s) (stop s) (store s) (world s)
    (c :: cancelled s) (closed s) (fresh s) (producers s)
    (executed s) (delivered s) (crashed s).

(** A goroutine panics with [msg], in the world [w].  Go then runs the
    deferred calls of that goroutine and, when they are done, ends the
    process; the other goroutines go on until then.  The machine records
    the panic and goes on: the goroutine that panicked is put by the step
    at its deferred function, and the end of the process, at whatever time
    after, is the end of the run. *)
Definition crash (msg : string) (w : World) (s : SyncState) : SyncState :=
  mkSyncState (requests s) (sync s) (next s) (stop s) (store s) w
    (cancelled s) (closed s) (fresh s) (producers s)
    (executed s) (delivered s) (Some msg).

(** [Group.Sync] up to its [return]: the test of [g.sync] and, when it is
    nil, the new channel and the new goroutine.  The consumer is one
    goroutine and no goroutine of the Group is at work while [g.sync] is
    nil, so nothing comes between the test and [go]. *)
Definition Group_Sync (s : SyncState) : SyncState :=
  match sync s with
  | Some c => s
  | None =>
      mkSyncState (requests s) (Some (fresh s)) (next s) (stop s) (store s)
        (world s) (cancelled s) (closed s) (S (fresh s))
        (producers s ++ [AtLoop (requests s)])
        (executed s) (delivered s) (crashed s)
  end.

(** [return g.sync], in either branch of [Group.Sync]: the field is read
    again, in the state [s] the goroutines have reached by then, and what
    it holds is returned, a channel or nil. *)
Definition Group_Sync_return (s : SyncState) : option nat := sync s.

(** [Group.Continue] *)
Definition Group_Continue (s : SyncState) : SyncState :=
  match next s with
  | Some c => cancel c s
  | None => s
  end.

(** [Group.Stop] *)
Definition Group_Stop (s : SyncState) : SyncState :=
  match stop s with
  | Some c => cancel c s
  | None => s
  end.

(** One step of the goroutine [j] that is not a send or a wake-up.  An
    iteration of the loop up to the send is one step: the request is run,
    the two contexts are made and [g.next] and [g.stop] are set to them.
    A panic in the loop takes the goroutine to its deferred function,
    which closes the channel and clears [g.sync] as at the end of the
    loop; a panic in the deferred function ends the goroutine. *)
Definition producer_step (j : nat) (s : SyncState) : option SyncState :=
  match producers s !! j with
  | Some (AtLoop []) => Some (set_producer j AtClose s)
  | Some (AtLoop (p :: rest)) =>
      match run_request (store s) (world s) p with
      | (Normal (env, store'), w') =>
          Some (mkSyncState (requests s) (sync s)
                  (Some (fresh s)) (Some (S (fresh s))) store' w'
                  (cancelled s) (closed s) (S (S (fresh s)))
                  (<[j := AtSend rest (fresh s) (S (fresh s)) env]> (producers s))
                  (executed s ++ [p]) (delivered s) (crashed s))
      | (Panic msg, w') => Some (crash msg w' (set_producer j AtClose s))
      end
  | Some AtClose =>
      match sync s with
      | None =>
          Some (crash "close of nil channel" (world s) (set_producer j Finished s))
      | Some c =>
          if bool_decide (c ∈ closed s)
          then Some (crash "close of closed channel" (world s)
                       (set_producer j Finished s))
          else Some (mkSyncState (requests s) (sync s) (next s) (stop s)
                       (store s) (world s) (cancelled s) (c :: closed s)
                       (fresh s) (<[j := AtClear]> (producers s))
                       (executed s) (delivered s) (crashed s))
      end
  | Some AtClear =>
      Some (mkSyncState (requests s) None (next s) (stop s)
              (store s) (world s) (cancelled s) (closed s)
              (fresh s) (<[j := Finished]> (producers s))
              (executed s) (delivered s) (crashed s))
  | _ => None
  end.

(** The send of the goroutine [j] meets a receive of the consumer. *)
Definition deliver (j : nat) (s : SyncState) : option SyncState :=
  match producers s !! j, sync s with
  | Some (AtSend rest n t env), Some c =>
      if bool_decide (c ∈ closed s)
      then Some (crash "send on closed channel" (world s)
                   (set_producer j AtClose s))
      else Some (mkSyncState (requests s) (sync s) (next s) (stop s)
                   (store s) (world s) (cancelled s) (closed s)
                   (fresh s) (<[j := AtSelect rest n t]> (producers s))
                   (executed s) (delivered s ++ [(c, env)]) (crashed s))
  | _, _ => None
  end.

(** The [select] of the goroutine [j] takes the case of [stop] ([by_stop])
    or the case of [next]; a case can be taken once its context is
    cancelled. *)
Definition wake (j : nat) (by_stop : bool) (s : SyncState) : option SyncState :=
  match producers s !! j with
  | Some (AtSelect rest n t) =>
      if by_stop
      then if bool_decide (t ∈ cancelled s)
           then Some (set_producer j AtClose s) else None
      else if bool_decide (n ∈ cancelled s)
           then Some (set_producer j (AtLoop rest) s) else None
  | _ => None
  end.

(** What the consumer, one goroutine, and the goroutines of the Group do.
    [CallSync] is a call of [Sync] up to its [return]. *)
Inductive Action : Type :=
| CallSync
| CallContinue
| CallStop
| Step (j : nat)
| Deliver (j : nat)
| Wake (j : nat) (by_stop : bool).

(** The state after the action, when the action can be taken. *)
Definition step (a : Action) (s : SyncState) : option SyncState :=
  match a with
  | CallSync => Some (Group_Sync s)
  | CallContinue => Some (Group_Continue s)
  | CallStop => Some (Group_Stop s)
  | Step j => producer_step j s
  | Deliver j => deliver j s
  | Wake j by_stop => wake j by_stop s
  end.

Fixpoint run (acts : list Action) (s : SyncState) : option SyncState :=
  match acts with
  | [] => Some s
  | a :: rest =>
      match step a s with
      | Some s' => run rest s'
      | None => None
      end
  end.

Definition reachable (s : SyncState) : Prop :=
  exists reqs st w acts, run acts (NewGroup reqs st w) = Some s.

Definition is_call (a : Action) : bool :=
  match a with
  | CallContinue | CallStop => true
  | _ => false
  end.

(** The goroutine [j] has been told to stop, through the context [t] of its
    [select], and not to go on, through [n]: it stands at the [select] or
    in the deferred function, or is finished; there is no other goroutine
    at work. *)
Record Stopping (j n t : nat) (s : SyncState) : Prop := mkStopping {
  st_stop : stop s = Some t;
  st_stopped : t ∈ cancelled s;
  st_not_next : n ∉ cancelled s;
  st_others : forall i q, producers s !! i = Some q -> i <> j -> q = Finished;
  st_where :
    (exists rest, producers s !! j = Some (AtSelect rest n t)) \/
    producers s !! j = Some AtClose \/
    producers s !! j = Some AtClear \/
    producers s !! j = Some Finished
}.

(** ** Parallel mode: [Async] *)

(** A buffered channel. *)
Record Chan : Type := mkChan {
  cap : nat;
  buf : list ResponseWrapper;
  is_closed : bool
}.

(** What [for _, req := range g.requests] declares: one variable [req]
    for the whole loop (Go before 1.22) or one for each iteration (Go 1.22
    and later).  The source says nothing of the version it is built with. *)
Inductive LoopVar : Type :=
| PerLoop
| PerIteration.

Variable loopvar : LoopVar.

(** The variables of one run of the goroutine started by [Async] that its
    workers share with it: the counter of [wg] and, when the loop has one
    variable [req], that variable. *)
Record Frame : Type := mkFrame {
  req : option nat;
  wg : nat
}.

Inductive Thread : Type :=
| CoLoop (f : nat) (rest : list nat)
    (* the goroutine of [Async] at the head of its loop, [rest] still to do *)
| CoWait (f : nat)      (* in [wg.Wait()] *)
| CoClose (f : nat)     (* before [close(g.async)] *)
| CoClear (f : nat)     (* before [g.async = nil] *)
| WkRun (f : nat) (own : option nat)
    (* a worker, before [req.Response()]; the function literal has
       captured the variable [req]: [own] is what the variable of its
       iteration holds, and is [None] when the variable is the one of the
       loop, in the frame *)
| WkSend (f : nat) (env : ResponseWrapper)   (* a worker, in [g.async <- env] *)
| WkDone (f : nat)      (* a worker, before the deferred [wg.Done()] *)
| Ended.

(** A run of a request by a worker: the frame and the thread of the
    worker, the request and the envelope made of what it returned. *)
Record Ran : Type := mkRan {
  ran_frame : nat;
  ran_thread : nat;
  ran_request : nat;
  ran_envelope : ResponseWrapper
}.

Record AsyncState : Type := mkAsyncState {
  a_requests : list nat;                    (* g.requests *)
  async : option nat;                       (* g.async, a channel *)
  a_store : list (Service.Request Stream);
  a_world : World;
  chans : list Chan;                        (* the channels made, by number *)
  frames : list Frame;
  threads : list Thread;
  a_executed : list Ran;                    (* the runs that returned, in order *)
  received : list (nat * ResponseWrapper);  (* envelopes received, with their channel *)
  a_crashed : option string                 (* the panic of a goroutine, once one has panicked *)
}.

Definition NewGroup_async (reqs : list nat) (st : list (Service.Request Stream))
  (w : World) : AsyncState :=
  mkAsyncState reqs None st w [] [] [] [] [] None.

(** A goroutine panics, as in the sequential mode: the panic is recorded,
    the step puts the goroutine at its deferred call, and the others go
    on until the process ends. *)
Definition a_crash (msg : string) (w : World) (s : AsyncState) : AsyncState :=
  mkAsyncState (a_requests s) (async s) (a_store s) w (chans s) (frames s)
    (threads s) (a_executed s) (received s) (Some msg).

Definition set_thread (i : nat) (t : Thread) (s : AsyncState) : AsyncState :=
  mkAsyncState (a_requests s) (async s) (a_store s) (a_world s) (chans s)
    (frames s) (<[i := t]> (threads s)) (a_executed s) (received s) (a_crashed s).

(** [Group.Async] up to its [return]: the test of [g.async] and, when it
    is nil, the new channel, buffered to the number of requests, and the
    new goroutine. *)
Definition Group_Async (s : AsyncState) : AsyncState :=
  match async s with
  | Some c => s
  | None =>
      mkAsyncState (a_requests s) (Some (length (chans s))) (a_store s)
        (a_world s)
        (chans s ++ [mkChan (length (a_requests s)) [] false])
        (frames s ++ [mkFrame None 0])
        (threads s ++ [CoLoop (length (frames s)) (a_requests s)])
        (a_executed s) (received s) (a_crashed s)
  end.

(** [return g.async]: the field is read again, in the state [s] reached by
    then. *)
Definition Group_Async_return (s : AsyncState) : option nat := async s.

(** The request a worker runs: what the variable it captured holds when
    the worker comes to [req.Response()]. *)
Definition captured (own : option nat) (fr : Frame) : option nat :=
  match own with
  | Some p => Some p
  | None => req fr
  end.

(** One step of the thread [i].  A worker that panics goes to its deferred
    [wg.Done()]; the goroutine of [Async] has no deferred call. *)
Definition thread_step (i : nat) (s : AsyncState) : option AsyncState :=
  match threads s !! i with
  | Some (CoLoop f []) => Some (set_thread i (CoWait f) s)
  | Some (CoLoop f (p :: rest)) =>
      (* [req] is [p]; [wg.Add(1); go func() {...}()] *)
      match frames s !! f with
      | Some fr =>
          Some (mkAsyncState (a_requests s) (async s) (a_store s) (a_world s)
                  (chans s)
                  (<[f := match loopvar with
                          | PerLoop => mkFrame (Some p) (S (wg fr))
                          | PerIteration => mkFrame (req fr) (S (wg fr))
                          end]> (frames s))
                  (<[i := CoLoop f rest]> (threads s)
                   ++ [WkRun f match loopvar with
                               | PerLoop => None
                               | PerIteration => Some p
                               end])
                  (a_executed s) (received s) (a_crashed s))
      | None => None
      end
  | Some (CoWait f) =>
      match frames s !! f with
      | Some fr => if Nat.eqb (wg fr) 0 then Some (set_thread i (CoClose f) s) else None
      | None => None
      end
  | Some (CoClose f) =>
      match async s with
      | None => Some (a_crash "close of nil channel" (a_world s) (set_thread i Ended s))
      | Some c =>
          match chans s !! c with
          | Some ch =>
              if is_closed ch
              then Some (a_crash "close of closed channel" (a_world s)
                           (set_thread i Ended s))
              else Some (mkAsyncState (a_requests s) (async s) (a_store s)
                           (a_world s)
                           (<[c := mkChan (cap ch) (buf ch) true]> (chans s))
                           (frames s) (<[i := CoClear f]> (threads s))
                           (a_executed s) (received s) (a_crashed s))
          | None => None
          end
      end
  | Some (CoClear f) =>
      Some (mkAsyncState (a_requests s) None (a_store s) (a_world s) (chans s)
              (frames s) (<[i := Ended]> (threads s))
              (a_executed s) (received s) (a_crashed s))
  | Some (WkRun f own) =>
      (* [req.Response()] on what the captured variable holds now *)
      match frames s !! f with
      | Some fr =>
          match captured own fr with
          | Some p =>
              match run_request (a_store s) (a_world s) p with
              | (Normal (env, store'), w') =>
                  Some (mkAsyncState (a_requests s) (async s) store' w' (chans s)
                          (frames s) (<[i := WkSend f env]> (threads s))
                          (a_executed s ++ [mkRan f i p env]) (received s)
                          (a_crashed s))
              | (Panic msg, w') => Some (a_crash msg w' (set_thread i (WkDone f) s))
              end
          | None => None
          end
      | None => None
      end
  | Some (WkSend f env) =>
      match async s with
      | None => None
      | Some c =>
          match chans s !! c with
          | Some ch =>
              if is_closed ch
              then Some (a_crash "send on closed channel" (a_world s)
                           (set_thread i (WkDone f) s))
              else if (length (buf ch) <? cap ch)%nat
              then Some (mkAsyncState (a_requests s) (async s) (a_store s)
                           (a_world s)
                           (<[c := mkChan (cap ch) (buf ch ++ [env]) false]> (chans s))
                           (frames s) (<[i := WkDone f]> (threads s))
                           (a_executed s) (received s) (a_crashed s))
              else None
          | None => None
          end
      end
  | Some (WkDone f) =>
      match frames s !! f with
      | Some (mkFrame r (S k)) =>
          Some (mkAsyncState (a_requests s) (async s) (a_store s) (a_world s)
                  (chans s) (<[f := mkFrame r k]> (frames s))
                  (<[i := Ended]> (threads s))
                  (a_executed s) (received s) (a_crashed s))
      | Some (mkFrame r O) =>
          Some (a_crash "sync: negative WaitGroup counter" (a_world s)
                  (set_thread i Ended s))
      | None => None
      end
  | _ => None
  end.

(** The consumer receives from the channel [c] the envelope at the head of
    its buffer, whether the channel is closed or not.  A receive that
    finds the buffer empty gives no envelope and is no step: it waits, or
    on a closed channel reports the end of the stream. *)
Definition receive (c : nat) (s : AsyncState) : option AsyncState :=
  match chans s !! c with
  | Some (mkChan k (env :: rest) cl) =>
      Some (mkAsyncState (a_requests s) (async s) (a_store s) (a_world s)
              (<[c := mkChan k rest cl]> (chans s)) (frames s) (threads s)
              (a_executed s) (received s ++ [(c, env)]) (a_crashed s))
  | _ => None
  end.

(** [CallAsync] is a call of [Async] up to its [return]. *)
Inductive AsyncAction : Type :=
| CallAsync
| Run (i : nat)
| Receive (c : nat).

Definition async_step (a : AsyncAction) (s : AsyncState) : option AsyncState :=
  match a with
  | CallAsync => Some (Group_Async s)
  | Run i => thread_step i s
  | Receive c => receive c s
  end.

Fixpoint async_run (acts : list AsyncAction) (s : AsyncState) : option AsyncState :=
  match acts with
  | [] => Some s
  | a :: rest =>
      match async_step a s with
      | Some s' => async_run rest s'
      | None => None
      end
  end.

(** What holds of every state the machine reaches. *)
Record Inv (s : SyncState) : Prop := mkInv {
  inv_live : forall j p,
    producers s !! j = Some p -> p <> Finished ->
    S j = length (producers s) /\ sync s <> None;
  inv_open : forall j p,
    producers s !! j = Some p -> p <> Finished -> p <> AtClear ->
    exists c, sync s = Some c /\ c ∉ closed s;
  inv_send : forall j rest n t env,
    producers s !! j = Some (AtSend rest n t env) ->
    next s = Some n /\ stop s = Some t /\ n <> t;
  inv_select : forall j rest n t,
    producers s !! j = Some (AtSelect rest n t) ->
    next s = Some n /\ stop s = Some t /\ n <> t;
  inv_cancelled : forall c, c ∈ cancelled s -> (c < fresh s)%nat;
  inv_next : forall c, next s = Some c -> (c < fresh s)%nat;
  inv_stop : forall c, stop s = Some c -> (c < fresh s)%nat;
  inv_sync : forall c, sync s = Some c -> (c < fresh s)%nat;
  inv_closed : forall c, c ∈ closed s -> (c < fresh s)%nat
}.

(** ** Properties of the sequential mode *)

Lemma Inv_NewGroup reqs st w : Inv (NewGroup reqs st w).
Proof.
  constructor; simpl; try done; intros; by apply not_elem_of_nil in H.
Qed.

Lemma Finished_or_not (p : Producer) : p = Finished \/ p <> Finished.
Proof. destruct p; auto; by right. Qed.

(** Every goroutine but [j] is finished, when [j] is not. *)
Lemma Inv_others_Finished s j p j' p' :
  Inv s ->
  producers s !! j = Some p -> p <> Finished ->
  producers s !! j' = Some p' -> j' <> j -> p' = Finished.
Proof.
  intros HI Hj Hp Hj' Hne.
  destruct (Finished_or_not p') as [|Hlive]; [done|].
  destruct (inv_live s HI j p Hj Hp) as [H1 _].
  destruct (inv_live s HI j' p' Hj' Hlive) as [H2 _]. lia.
Qed.

Ltac lookup_cases H :=
  apply list_lookup_insert_Some in H as [(? & ? & ?)|(? & H)]; simplify_eq.

Lemma Inv_Group_Sync s : Inv s -> Inv (Group_Sync s).
Proof.
  intros HI. unfold Group_Sync. destruct (sync s) as [c|] eqn:Hc; [done|].
  assert (Hfin : forall j p, producers s !! j = Some p -> p = Finished).
  { intros j p Hj. destruct (Finished_or_not p) as [|Hlive]; [done|].
    by destruct (inv_live s HI j p Hj Hlive) as [_ []]. }
  destruct HI. constructor; simpl; intros.
  - apply lookup_app_Some in H as [H|[Hlen H]].
    + by apply Hfin in H.
    + split; [|done]. rewrite length_app. simpl.
      apply lookup_lt_Some in H. simpl in H. lia.
  - apply lookup_app_Some in H as [H|[Hlen H]].
    + by apply Hfin in H.
    + exists (fresh s). split; [done|]. intros Hin.
      apply inv_closed0 in Hin. lia.
  - apply lookup_app_Some in H as [H|[Hlen H]].
    + by apply Hfin in H.
    + destruct (j - length (producers s))%nat; simpl in H; [|done]. simplify_eq.
  - apply lookup_app_Some in H as [H|[Hlen H]].
    + by apply Hfin in H.
    + destruct (j - length (producers s))%nat; simpl in H; [|done]. simplify_eq.
  - apply inv_cancelled0 in H. lia.
  - apply inv_next0 in H. lia.
  - apply inv_stop0 in H. lia.
  - simplify_eq. lia.
  - apply inv_closed0 in H. lia.
Qed.

Lemma Inv_cancel s c : Inv s -> (c < fresh s)%nat -> Inv (cancel c s).
Proof.
  intros HI Hc. destruct HI. constructor; simpl; eauto.
  intros c' Hin. apply elem_of_cons in Hin as [->|Hin]; eauto.
Qed.

Lemma Inv_crash s msg w : Inv s -> Inv (crash msg w s).
Proof. intros HI. destruct HI. by constructor. Qed.

(** A goroutine that goes on to a state other than the two that hold
    contexts, with the Group left as it is. *)
Lemma Inv_set_producer s j p p' :
  Inv s ->
  producers s !! j = Some p -> p <> Finished -> p <> AtClear ->
  (forall rest n t env, p' <> AtSend rest n t env) ->
  (forall rest n t, p' <> AtSelect rest n t) ->
  Inv (set_producer j p' s).
Proof.
  intros HI Hj Hlive Hclear Hsend Hselect.
  assert (Hothers : forall i q,
             producers s !! i = Some q -> i <> j -> q = Finished)
    by (intros i q ? ?; by apply (Inv_others_Finished s j p i q)).
  destruct (inv_live s HI j p Hj Hlive) as [Hlast Hsync].
  destruct (inv_open s HI j p Hj Hlive Hclear) as (c & Hc & Hopen).
  destruct HI. constructor; simpl; eauto; intros.
  - rewrite length_insert. lookup_cases H; [done|].
    by rewrite (Hothers _ _ H) in H0 by done.
  - lookup_cases H; [by edestruct Hsend|]. eauto.
  - lookup_cases H; [by edestruct Hselect|]. eauto.
Qed.

Ltac live_or_others Hothers H :=
  lookup_cases H; try done; try (split; [done | congruence]);
  try (by apply Hothers in H);
  try (match goal with
       | Hq : ?q <> Finished |- _ => by rewrite (Hothers _ _ H) in Hq by done
       end).

Lemma Inv_producer_step j s s' :
  Inv s -> producer_step j s = Some s' -> Inv s'.
Proof.
  intros HI Hstep. unfold producer_step in Hstep.
  destruct (producers s !! j) as [p|] eqn:Hj; [|done].
  assert (Hothers : p <> Finished -> forall i q,
             producers s !! i = Some q -> i <> j -> q = Finished)
    by (intros ? i q ? ?; by apply (Inv_others_Finished s j p i q)).
  assert (Hlast : p <> Finished -> S j = length (producers s))
    by (intros ?; by apply (inv_live s HI j p)).
  destruct p as [[|q rest]| | | | |]; try done.
  - (* the loop is over *)
    simplify_eq. by apply Inv_set_producer with (p := AtLoop []).
  - (* one more request *)
    destruct (run_request (store s) (world s) q) as [[[env store']|msg] w'];
      simplify_eq.
    2:{ apply Inv_crash. by apply Inv_set_producer with (p := AtLoop (q :: rest)). }
    specialize (Hothers ltac:(done)). specialize (Hlast ltac:(done)).
    destruct (inv_open s HI j _ Hj) as (c & Hc & Hopen); [done..|].
    destruct HI. constructor; simpl; intros.
    + rewrite length_insert. live_or_others Hothers H.
    + exists c. done.
    + live_or_others Hothers H.
    + live_or_others Hothers H.
    + apply inv_cancelled0 in H. lia.
    + simplify_eq. lia.
    + simplify_eq. lia.
    + apply inv_sync0 in H. lia.
    + apply inv_closed0 in H. lia.
  - (* close(g.sync) *)
    destruct (inv_open s HI j _ Hj) as (c & Hc & Hopen); [done..|].
    rewrite Hc, bool_decide_eq_false_2 in Hstep by done. simplify_eq.
    specialize (Hothers ltac:(done)). specialize (Hlast ltac:(done)).
    destruct HI. constructor; simpl; intros; eauto;
      try (rewrite ?length_insert; live_or_others Hothers H);
      try (simplify_eq; by eauto).
    apply elem_of_cons in H as [->|H]; eauto.
  - (* g.sync = nil *)
    simplify_eq.
    specialize (Hothers ltac:(done)). specialize (Hlast ltac:(done)).
    destruct HI. constructor; simpl; intros; eauto; try done;
      rewrite ?length_insert; live_or_others Hothers H.
Qed.

Lemma Inv_deliver j s s' : Inv s -> deliver j s = Some s' -> Inv s'.
Proof.
  intros HI Hstep. unfold deliver in Hstep.
  destruct (producers s !! j) as [[]|] eqn:Hj; try done.
  destruct (inv_open s HI j _ Hj) as (c & Hc & Hopen); [done..|].
  rewrite Hc, bool_decide_eq_false_2 in Hstep by done. simplify_eq.
  assert (Hothers : forall i q,
             producers s !! i = Some q -> i <> j -> q = Finished)
    by (intros i q ? ?; by apply (Inv_others_Finished s j _ i q) in Hj).
  destruct (inv_live s HI j _ Hj) as [Hlast _]; [done|].
  destruct (inv_send s HI j _ _ _ _ Hj) as (Hn & Ht & Hne).
  destruct HI. constructor; simpl; intros; eauto;
    rewrite ?length_insert; try (live_or_others Hothers H);
    try (simplify_eq; by eauto).
Qed.

Lemma Inv_wake j b s s' : Inv s -> wake j b s = Some s' -> Inv s'.
Proof.
  intros HI Hstep. unfold wake in Hstep.
  destruct (producers s !! j) as [[]|] eqn:Hj; try done.
  destruct b.
  - destruct (bool_decide (stop0 ∈ cancelled s)); simplify_eq.
    by apply Inv_set_producer with (p := AtSelect rest next0 stop0).
  - destruct (bool_decide (next0 ∈ cancelled s)); simplify_eq.
    by apply Inv_set_producer with (p := AtSelect rest next0 stop0).
Qed.

Lemma Inv_step a s s' : Inv s -> step a s = Some s' -> Inv s'.
Proof.
  intros HI Hstep. unfold step in Hstep.
  destruct a; simplify_eq.
  - by apply Inv_Group_Sync.
  - unfold Group_Continue. destruct (next s) as [c|] eqn:Hc; [|done].
    apply Inv_cancel; [done|]. by apply (inv_next s HI).
  - unfold Group_Stop. destruct (stop s) as [c|] eqn:Hc; [|done].
    apply Inv_cancel; [done|]. by apply (inv_stop s HI).
  - by apply (Inv_producer_step j s).
  - by apply (Inv_deliver j s).
  - by apply (Inv_wake j by_stop s).
Qed.

Lemma Inv_run acts s s' : Inv s -> run acts s = Some s' -> Inv s'.
Proof.
  revert s. induction acts as [|a acts IH]; intros s HI Hrun; simpl in Hrun.
  - by simplify_eq.
  - destruct (step a s) as [s1|] eqn:Hstep; [|done].
    apply (IH s1); [|done]. by apply (Inv_step a s).
Qed.

Lemma Inv_reachable s : reachable s -> Inv s.
Proof.
  intros (reqs & st & w & acts & Hrun).
  apply (Inv_run acts (NewGroup reqs st w)); [apply Inv_NewGroup | done].
Qed.

(** Contexts are made uncancelled: after the step that runs a request,
    neither context of the goroutine is cancelled. *)
Lemma contexts_start_uncancelled s j s' rest n t env :
  Inv s ->
  producer_step j s = Some s' ->
  producers s' !! j = Some (AtSend rest n t env) ->
  (n ∉ cancelled s') /\ (t ∉ cancelled s').
Proof.
  intros HI Hstep Hj'. unfold producer_step in Hstep.
  destruct (producers s !! j) as [[[|q l]| | | | |]|] eqn:Hj; simplify_eq.
  - simpl in Hj'. by lookup_cases Hj'.
  - destruct (run_request (store s) (world s) q) as [[[e store']|msg] w'];
      simplify_eq; simpl in *; [|by lookup_cases Hj'].
    lookup_cases Hj'; try congruence.
    split; intros Hin; apply (inv_cancelled s HI) in Hin; lia.
  - destruct (sync s); [destruct (bool_decide _)|]; simplify_eq; simpl in *;
      by lookup_cases Hj'.
  - simpl in Hj'. by lookup_cases Hj'.
Qed.

(** At the [select] with neither context cancelled, no action other than
    [Continue] and [Stop] changes anything. *)
Lemma gated_step s j rest n t a s' :
  Inv s ->
  producers s !! j = Some (AtSelect rest n t) ->
  n ∉ cancelled s -> t ∉ cancelled s ->
  is_call a = false ->
  step a s = Some s' -> s' = s.
Proof.
  intros HI Hj Hn Ht Hcall Hstep.
  assert (Hothers : forall i q,
             producers s !! i = Some q -> i <> j -> q = Finished)
    by (intros i q ? ?; by apply (Inv_others_Finished s j _ i q) in Hj).
  unfold step in Hstep.
  destruct a as [| | |i|i|i b]; try done.
  - unfold Group_Sync in Hstep.
    destruct (inv_live s HI j _ Hj) as [_ Hsync]; [done|].
    destruct (sync s); [by simplify_eq | done].
  - unfold producer_step in Hstep.
    destruct (decide (i = j)) as [->|Hne]; [by rewrite Hj in Hstep|].
    destruct (producers s !! i) as [q|] eqn:Hi; [|done].
    by rewrite (Hothers i q Hi Hne) in Hstep.
  - unfold deliver in Hstep.
    destruct (decide (i = j)) as [->|Hne]; [by rewrite Hj in Hstep|].
    destruct (producers s !! i) as [q|] eqn:Hi; [|done].
    by rewrite (Hothers i q Hi Hne) in Hstep.
  - unfold wake in Hstep.
    destruct (decide (i = j)) as [->|Hne].
    + rewrite Hj in Hstep.
      destruct b; by rewrite bool_decide_eq_false_2 in Hstep.
    + destruct (producers s !! i) as [q|] eqn:Hi; [|done].
      by rewrite (Hothers i q Hi Hne) in Hstep.
Qed.

Lemma gated_run s j rest n t acts s' :
  Inv s ->
  producers s !! j = Some (AtSelect rest n t) ->
  n ∉ cancelled s -> t ∉ cancelled s ->
  Forall (fun a => is_call a = false) acts ->
  run acts s = Some s' -> s' = s.
Proof.
  intros HI Hj Hn Ht Hacts. revert s'.
  induction Hacts as [|a acts Ha _ IH]; intros s' Hrun; simpl in Hrun.
  - by simplify_eq.
  - destruct (step a s) as [s1|] eqn:Hstep; [|done].
    apply (gated_step s j rest n t) in Hstep; try done. subst s1. by apply IH.
Qed.

(** From the send on, with neither context cancelled, all that can happen
    without [Continue] or [Stop] is the delivery of the envelope. *)
Lemma send_then_wait s j rest n t env acts s' :
  Inv s ->
  producers s !! j = Some (AtSend rest n t env) ->
  n ∉ cancelled s -> t ∉ cancelled s ->
  Forall (fun a => is_call a = false) acts ->
  run acts s = Some s' ->
  s' = s \/ deliver j s = Some s'.
Proof.
  intros HI Hj Hn Ht Hacts. revert s'.
  assert (Hothers : forall i q,
             producers s !! i = Some q -> i <> j -> q = Finished)
    by (intros i q ? ?; by apply (Inv_others_Finished s j _ i q) in Hj).
  induction Hacts as [|a acts Ha Hacts IH]; intros s' Hrun; simpl in Hrun.
  - left. by simplify_eq.
  - destruct (step a s) as [s1|] eqn:Hstep; [|done].
    unfold step in Hstep.
    destruct a as [| | |i|i|i b]; try done.
    + unfold Group_Sync in Hstep.
      destruct (inv_live s HI j _ Hj) as [_ Hsync]; [done|].
      destruct (sync s); [|done]. simplify_eq. by apply IH.
    + unfold producer_step in Hstep.
      destruct (decide (i = j)) as [->|Hne]; [by rewrite Hj in Hstep|].
      destruct (producers s !! i) as [q|] eqn:Hi; [|done].
      by rewrite (Hothers i q Hi Hne) in Hstep.
    + destruct (decide (i = j)) as [->|Hne].
      2:{ unfold deliver in Hstep.
          destruct (producers s !! i) as [q|] eqn:Hi; [|done].
          by rewrite (Hothers i q Hi Hne) in Hstep. }
      right. rewrite Hstep. f_equal. symmetry.
      pose proof (Inv_deliver j s s1 HI Hstep) as HI1.
      unfold deliver in Hstep. rewrite Hj in Hstep.
      destruct (inv_open s HI j _ Hj) as (c & Hc & Hopen); [done..|].
      rewrite Hc, bool_decide_eq_false_2 in Hstep by done. simplify_eq.
      eapply (gated_run _ j rest n t acts s'); try done.
      simpl. apply list_lookup_insert_eq. by apply lookup_lt_Some in Hj.
    + unfold wake in Hstep.
      destruct (decide (i = j)) as [->|Hne]; [by rewrite Hj in Hstep|].
      destruct (producers s !! i) as [q|] eqn:Hi; [|done].
      by rewrite (Hothers i q Hi Hne) in Hstep.
Qed.

(** Once told to stop, the goroutine runs no request and sends nothing, as
    long as [Continue] is not called and no new stream is asked for. *)
Lemma Stopping_step j n t a s s' :
  Inv s -> Stopping j n t s -> crashed s = None ->
  a <> CallContinue -> a <> CallSync ->
  step a s = Some s' ->
  Stopping j n t s' /\
  executed s' = executed s /\ delivered s' = delivered s /\
  world s' = world s /\ store s' = store s /\ crashed s' = None.
Proof.
  intros HI [Hstop Ht Hn Hothers Hwhere] Hcrash Hcont Hsync Hstep.
  unfold step in Hstep.
  destruct a as [| | |i|i|i b]; try done.
  - (* Stop, again *)
    unfold Group_Stop in Hstep. rewrite Hstop in Hstep. simplify_eq.
    split; [|done]. constructor; simpl; try done.
    + by apply list_elem_of_further.
    + intros Hin. apply elem_of_cons in Hin as [->|Hin]; [|done].
      by apply Hn.
  - (* a step of a goroutine *)
    unfold producer_step in Hstep.
    destruct (decide (i = j)) as [->|Hne].
    2:{ destruct (producers s !! i) as [q|] eqn:Hi; [|done].
        by rewrite (Hothers i q Hi Hne) in Hstep. }
    destruct Hwhere as [[rest Hj]|[Hj|[Hj|Hj]]]; rewrite Hj in Hstep; try done.
    + destruct (inv_open s HI j _ Hj) as (c & Hc & Hopen); [done..|].
      rewrite Hc, bool_decide_eq_false_2 in Hstep by done. simplify_eq.
      split; [|done]. constructor; simpl; try done.
      * intros i q Hi Hne. lookup_cases Hi. eauto.
      * right. right. left. apply list_lookup_insert_eq.
        by apply lookup_lt_Some in Hj.
    + simplify_eq. split; [|done]. constructor; simpl; try done.
      * intros i q Hi Hne. lookup_cases Hi. eauto.
      * right. right. right. apply list_lookup_insert_eq.
        by apply lookup_lt_Some in Hj.
  - (* a send *)
    unfold deliver in Hstep.
    destruct (decide (i = j)) as [->|Hne].
    2:{ destruct (producers s !! i) as [q|] eqn:Hi; [|done].
        by rewrite (Hothers i q Hi Hne) in Hstep. }
    destruct Hwhere as [[rest Hj]|[Hj|[Hj|Hj]]]; by rewrite Hj in Hstep.
  - (* a wake-up *)
    unfold wake in Hstep.
    destruct (decide (i = j)) as [->|Hne].
    2:{ destruct (producers s !! i) as [q|] eqn:Hi; [|done].
        by rewrite (Hothers i q Hi Hne) in Hstep. }
    destruct Hwhere as [[rest Hj]|[Hj|[Hj|Hj]]]; rewrite Hj in Hstep; try done.
    destruct b.
    + rewrite bool_decide_eq_true_2 in Hstep by done. simplify_eq.
      split; [|done]. constructor; simpl; try done.
      * intros i q Hi Hne. lookup_cases Hi. eauto.
      * right. left. apply list_lookup_insert_eq.
        by apply lookup_lt_Some in Hj.
    + by rewrite bool_decide_eq_false_2 in Hstep.
Qed.

Lemma Stopping_run j n t acts s s' :
  Inv s -> Stopping j n t s -> crashed s = None ->
  Forall (fun a => a <> CallContinue /\ a <> CallSync) acts ->
  run acts s = Some s' ->
  executed s' = executed s /\ delivered s' = delivered s /\
  world s' = world s /\ store s' = store s /\ crashed s' = None.
Proof.
  intros HI HS Hcrash Hacts. revert s HI HS Hcrash.
  induction Hacts as [|a acts [Ha1 Ha2] _ IH]; intros s HI HS Hcrash Hrun;
    simpl in Hrun.
  - by simplify_eq.
  - destruct (step a s) as [s1|] eqn:Hstep; [|done].
    destruct (Stopping_step j n t a s s1) as (HS1 & He & Hd & Hw & Hst & Hc1);
      try done.
    destruct (IH s1) as (He' & Hd' & Hw' & Hst' & Hc'); try done.
    { by apply (Inv_step a s). }
    repeat split; congruence.
Qed.

Lemma step_wake_by_stop s j rest n t :
  producers s !! j = Some (AtSelect rest n t) ->
  t ∈ cancelled s ->
  step (Wake j true) s = Some (set_producer j AtClose s).
Proof.
  intros Hj Ht. unfold step, wake. rewrite Hj.
  by rewrite bool_decide_eq_true_2.
Qed.

Lemma step_close s j c :
  producers s !! j = Some AtClose ->
  sync s = Some c -> c ∉ closed s ->
  step (Step j) s
  = Some (mkSyncState (requests s) (sync s) (next s) (stop s)
            (store s) (world s) (cancelled s) (c :: closed s)
            (fresh s) (<[j := AtClear]> (producers s))
            (executed s) (delivered s) (crashed s)).
Proof.
  intros Hj Hc Hopen. unfold step, producer_step.
  rewrite Hj, Hc. by rewrite bool_decide_eq_false_2.
Qed.

Lemma step_clear s j :
  producers s !! j = Some AtClear ->
  step (Step j) s
  = Some (mkSyncState (requests s) None (next s) (stop s)
            (store s) (world s) (cancelled s) (closed s)
            (fresh s) (<[j := Finished]> (producers s))
            (executed s) (delivered s) (crashed s)).
Proof.
  intros Hj. unfold step, producer_step. by rewrite Hj.
Qed.

(** C6.  Take a state the machine reaches in which the goroutine of [Sync]
    stands at its [select], after a delivery, and the consumer has called
    neither [Continue] nor [Stop] on the contexts of that [select].  Then
    nothing else the consumer or a goroutine can do changes the state: the
    goroutine goes no further.  And when the consumer calls [Stop], then
    whatever is done next short of [Continue] or of asking for a new
    stream, no request is run and no envelope is delivered any more;
    the goroutine wakes up, closes the channel and clears [g.sync]. *)
Theorem sequential_stream_waits_for_consumer_and_stops
  (s : SyncState) (j : nat) (rest : list nat) (n t : nat) :
  reachable s ->
  crashed s = None ->
  producers s !! j = Some (AtSelect rest n t) ->
  n ∉ cancelled s -> t ∉ cancelled s ->
  (forall acts s',
     Forall (fun a => is_call a = false) acts ->
     run acts s = Some s' -> s' = s) /\
  exists c,
    sync s = Some c /\
    (forall acts s',
       Forall (fun a => a <> CallContinue /\ a <> CallSync) acts ->
       run acts (Group_Stop s) = Some s' ->
       executed s' = executed s /\ delivered s' = delivered s /\
       world s' = world s /\ store s' = store s /\ crashed s' = None) /\
    exists s2,
      run [Wake j true; Step j; Step j] (Group_Stop s) = Some s2 /\
      producers s2 !! j = Some Finished /\
      sync s2 = None /\ c ∈ closed s2 /\
      executed s2 = executed s /\ delivered s2 = delivered s.
Proof.
  intros Hreach Hcrash Hj Hn Ht.
  pose proof (Inv_reachable s Hreach) as HI.
  destruct (inv_select s HI j rest n t Hj) as (Hnext & Hstop & Hne).
  destruct (inv_open s HI j _ Hj) as (c & Hc & Hopen); [done..|].
  assert (Hlen : (j < length (producers s))%nat) by by apply lookup_lt_Some in Hj.
  split; [intros acts s'; by apply (gated_run s j rest n t)|].
  exists c. split; [done|].
  assert (HS : Stopping j n t (Group_Stop s)).
  { unfold Group_Stop. rewrite Hstop. constructor; simpl; try done.
    - apply list_elem_of_here.
    - intros Hin. apply elem_of_cons in Hin as [->|Hin]; done.
    - intros i q Hi Hi'. by apply (Inv_others_Finished s j _ i q) in Hj.
    - left. by exists rest. }
  assert (HI' : Inv (Group_Stop s)).
  { unfold Group_Stop. rewrite Hstop. apply Inv_cancel; [done|].
    by apply (inv_stop s HI). }
  split.
  - intros acts s' Hacts Hrun.
    destruct (Stopping_run j n t acts (Group_Stop s) s') as (He & Hd & Hw & Hst & Hcr);
      try done.
    { unfold Group_Stop. by rewrite Hstop. }
    unfold Group_Stop in He, Hd, Hw, Hst. rewrite Hstop in He, Hd, Hw, Hst.
    done.
  - unfold Group_Stop. rewrite Hstop. cbn [run].
    rewrite (step_wake_by_stop _ j rest n t);
      [|done|apply list_elem_of_here].
    rewrite (step_close _ j c);
      [|by apply list_lookup_insert_eq|done|done].
    rewrite step_clear;
      [|simpl; apply list_lookup_insert_eq; by rewrite length_insert].
    eexists. split; [reflexivity|]. simpl. repeat split; try done.
    + apply list_lookup_insert_eq. by rewrite !length_insert.
    + apply list_elem_of_here.
Qed.

(** ** Further properties of the sequential mode *)

(** The requests a goroutine has still to run. *)
Definition remaining (p : Producer) : option (list nat) :=
  match p with
  | AtLoop rest | AtSend rest _ _ _ | AtSelect rest _ _ => Some rest
  | _ => None
  end.

(** How the requests run and the envelopes received go together. *)
Record Flow (s : SyncState) : Prop := mkFlow {
  flow_send : forall j rest n t env,
    producers s !! j = Some (AtSend rest n t env) ->
    length (executed s) = S (length (delivered s));
  flow_idle :
    (forall j rest n t env, producers s !! j <> Some (AtSend rest n t env)) ->
    length (executed s) = length (delivered s);
  flow_bound :
    length (executed s) = length (delivered s) \/
    length (executed s) = S (length (delivered s));
  flow_order : forall j p rest,
    producers s !! j = Some p -> remaining p = Some rest ->
    exists pre, requests s = pre ++ rest /\ pre `suffix_of` executed s
}.

Lemma Flow_NewGroup reqs st w : Flow (NewGroup reqs st w).
Proof. constructor; simpl; try done; auto. Qed.

Lemma Flow_cancel s c : Flow s -> Flow (cancel c s).
Proof. intros []. by constructor. Qed.

Lemma Flow_crash s msg w : Flow s -> Flow (crash msg w s).
Proof. intros []. by constructor. Qed.

(** A goroutine that is not sending goes to a state in which it is not
    sending and has the same requests to run, or none. *)
Lemma Flow_set_producer s j p p' :
  Inv s -> Flow s ->
  producers s !! j = Some p -> p <> Finished ->
  (forall rest n t env, p <> AtSend rest n t env) ->
  (forall rest n t env, p' <> AtSend rest n t env) ->
  (forall rest, remaining p' = Some rest -> remaining p = Some rest) ->
  Flow (set_producer j p' s).
Proof.
  intros HI HF Hj Hlive Hp Hp' Hrem.
  assert (Hothers : forall i q,
             producers s !! i = Some q -> i <> j -> q = Finished)
    by (intros i q ? ?; by apply (Inv_others_Finished s j p i q)).
  assert (Hidle : length (executed s) = length (delivered s)).
  { apply (flow_idle s HF). intros i rest n t env Hi.
    destruct (decide (i = j)) as [->|Hne];
      [rewrite Hj in Hi; injection Hi as ->; by eapply Hp|].
    by apply Hothers in Hi. }
  destruct HF. constructor; simpl; intros; auto.
  - lookup_cases H; [by edestruct Hp'|]. by apply Hothers in H.
  - lookup_cases H.
    + eapply flow_order0; eauto.
    + apply Hothers in H; [|done]. by subst.
Qed.

Lemma Flow_step a s s' : Inv s -> Flow s -> step a s = Some s' -> Flow s'.
Proof.
  intros HI HF Hstep. unfold step in Hstep.
  destruct a as [| | |j|j|j b]; simplify_eq.
  - (* Sync *)
    unfold Group_Sync. destruct (sync s) as [c|] eqn:Hc; [done|].
    assert (Hfin : forall j p, producers s !! j = Some p -> p = Finished).
    { intros j p Hj. destruct (Finished_or_not p) as [|Hlive]; [done|].
      by destruct (inv_live s HI j p Hj Hlive) as [_ []]. }
    assert (Hidle : length (executed s) = length (delivered s)).
    { apply (flow_idle s HF). intros j rest n t env Hj. by apply Hfin in Hj. }
    destruct HF. constructor; simpl; intros; auto.
    + apply lookup_app_Some in H as [H|[_ H]]; [by apply Hfin in H|].
      destruct (j - length (producers s))%nat; by simplify_eq.
    + apply lookup_app_Some in H as [H|[_ H]].
      * apply Hfin in H. by subst.
      * destruct (j - length (producers s))%nat; simpl in *; simplify_eq.
        simpl in *. simplify_eq.
        exists []. split; [done | apply suffix_nil].
  - unfold Group_Continue. destruct (next s); [by apply Flow_cancel | done].
  - unfold Group_Stop. destruct (stop s); [by apply Flow_cancel | done].
  - (* a step of a goroutine *)
    unfold producer_step in Hstep.
    destruct (producers s !! j) as [p|] eqn:Hj; [|done].
    destruct p as [[|q rest]| | | | |]; try done.
    + simplify_eq. by apply Flow_set_producer with (p := AtLoop []).
    + destruct (run_request (store s) (world s) q) as [[[env store']|msg] w'];
        simplify_eq.
      2:{ apply Flow_crash.
          by apply (Flow_set_producer s j (AtLoop (q :: rest)) AtClose). }
      assert (Hothers : forall i p,
                 producers s !! i = Some p -> i <> j -> p = Finished)
        by (intros i p ? ?; by apply (Inv_others_Finished s j _ i p) in Hj).
      assert (Hidle : length (executed s) = length (delivered s)).
      { apply (flow_idle s HF). intros i rest' n t env' Hi.
        destruct (decide (i = j)) as [->|Hne]; [rewrite Hj in Hi; by simplify_eq|].
        by apply Hothers in Hi. }
      destruct (flow_order s HF j _ (q :: rest) Hj eq_refl) as (pre & Hpre & Hsuf).
      destruct HF. constructor; simpl; intros; rewrite ?length_app; simpl.
      * lia.
      * exfalso. eapply H. apply list_lookup_insert_eq. by apply lookup_lt_Some in Hj.
      * right. lia.
      * lookup_cases H.
        -- simpl in H0. simplify_eq. exists (pre ++ [q]).
           split; [by rewrite <- app_assoc | by apply suffix_app].
        -- apply Hothers in H; [|done]. by subst.
    + destruct (inv_open s HI j _ Hj) as (c & Hc & Hopen); [done..|].
      rewrite Hc, bool_decide_eq_false_2 in Hstep by done. simplify_eq.
      assert (HF' : Flow (set_producer j AtClear s))
        by by apply (Flow_set_producer s j AtClose AtClear).
      destruct HF'. by constructor.
    + simplify_eq.
      assert (HF' : Flow (set_producer j Finished s))
        by by apply (Flow_set_producer s j AtClear Finished).
      destruct HF'. by constructor.
  - (* a send *)
    unfold deliver in Hstep.
    destruct (producers s !! j) as [[]|] eqn:Hj; try done.
    destruct (inv_open s HI j _ Hj) as (c & Hc & Hopen); [done..|].
    rewrite Hc, bool_decide_eq_false_2 in Hstep by done. simplify_eq.
    assert (Hothers : forall i p,
               producers s !! i = Some p -> i <> j -> p = Finished)
      by (intros i p ? ?; by apply (Inv_others_Finished s j _ i p) in Hj).
    pose proof (flow_send s HF j _ _ _ _ Hj) as Hsend.
    destruct (flow_order s HF j _ rest Hj eq_refl) as (pre & Hpre & Hsuf).
    destruct HF. constructor; simpl; intros; rewrite ?length_app; simpl.
    + lookup_cases H. by apply Hothers in H.
    + lia.
    + left. lia.
    + lookup_cases H.
      * simpl in H0. simplify_eq. by exists pre.
      * apply Hothers in H; [|done]. by subst.
  - (* a wake-up *)
    unfold wake in Hstep.
    destruct (producers s !! j) as [[]|] eqn:Hj; try done.
    destruct b.
    + destruct (bool_decide (stop0 ∈ cancelled s)); simplify_eq.
      by apply (Flow_set_producer s j (AtSelect rest next0 stop0) AtClose).
    + destruct (bool_decide (next0 ∈ cancelled s)); simplify_eq.
      by apply (Flow_set_producer s j (AtSelect rest next0 stop0) (AtLoop rest)).
Qed.

Lemma Flow_run acts s s' : Inv s -> Flow s -> run acts s = Some s' -> Flow s'.
Proof.
  revert s. induction acts as [|a acts IH]; intros s HI HF Hrun; simpl in Hrun.
  - by simplify_eq.
  - destruct (step a s) as [s1|] eqn:Hstep; [|done].
    apply (IH s1); [by apply (Inv_step a s) | by apply (Flow_step a s) | done].
Qed.

Lemma Flow_reachable s : reachable s -> Flow s.
Proof.
  intros (reqs & st & w & acts & Hrun).
  apply (Flow_run acts (NewGroup reqs st w));
    [apply Inv_NewGroup | apply Flow_NewGroup | done].
Qed.

(** In every state the sequential machine reaches, every request run has
    had its envelope received, but for the one a goroutine is sending: at
    most one envelope is in flight.  Requests are run in the order of the
    list: what a goroutine has still to run is a final part of the list,
    and the part before it is what was run last. *)
Theorem sequential_stream_runs_in_order_one_at_a_time (s : SyncState) :
  reachable s ->
  (length (executed s) = length (delivered s) \/
   length (executed s) = S (length (delivered s))) /\
  (forall j rest n t env,
     producers s !! j = Some (AtSend rest n t env) ->
     length (executed s) = S (length (delivered s))) /\
  (forall j rest n t,
     producers s !! j = Some (AtSelect rest n t) ->
     length (executed s) = length (delivered s)) /\
  (forall j p rest,
     producers s !! j = Some p -> remaining p = Some rest ->
     exists pre, requests s = pre ++ rest /\ pre `suffix_of` executed s).
Proof.
  intros Hreach.
  pose proof (Inv_reachable s Hreach) as HI.
  pose proof (Flow_reachable s Hreach) as HF.
  split; [apply (flow_bound s HF)|]. split; [apply (flow_send s HF)|].
  split; [|apply (flow_order s HF)].
  intros j rest n t Hj. apply (flow_idle s HF).
  intros i rest' n' t' env Hi.
  destruct (decide (i = j)) as [->|Hne]; [by rewrite Hj in Hi|].
  by apply (Inv_others_Finished s j _ i _ HI Hj) in Hi.
Qed.

Lemma step_wake_by_next s j rest n t :
  producers s !! j = Some (AtSelect rest n t) ->
  n ∈ cancelled s ->
  step (Wake j false) s = Some (set_producer j (AtLoop rest) s).
Proof.
  intros Hj Hn. unfold step, wake. rewrite Hj.
  by rewrite bool_decide_eq_true_2.
Qed.

Lemma step_loop_end s j :
  producers s !! j = Some (AtLoop []) ->
  step (Step j) s = Some (set_producer j AtClose s).
Proof. intros Hj. unfold step, producer_step. by rewrite Hj. Qed.

Lemma step_loop_run s j p rest env store' w' :
  producers s !! j = Some (AtLoop (p :: rest)) ->
  run_request (store s) (world s) p = (Normal (env, store'), w') ->
  step (Step j) s
  = Some (mkSyncState (requests s) (sync s)
            (Some (fresh s)) (Some (S (fresh s))) store' w'
            (cancelled s) (closed s) (S (S (fresh s)))
            (<[j := AtSend rest (fresh s) (S (fresh s)) env]> (producers s))
            (executed s ++ [p]) (delivered s) (crashed s)).
Proof.
  intros Hj Hrun. unfold step, producer_step.
  by rewrite Hj, Hrun.
Qed.

(** [Continue] at the [select], with neither context cancelled.  The
    [select] cannot take the case of [stop].  When requests are left, the
    goroutine wakes up, runs the next one of the list and stands at the
    send with two new contexts, neither cancelled, which [g.next] and
    [g.stop] now name.  When none is left, it closes the channel and
    clears [g.sync], and no request is run. *)
Theorem Continue_resumes_or_ends_the_stream
  (s : SyncState) (j : nat) (rest : list nat) (n t : nat) :
  reachable s ->
  crashed s = None ->
  producers s !! j = Some (AtSelect rest n t) ->
  n ∉ cancelled s -> t ∉ cancelled s ->
  step (Wake j true) (Group_Continue s) = None /\
  (forall p rest' env store' w',
     rest = p :: rest' ->
     run_request (store s) (world s) p = (Normal (env, store'), w') ->
     exists s3,
       run [CallContinue; Wake j false; Step j] s = Some s3 /\
       producers s3 !! j = Some (AtSend rest' (fresh s) (S (fresh s)) env) /\
       executed s3 = executed s ++ [p] /\ delivered s3 = delivered s /\
       store s3 = store' /\ world s3 = w' /\
       next s3 = Some (fresh s) /\ stop s3 = Some (S (fresh s)) /\
       (fresh s ∉ cancelled s3) /\ (S (fresh s) ∉ cancelled s3)) /\
  (rest = [] ->
   exists c s5,
     sync s = Some c /\
     run [CallContinue; Wake j false; Step j; Step j; Step j] s = Some s5 /\
     producers s5 !! j = Some Finished /\
     sync s5 = None /\ c ∈ closed s5 /\
     executed s5 = executed s /\ delivered s5 = delivered s).
Proof.
  intros Hreach Hcrash Hj Hn Ht.
  pose proof (Inv_reachable s Hreach) as HI.
  destruct (inv_select s HI j rest n t Hj) as (Hnext & Hstop & Hne).
  destruct (inv_open s HI j _ Hj) as (c & Hc & Hopen); [done..|].
  assert (Hlen : (j < length (producers s))%nat) by by apply lookup_lt_Some in Hj.
  assert (Hcont : Group_Continue s = cancel n s)
    by (unfold Group_Continue; by rewrite Hnext).
  split; [|split].
  - rewrite Hcont. unfold step, wake. simpl. rewrite Hj.
    rewrite bool_decide_eq_false_2; [done|].
    intros Hin. apply elem_of_cons in Hin as [->|Hin]; done.
  - intros p rest' env store' w' -> Hrun. cbn [run].
    unfold step at 1. rewrite Hcont.
    rewrite (step_wake_by_next _ j (p :: rest') n t);
      [|done|apply list_elem_of_here].
    rewrite (step_loop_run _ j p rest' env store' w');
      [|by apply list_lookup_insert_eq|done].
    eexists. split; [reflexivity|]. simpl.
    split; [apply list_lookup_insert_eq; by rewrite length_insert|].
    repeat split; try done.
    + intros Hin. apply elem_of_cons in Hin as [Heq|Hin].
      * apply (inv_next s HI) in Hnext. lia.
      * apply (inv_cancelled s HI) in Hin. lia.
    + intros Hin. apply elem_of_cons in Hin as [Heq|Hin].
      * apply (inv_next s HI) in Hnext. lia.
      * apply (inv_cancelled s HI) in Hin. lia.
  - intros ->. exists c. cbn [run].
    unfold step at 1. rewrite Hcont.
    rewrite (step_wake_by_next _ j [] n t);
      [|done|apply list_elem_of_here].
    rewrite step_loop_end; [|by apply list_lookup_insert_eq].
    rewrite (step_close _ j c);
      [|simpl; apply list_lookup_insert_eq; by rewrite length_insert
       |done|done].
    rewrite step_clear;
      [|simpl; apply list_lookup_insert_eq; by rewrite !length_insert].
    eexists. split; [done|]. split; [reflexivity|]. simpl.
    split; [apply list_lookup_insert_eq; by rewrite !length_insert|].
    repeat split; try done. apply list_elem_of_here.
Qed.

Lemma run_request_without_service store w p :
  store !! p = None \/
  (exists rq r, store !! p = Some rq /\ Service.service Stream rq = None /\
                fst (Service.Request_Request Stream http_NewRequest rq) = inl r) ->
  exists w', run_request store w p = (Panic nil_dereference, w').
Proof.
  unfold run_request. intros [->|(rq & r & -> & Hs & Hr)]; [by eexists|].
  rewrite (Service.Response_no_service Stream http_NewRequest client_Do rq r w)
    by done.
  by eexists.
Qed.

(** ** Further properties of the parallel mode *)

Definition async_reachable (s : AsyncState) : Prop :=
  exists reqs st w acts, async_run acts (NewGroup_async reqs st w) = Some s.

(** A worker that has not sent its envelope yet. *)
Definition pending (t : Thread) : nat :=
  match t with
  | WkRun _ _ | WkSend _ _ => 1
  | _ => 0
  end.

(** A worker that has not called [wg.Done] yet. *)
Definition undone (t : Thread) : nat :=
  match t with
  | WkRun _ _ | WkSend _ _ | WkDone _ => 1
  | _ => 0
  end.

(** The frame of the goroutine started by [Async], while it is at work. *)
Definition coordinator (t : Thread) : option nat :=
  match t with
  | CoLoop f _ | CoWait f | CoClose f | CoClear f => Some f
  | _ => None
  end.

(** The frame of a worker at work. *)
Definition worker (t : Thread) : option nat :=
  match t with
  | WkRun f _ | WkSend f _ | WkDone f => Some f
  | _ => None
  end.

(** The workers the goroutine of [Async] has still to start. *)
Definition to_spawn (t : Thread) : nat :=
  match t with
  | CoLoop _ rest => length rest
  | _ => 0
  end.

Fixpoint weigh (w : Thread -> nat) (ts : list Thread) : nat :=
  match ts with
  | [] => 0
  | t :: rest => w t + weigh w rest
  end.

(** The envelopes received from the channel [c]. *)
Definition took (c : nat) (rc : list (nat * ResponseWrapper)) : nat :=
  length (filter (fun e => fst e = c) rc).

(** The envelopes sent on the channel [c] so far: those in its buffer and
    those received from it. *)
Definition sent (c : nat) (ch : Chan) (s : AsyncState) : nat :=
  length (buf ch) + took c (received s).

Lemma weigh_app w ts1 ts2 : weigh w (ts1 ++ ts2) = (weigh w ts1 + weigh w ts2)%nat.
Proof. induction ts1 as [|t ts1 IH]; simpl; [done|]. rewrite IH. lia. Qed.

Lemma weigh_insert w ts i t t' :
  ts !! i = Some t ->
  (weigh w (<[i := t']> ts) + w t = weigh w ts + w t')%nat.
Proof.
  revert i. induction ts as [|t0 ts IH]; intros i Hi; [done|].
  destruct i as [|i]; simpl in *.
  - simplify_eq. lia.
  - specialize (IH i Hi). lia.
Qed.

Lemma weigh_lookup w ts i t : ts !! i = Some t -> (w t <= weigh w ts)%nat.
Proof.
  revert i. induction ts as [|t0 ts IH]; intros i Hi; [done|].
  destruct i as [|i]; simpl in *.
  - simplify_eq. lia.
  - specialize (IH i Hi). lia.
Qed.

Lemma weigh_zero w ts :
  (forall i t, ts !! i = Some t -> w t = 0%nat) -> weigh w ts = 0%nat.
Proof.
  induction ts as [|t0 ts IH]; intros H; [done|]. simpl.
  rewrite (H 0%nat t0 eq_refl), IH; [done|].
  intros i t Hi. apply (H (S i) t Hi).
Qed.

Lemma pending_le_undone ts : (weigh pending ts <= weigh undone ts)%nat.
Proof.
  induction ts as [|t ts IH]; simpl; [done|]. destruct t; simpl; lia.
Qed.

Lemma took_snoc c rc c' env :
  took c (rc ++ [(c', env)])
  = (took c rc + (if decide (c' = c) then 1 else 0))%nat.
Proof.
  unfold took. rewrite filter_app, length_app. f_equal.
  rewrite filter_cons, filter_nil. simpl. by destruct (decide (c' = c)).
Qed.

(** The goroutine of [Async] at work on the channel [c]: where it is, and
    how the envelopes sent, the workers and the counter of [wg] add up.
    A worker that panics sends nothing: the sum is short of the capacity
    once a goroutine has panicked. *)
Record Live (s : AsyncState) (c i : nat) (co : Thread) (f : nat)
  (fr : Frame) (ch : Chan) : Prop := mkLive {
  lv_co : threads s !! i = Some co;
  lv_frame : coordinator co = Some f;
  lv_fr : frames s !! f = Some fr;
  lv_ch : chans s !! c = Some ch;
  lv_others : forall j t,
    threads s !! j = Some t -> j <> i -> worker t = Some f \/ t = Ended;
  lv_wg : wg fr = weigh undone (threads s);
  lv_sent :
    (sent c ch s + weigh pending (threads s) + to_spawn co <= cap ch)%nat /\
    (a_crashed s = None ->
     (sent c ch s + weigh pending (threads s) + to_spawn co = cap ch)%nat);
  lv_phase :
    match co with
    | CoClose _ => weigh undone (threads s) = 0%nat /\ is_closed ch = false
    | CoClear _ => weigh undone (threads s) = 0%nat /\ is_closed ch = true
    | _ => is_closed ch = false
    end
}.

(** What holds of every state the parallel machine reaches. *)
Record AInv (s : AsyncState) : Prop := mkAInv {
  a_caps : forall c ch, chans s !! c = Some ch -> cap ch = length (a_requests s);
  a_old : forall c ch,
    chans s !! c = Some ch -> async s <> Some c ->
    is_closed ch = true /\ (sent c ch s <= cap ch)%nat /\
    (a_crashed s = None -> sent c ch s = cap ch);
  a_took : forall c, (length (chans s) <= c)%nat -> took c (received s) = 0%nat;
  a_idle : async s = None -> forall i t, threads s !! i = Some t -> t = Ended;
  a_live : forall c,
    async s = Some c -> exists i co f fr ch, Live s c i co f fr ch
}.

Lemma AInv_NewGroup reqs st w : AInv (NewGroup_async reqs st w).
Proof. constructor; simpl; try done. Qed.

Lemma AInv_Group_Async s : AInv s -> AInv (Group_Async s).
Proof.
  intros HA. unfold Group_Async. destruct (async s) as [c|] eqn:Hc; [done|].
  pose proof (a_idle s HA Hc) as Hended.
  assert (Hzero : forall w, (forall t, t = Ended -> w t = 0%nat) ->
                            weigh w (threads s) = 0%nat).
  { intros w Hw. apply weigh_zero. intros i t Hi. apply Hw. by eapply Hended. }
  destruct HA as [Hcaps Hold Htook _ _]. constructor; simpl.
  - intros c ch Hch. apply lookup_app_Some in Hch as [Hch|[_ Hch]]; [eauto|].
    destruct (c - length (chans s))%nat; [|done]. simpl in Hch. by simplify_eq.
  - intros c ch Hch Hne. apply lookup_app_Some in Hch as [Hch|[Hle Hch]].
    + apply (Hold c ch Hch). by rewrite Hc.
    + destruct (c - length (chans s))%nat eqn:Hsub; [|done].
      exfalso. apply Hne. f_equal. lia.
  - intros c Hle. rewrite length_app in Hle. simpl in Hle. apply Htook. lia.
  - done.
  - intros c [= <-].
    exists (length (threads s)), (CoLoop (length (frames s)) (a_requests s)),
      (length (frames s)), (mkFrame None 0),
      (mkChan (length (a_requests s)) [] false).
    constructor; simpl; try done.
    + by apply list_lookup_middle.
    + by apply list_lookup_middle.
    + by apply list_lookup_middle.
    + intros j t Hj Hne. apply lookup_app_Some in Hj as [Hj|[Hle Hj]].
      * right. by eapply Hended.
      * destruct (j - length (threads s))%nat eqn:Hsub; [|done].
        exfalso. apply Hne. lia.
    + rewrite weigh_app, Hzero by (by intros t ->). done.
    + unfold sent. simpl. rewrite weigh_app, Hzero by (by intros t ->).
      rewrite Htook by done. simpl. lia.
Qed.

Lemma AInv_receive c s s' : AInv s -> receive c s = Some s' -> AInv s'.
Proof.
  intros HA Hstep. unfold receive in Hstep.
  destruct (chans s !! c) as [[k [|env rest] cl]|] eqn:Hc; simplify_eq.
  assert (Hother : forall c', c' <> c ->
            took c' (received s ++ [(c, env)]) = took c' (received s)).
  { intros c' Hne. rewrite took_snoc. destruct (decide (c = c')); [by subst|lia]. }
  assert (Hsame : took c (received s ++ [(c, env)]) = S (took c (received s))).
  { rewrite took_snoc. destruct (decide (c = c)); [lia|done]. }
  destruct HA as [Hcaps Hold Htook Hidle Hlive]. constructor; simpl.
  - intros c' ch Hch. lookup_cases Hch; [|eauto]. by apply (Hcaps _ _ Hc).
  - intros c' ch Hch Hne. unfold sent. simpl. lookup_cases Hch.
    + destruct (Hold _ _ Hc Hne) as (Hcl & Hle & Hsent). unfold sent in *.
      simpl in *. split; [done|]. rewrite Hsame.
      split; [lia|]. intros Hcr. specialize (Hsent Hcr). lia.
    + rewrite Hother by done. by apply Hold.
  - intros c' Hle. rewrite length_insert in Hle.
    rewrite Hother; [by apply Htook|]. apply lookup_lt_Some in Hc. lia.
  - done.
  - intros c' Hc'. destruct (Hlive c' Hc') as (i & co & f & fr & ch & HL).
    destruct HL as [L1 L2 L3 L4 L5 L6 [L7 L7'] L8].
    destruct (decide (c' = c)) as [->|Hne].
    + rewrite Hc in L4. simplify_eq.
      exists i, co, f, fr, (mkChan k rest cl).
      constructor; simpl; try done.
      * apply list_lookup_insert_eq. by apply lookup_lt_Some in Hc.
      * unfold sent in *. simpl in *. rewrite Hsame.
        split; [lia|]. intros Hcr. specialize (L7' Hcr). lia.
    + exists i, co, f, fr, ch. constructor; simpl; try done.
      * by rewrite list_lookup_insert_ne.
      * unfold sent in *. simpl. by rewrite Hother.
Qed.

(** A step of the goroutine of [Async] itself is a step of the thread the
    invariant names. *)
Lemma Live_coordinator s c i0 co f0 fr0 ch0 i t f :
  Live s c i0 co f0 fr0 ch0 ->
  threads s !! i = Some t -> coordinator t = Some f ->
  i = i0 /\ co = t /\ f0 = f.
Proof.
  intros HL Hi Hf. destruct (decide (i = i0)) as [->|Hne].
  - pose proof (lv_co _ _ _ _ _ _ _ HL) as Hco.
    assert (co = t) as -> by congruence.
    pose proof (lv_frame _ _ _ _ _ _ _ HL) as Hfr.
    rewrite Hf in Hfr. by simplify_eq.
  - destruct (lv_others _ _ _ _ _ _ _ HL i t Hi Hne) as [Hw| ->]; [|done].
    destruct t; simplify_eq.
Qed.

Lemma Live_worker s c i0 co f0 fr0 ch0 i t f :
  Live s c i0 co f0 fr0 ch0 ->
  threads s !! i = Some t -> worker t = Some f ->
  i <> i0 /\ f0 = f.
Proof.
  intros HL Hi Hf. destruct (decide (i = i0)) as [->|Hne].
  - pose proof (lv_co _ _ _ _ _ _ _ HL) as Hco.
    assert (co = t) as -> by congruence.
    pose proof (lv_frame _ _ _ _ _ _ _ HL) as Hfr.
    destruct t; simplify_eq.
  - split; [done|].
    destruct (lv_others _ _ _ _ _ _ _ HL i t Hi Hne) as [Hw| ->]; [|done].
    rewrite Hf in Hw. by simplify_eq.
Qed.

(** While a worker has not called [wg.Done], the channel is open. *)
Lemma Live_open s c i0 co f0 fr0 ch0 :
  Live s c i0 co f0 fr0 ch0 ->
  (0 < weigh undone (threads s))%nat -> is_closed ch0 = false.
Proof.
  intros [L1 L2 L3 L4 L5 L6 L7 L8] Hpos.
  destruct co; try done; destruct L8; try done; lia.
Qed.

(** A step that leaves the Group, the channels and the envelopes received
    as they are, while a stream is at work. *)
Lemma AInv_same_channels s s' c :
  AInv s -> async s = Some c ->
  a_requests s' = a_requests s -> async s' = async s ->
  chans s' = chans s -> received s' = received s ->
  (a_crashed s' = None -> a_crashed s = None) ->
  (exists i co f fr ch, Live s' c i co f fr ch) ->
  AInv s'.
Proof.
  intros [Hcaps Hold Htook Hidle Hlive] Hc Hreq Ha Hch Hrc Hcr HL.
  constructor; unfold sent; rewrite ?Hreq, ?Ha, ?Hch, ?Hrc; try done.
  - intros c' ch Hch' Hne. destruct (Hold c' ch Hch' Hne) as (H1 & H2 & H3).
    unfold sent in *. auto.
  - congruence.
  - intros c' Hc'. by assert (c' = c) as -> by congruence.
Qed.

Lemma AInv_thread_step i s s' : AInv s -> thread_step i s = Some s' -> AInv s'.
Proof.
  intros HA Hstep. unfold thread_step in Hstep.
  destruct (threads s !! i) as [t|] eqn:Hi; [|done].
  destruct (async s) as [c|] eqn:Hc.
  2:{ rewrite (a_idle s HA Hc i t Hi) in Hstep. done. }
  destruct (a_live s HA c Hc) as (i0 & co & f0 & fr0 & ch0 & HL).
  assert (Hlt : (i < length (threads s))%nat) by by apply lookup_lt_Some in Hi.
  pose proof (weigh_insert undone (threads s) i t) as Hund.
  pose proof (weigh_insert pending (threads s) i t) as Hpen.
  pose proof (pending_le_undone (threads s)) as Hle.
  pose proof (weigh_lookup undone (threads s) i t Hi) as Hge.
  pose proof (weigh_lookup pending (threads s) i t Hi) as Hgp.
  destruct t as [f [|p rest]|f|f|f|f own|f env|f|].
  - (* the loop is over *)
    destruct (Live_coordinator _ _ _ _ _ _ _ i _ f HL Hi eq_refl) as (<- & -> & ->).
    simplify_eq. destruct HL as [L1 L2 L3 L4 L5 L6 [L7 L7'] L8].
    specialize (Hund (CoWait f) Hi). specialize (Hpen (CoWait f) Hi).
    apply (AInv_same_channels s _ c); try done.
    exists i, (CoWait f), f, fr0, ch0. constructor; simpl in *; try done.
    + by apply list_lookup_insert_eq.
    + intros j t Hj Hne. rewrite list_lookup_insert_ne in Hj by done. eauto.
    + lia.
    + unfold sent in *. simpl.
      split; [lia|]. intros Hcr. specialize (L7' Hcr). lia.
  - (* a worker is started *)
    destruct (Live_coordinator _ _ _ _ _ _ _ i _ f HL Hi eq_refl) as (<- & -> & ->).
    destruct HL as [L1 L2 L3 L4 L5 L6 [L7 L7'] L8]. rewrite L3 in Hstep.
    simplify_eq.
    specialize (Hund (CoLoop f rest) Hi). specialize (Hpen (CoLoop f rest) Hi).
    apply (AInv_same_channels s _ c); try done.
    exists i, (CoLoop f rest), f,
      (match loopvar with
       | PerLoop => mkFrame (Some p) (S (wg fr0))
       | PerIteration => mkFrame (req fr0) (S (wg fr0))
       end), ch0.
    constructor; simpl in *; try done.
    + rewrite lookup_app_l by (by rewrite length_insert).
      by apply list_lookup_insert_eq.
    + apply list_lookup_insert_eq. by apply lookup_lt_Some in L3.
    + intros j t Hj Hne. apply lookup_app_Some in Hj as [Hj|[_ Hj]].
      * rewrite list_lookup_insert_ne in Hj by done. eauto.
      * destruct (j - _)%nat; [|done]. simpl in Hj. simplify_eq. by left.
    + rewrite weigh_app. simpl. destruct loopvar; simpl; lia.
    + unfold sent in *. simpl. rewrite weigh_app. simpl.
      split; [lia|]. intros Hcr. specialize (L7' Hcr). lia.
  - (* wg.Wait() returns *)
    destruct (Live_coordinator _ _ _ _ _ _ _ i _ f HL Hi eq_refl) as (<- & -> & ->).
    destruct HL as [L1 L2 L3 L4 L5 L6 [L7 L7'] L8]. rewrite L3 in Hstep.
    destruct (Nat.eqb_spec (wg fr0) 0) as [Hwg|]; simplify_eq.
    specialize (Hund (CoClose f) Hi). specialize (Hpen (CoClose f) Hi).
    apply (AInv_same_channels s _ c); try done.
    exists i, (CoClose f), f, fr0, ch0. constructor; simpl in *; try done.
    + by apply list_lookup_insert_eq.
    + intros j t Hj Hne. rewrite list_lookup_insert_ne in Hj by done. eauto.
    + lia.
    + unfold sent in *. simpl.
      split; [lia|]. intros Hcr. specialize (L7' Hcr). lia.
    + split; [lia | done].
  - (* close(g.async) *)
    destruct (Live_coordinator _ _ _ _ _ _ _ i _ f HL Hi eq_refl) as (<- & -> & ->).
    destruct HL as [L1 L2 L3 L4 L5 L6 [L7 L7'] [L8 L9]]. rewrite L4 in Hstep.
    rewrite L9 in Hstep. simplify_eq.
    specialize (Hund (CoClear f) Hi). specialize (Hpen (CoClear f) Hi).
    destruct HA as [Hcaps Hold Htook Hidle Hlive].
    constructor; unfold sent in *; simpl in *.
    + intros c' ch Hch. lookup_cases Hch; simpl; eauto.
    + intros c' ch Hch Hne. rewrite list_lookup_insert_ne in Hch by congruence.
      apply Hold; [done|]. congruence.
    + intros c' Hle'. rewrite length_insert in Hle'. eauto.
    + congruence.
    + intros c' Hc'. assert (c' = c) as -> by congruence.
      exists i, (CoClear f), f, fr0, (mkChan (cap ch0) (buf ch0) true).
      constructor; unfold sent; simpl; try done.
      * by apply list_lookup_insert_eq.
      * apply list_lookup_insert_eq. by apply lookup_lt_Some in L4.
      * intros j t Hj Hne. rewrite list_lookup_insert_ne in Hj by done. eauto.
      * lia.
      * split; [lia|]. intros Hcr. specialize (L7' Hcr). lia.
      * split; [lia | done].
  - (* g.async = nil *)
    destruct (Live_coordinator _ _ _ _ _ _ _ i _ f HL Hi eq_refl) as (<- & -> & ->).
    destruct HL as [L1 L2 L3 L4 L5 L6 [L7 L7'] [L8 L9]].
    simplify_eq.
    destruct HA as [Hcaps Hold Htook Hidle Hlive].
    constructor; unfold sent in *; simpl in *; try done.
    + intros c' ch Hch _. destruct (decide (c' = c)) as [->|Hne].
      * rewrite L4 in Hch. simplify_eq. split; [done|].
        split; [lia|]. intros Hcr. specialize (L7' Hcr). lia.
      * apply Hold; [done|]. congruence.
    + intros _ j t Hj. lookup_cases Hj; [done|].
      destruct (L5 j t Hj) as [Hw| ->]; [done| |done].
      pose proof (weigh_lookup undone (threads s) j t Hj). destruct t; simplify_eq.
      all: simpl in *; lia.
  - (* a worker runs its request *)
    destruct (Live_worker _ _ _ _ _ _ _ i _ f HL Hi eq_refl) as (Hne & ->).
    destruct HL as [L1 L2 L3 L4 L5 L6 [L7 L7'] L8]. rewrite L3 in Hstep.
    destruct (captured own fr0) as [p|]; [|done].
    destruct (run_request (a_store s) (a_world s) p) as [[[env store']|msg] w'];
      simplify_eq.
    + specialize (Hund (WkSend f env) Hi). specialize (Hpen (WkSend f env) Hi).
      apply (AInv_same_channels s _ c); try done.
      exists i0, co, f, fr0, ch0.
      constructor; simpl in *; try done.
      * by rewrite list_lookup_insert_ne.
      * intros j t Hj Hne'. lookup_cases Hj; [by left|]. eauto.
      * lia.
      * unfold sent in *. simpl.
        split; [lia|]. intros Hcr. specialize (L7' Hcr). lia.
      * destruct co; try done; destruct L8; split; try done; lia.
    + (* the request panics: the worker goes to [wg.Done()] *)
      specialize (Hund (WkDone f) Hi). specialize (Hpen (WkDone f) Hi).
      apply (AInv_same_channels s _ c); try done.
      exists i0, co, f, fr0, ch0.
      constructor; simpl in *; try done.
      * by rewrite list_lookup_insert_ne.
      * intros j t Hj Hne'. lookup_cases Hj; [by left|]. eauto.
      * lia.
      * unfold sent in *. simpl. split; [lia | done].
      * destruct co; try done; destruct L8; split; try done; lia.
  - (* a worker sends its envelope *)
    destruct (Live_worker _ _ _ _ _ _ _ i _ f HL Hi eq_refl) as (Hne & ->).
    assert (Hopen : is_closed ch0 = false)
      by (apply (Live_open _ _ _ _ _ _ _ HL); simpl in Hge; lia).
    destruct HL as [L1 L2 L3 L4 L5 L6 [L7 L7'] L8]. rewrite L4 in Hstep.
    rewrite Hopen in Hstep.
    destruct (length (buf ch0) <? cap ch0)%nat; simplify_eq.
    specialize (Hund (WkDone f) Hi). specialize (Hpen (WkDone f) Hi).
    destruct HA as [Hcaps Hold Htook Hidle Hlive].
    constructor; unfold sent in *; simpl in *.
    + intros c' ch Hch. lookup_cases Hch; simpl; eauto.
    + intros c' ch Hch Hne'. rewrite list_lookup_insert_ne in Hch by congruence.
      apply Hold; [done|]. congruence.
    + intros c' Hle'. rewrite length_insert in Hle'. eauto.
    + congruence.
    + intros c' Hc'. assert (c' = c) as -> by congruence.
      exists i0, co, f, fr0, (mkChan (cap ch0) (buf ch0 ++ [env]) false).
      constructor; unfold sent; simpl; try done.
      * by rewrite list_lookup_insert_ne.
      * apply list_lookup_insert_eq. by apply lookup_lt_Some in L4.
      * intros j t Hj Hne'. lookup_cases Hj; [by left|]. eauto.
      * lia.
      * rewrite length_app. simpl.
        split; [lia|]. intros Hcr. specialize (L7' Hcr). lia.
      * destruct co; try done; destruct L8; simpl in *; lia.
  - (* wg.Done() *)
    destruct (Live_worker _ _ _ _ _ _ _ i _ f HL Hi eq_refl) as (Hne & ->).
    destruct HL as [L1 L2 L3 L4 L5 L6 [L7 L7'] L8]. rewrite L3 in Hstep.
    destruct fr0 as [r [|k]]; simplify_eq; [simpl in *; lia|].
    specialize (Hund Ended Hi). specialize (Hpen Ended Hi).
    apply (AInv_same_channels s _ c); try done.
    exists i0, co, f, (mkFrame r k), ch0.
    constructor; simpl in *; try done.
    + by rewrite list_lookup_insert_ne.
    + apply list_lookup_insert_eq. by apply lookup_lt_Some in L3.
    + intros j t Hj Hne'. lookup_cases Hj; [by right|]. eauto.
    + lia.
    + unfold sent in *. simpl.
      split; [lia|]. intros Hcr. specialize (L7' Hcr). lia.
    + destruct co; try done; destruct L8; simpl in *; lia.
  - done.
Qed.

Lemma AInv_async_step a s s' : AInv s -> async_step a s = Some s' -> AInv s'.
Proof.
  intros HA Hstep. unfold async_step in Hstep.
  destruct a as [|i|c]; simplify_eq.
  - by apply AInv_Group_Async.
  - by apply (AInv_thread_step i s).
  - by apply (AInv_receive c s).
Qed.

Lemma AInv_run acts s s' : AInv s -> async_run acts s = Some s' -> AInv s'.
Proof.
  revert s. induction acts as [|a acts IH]; intros s HA Hrun; simpl in Hrun.
  - by simplify_eq.
  - destruct (async_step a s) as [s1|] eqn:Hstep; [|done].
    apply (IH s1); [|done]. by apply (AInv_async_step a s).
Qed.

Lemma AInv_reachable s : async_reachable s -> AInv s.
Proof.
  intros (reqs & st & w & acts & Hrun).
  apply (AInv_run acts (NewGroup_async reqs st w)); [apply AInv_NewGroup | done].
Qed.

(** The threads of a stream at work: the goroutine of [Async] and what
    the invariant says of it. *)
Lemma AInv_thread_live s i t :
  AInv s -> threads s !! i = Some t -> t <> Ended ->
  exists c i0 co f0 fr0 ch0, async s = Some c /\ Live s c i0 co f0 fr0 ch0.
Proof.
  intros HA Hi Hne. destruct (async s) as [c|] eqn:Hc.
  - destruct (a_live s HA c Hc) as (i0 & co & f0 & fr0 & ch0 & HL).
    by exists c, i0, co, f0, fr0, ch0.
  - by apply (a_idle s HA Hc) in Hi.
Qed.

(** The send of a worker goes through. *)
Lemma send_goes_through s i f env :
  AInv s -> threads s !! i = Some (WkSend f env) ->
  exists c ch,
    async s = Some c /\ chans s !! c = Some ch /\ is_closed ch = false /\
    async_step (Run i) s
    = Some (mkAsyncState (a_requests s) (async s) (a_store s) (a_world s)
              (<[c := mkChan (cap ch) (buf ch ++ [env]) false]> (chans s))
              (frames s) (<[i := WkDone f]> (threads s))
              (a_executed s) (received s) (a_crashed s)).
Proof.
  intros HA Hi.
  destruct (AInv_thread_live s i _ HA Hi)
    as (c & i0 & co & f0 & fr0 & ch0 & Hc & HL); [done|].
  destruct (Live_worker _ _ _ _ _ _ _ i _ f HL Hi eq_refl) as (Hne & ->).
  pose proof (weigh_lookup undone (threads s) i _ Hi) as Hge.
  pose proof (weigh_lookup pending (threads s) i _ Hi) as Hgp.
  simpl in Hge, Hgp.
  assert (Hopen : is_closed ch0 = false)
    by (apply (Live_open _ _ _ _ _ _ _ HL); lia).
  destruct HL as [L1 L2 L3 L4 L5 L6 [L7 L7'] L8].
  assert (Hroom : (length (buf ch0) <? cap ch0)%nat = true).
  { apply Nat.ltb_lt. unfold sent in L7. lia. }
  exists c, ch0. unfold async_step, thread_step.
  by rewrite Hi, Hc, L4, Hopen, Hroom.
Qed.

(** [wg.Done()] finds the counter above zero. *)
Lemma Done_goes_through s i f :
  AInv s -> threads s !! i = Some (WkDone f) ->
  exists r k,
    frames s !! f = Some (mkFrame r (S k)) /\
    async_step (Run i) s
    = Some (mkAsyncState (a_requests s) (async s) (a_store s) (a_world s)
              (chans s) (<[f := mkFrame r k]> (frames s))
              (<[i := Ended]> (threads s))
              (a_executed s) (received s) (a_crashed s)).
Proof.
  intros HA Hi.
  destruct (AInv_thread_live s i _ HA Hi)
    as (c & i0 & co & f0 & fr0 & ch0 & Hc & HL); [done|].
  destruct (Live_worker _ _ _ _ _ _ _ i _ f HL Hi eq_refl) as (Hne & ->).
  destruct HL as [L1 L2 L3 L4 L5 L6 L7 L8].
  pose proof (weigh_lookup undone (threads s) i _ Hi) as Hge. simpl in Hge.
  destruct fr0 as [r [|k]]; simpl in L6; [lia|].
  exists r, k. split; [done|].
  unfold async_step, thread_step. by rewrite Hi, L3.
Qed.

(** [close(g.async)] finds the channel open. *)
Lemma close_goes_through s i f :
  AInv s -> threads s !! i = Some (CoClose f) ->
  exists c ch,
    async s = Some c /\ chans s !! c = Some ch /\ is_closed ch = false /\
    weigh undone (threads s) = 0%nat /\
    async_step (Run i) s
    = Some (mkAsyncState (a_requests s) (async s) (a_store s) (a_world s)
              (<[c := mkChan (cap ch) (buf ch) true]> (chans s))
              (frames s) (<[i := CoClear f]> (threads s))
              (a_executed s) (received s) (a_crashed s)).
Proof.
  intros HA Hi.
  destruct (AInv_thread_live s i _ HA Hi)
    as (c & i0 & co & f0 & fr0 & ch0 & Hc & HL); [done|].
  destruct (Live_coordinator _ _ _ _ _ _ _ i _ f HL Hi eq_refl) as (<- & -> & ->).
  destruct HL as [L1 L2 L3 L4 L5 L6 L7 [L8 L9]].
  exists c, ch0. unfold async_step, thread_step.
  by rewrite Hi, Hc, L4, L9.
Qed.

(** In every state the parallel machine reaches, whatever the schedule.
    Every channel is buffered to the number of requests and has been sent
    no more envelopes than that; a channel that is closed has been sent
    exactly that number, one by each worker, when no goroutine has
    panicked (a worker that panics calls [wg.Done] without sending).  The
    send of a worker never blocks and never finds the channel closed or
    nil; [wg.Done] never finds the counter at zero; [close] never finds
    the channel closed or nil; and [wg.Wait] returns only when no worker
    is left that has not called [wg.Done]. *)
Theorem Async_sends_one_envelope_per_worker_then_closes (s : AsyncState) :
  async_reachable s ->
  (forall c ch,
     chans s !! c = Some ch ->
     cap ch = length (a_requests s) /\
     (sent c ch s <= cap ch)%nat /\
     (is_closed ch = true -> a_crashed s = None -> sent c ch s = cap ch)) /\
  (forall i f env,
     a_crashed s = None -> threads s !! i = Some (WkSend f env) ->
     exists s',
       async_step (Run i) s = Some s' /\ a_crashed s' = None /\
       threads s' !! i = Some (WkDone f)) /\
  (forall i f,
     a_crashed s = None -> threads s !! i = Some (WkDone f) ->
     exists s',
       async_step (Run i) s = Some s' /\ a_crashed s' = None /\
       threads s' !! i = Some Ended) /\
  (forall i f,
     a_crashed s = None -> threads s !! i = Some (CoClose f) ->
     exists s',
       async_step (Run i) s = Some s' /\ a_crashed s' = None /\
       threads s' !! i = Some (CoClear f)) /\
  (forall i f s',
     threads s !! i = Some (CoWait f) -> async_step (Run i) s = Some s' ->
     weigh undone (threads s) = 0%nat).
Proof.
  intros Hreach. pose proof (AInv_reachable s Hreach) as HA.
  split; [|split; [|split; [|split]]].
  - intros c ch Hch. split; [by apply (a_caps s HA c)|].
    destruct (decide (async s = Some c)) as [Hc|Hc].
    + destruct (a_live s HA c Hc) as (i0 & co & f0 & fr0 & ch0 & HL).
      destruct HL as [L1 L2 L3 L4 L5 L6 [L7 L7'] L8].
      rewrite Hch in L4. simplify_eq.
      pose proof (pending_le_undone (threads s)).
      split; [lia|]. intros Hcl Hcr. specialize (L7' Hcr). rewrite Hcl in L8.
      destruct co; try done; destruct L8 as [L8 L9]; try done. simpl in *. lia.
    + destruct (a_old s HA c ch Hch Hc) as (Hcl & Hle & Hsent). auto.
  - intros i f env Hcrash Hi.
    destruct (send_goes_through s i f env HA Hi) as (c & ch & _ & _ & _ & Hstep).
    eexists. split; [exact Hstep|]. simpl. split; [done|].
    apply list_lookup_insert_eq. by apply lookup_lt_Some in Hi.
  - intros i f Hcrash Hi.
    destruct (Done_goes_through s i f HA Hi) as (r & k & _ & Hstep).
    eexists. split; [exact Hstep|]. simpl. split; [done|].
    apply list_lookup_insert_eq. by apply lookup_lt_Some in Hi.
  - intros i f Hcrash Hi.
    destruct (close_goes_through s i f HA Hi) as (c & ch & _ & _ & _ & _ & Hstep).
    eexists. split; [exact Hstep|]. simpl. split; [done|].
    apply list_lookup_insert_eq. by apply lookup_lt_Some in Hi.
  - intros i f s' Hi Hstep.
    destruct (AInv_thread_live s i _ HA Hi)
      as (c & i0 & co & f0 & fr0 & ch0 & Hc & HL); [done|].
    destruct (Live_coordinator _ _ _ _ _ _ _ i _ f HL Hi eq_refl) as (<- & -> & ->).
    destruct HL as [L1 L2 L3 L4 L5 L6 L7 L8].
    unfold async_step, thread_step in Hstep.
    rewrite Hi, L3 in Hstep.
    destruct (Nat.eqb_spec (wg fr0) 0); [lia | done].
Qed.

(** ** A call of [Sync] on a Group at work *)

(** The steps that no call and no receive of the consumer takes part in. *)
Definition of_goroutine (a : Action) : bool :=
  match a with
  | Step _ | Wake _ _ => true
  | _ => false
  end.

(** [Sync] called again.  While the goroutine of the stream waits for the
    consumer, at its send or at its [select] with neither context
    cancelled, the call starts nothing and, whatever the goroutines do
    before the call returns, which is nothing, it returns the channel in
    use, which is open.  When [g.sync] is nil every goroutine of the
    Group has finished, and the call makes a channel that is none of the
    closed ones, holds it, and starts one goroutine at the head of the
    list; requests run and envelopes received are as before. *)
Theorem Sync_again_returns_the_stream_of_a_waiting_goroutine
  (s : SyncState) :
  reachable s ->
  (forall j p,
     producers s !! j = Some p ->
     (exists rest n t env, p = AtSend rest n t env) \/
     (exists rest n t,
        p = AtSelect rest n t /\ (n ∉ cancelled s) /\ (t ∉ cancelled s)) ->
     exists c,
       sync s = Some c /\ (c ∉ closed s) /\ Group_Sync s = s /\
       forall acts s',
         Forall (fun a => of_goroutine a = true) acts ->
         run acts (Group_Sync s) = Some s' ->
         s' = s /\ Group_Sync_return s' = Some c) /\
  (sync s = None ->
   (forall j p, producers s !! j = Some p -> p = Finished) /\
   sync (Group_Sync s) = Some (fresh s) /\
   Group_Sync_return (Group_Sync s) = Some (fresh s) /\
   (fresh s ∉ closed (Group_Sync s)) /\
   producers (Group_Sync s) = producers s ++ [AtLoop (requests s)] /\
   executed (Group_Sync s) = executed s /\
   delivered (Group_Sync s) = delivered s).
Proof.
  intros Hreach. pose proof (Inv_reachable s Hreach) as HI. split.
  - intros j p Hj Hwait.
    assert (Hlive : p <> Finished /\ p <> AtClear).
    { destruct Hwait as [(? & ? & ? & ? & ->)|(? & ? & ? & -> & _)]; done. }
    destruct Hlive as [Hlive Hclear].
    destruct (inv_open s HI j p Hj Hlive Hclear) as (c & Hc & Hopen).
    assert (Hsame : Group_Sync s = s) by (unfold Group_Sync; by rewrite Hc).
    exists c. split; [done|]. split; [done|]. split; [done|].
    rewrite Hsame. intros acts s' Hacts Hrun.
    assert (Hstuck : forall a, of_goroutine a = true -> step a s = None).
    { intros a Ha.
      assert (Hothers : forall i q,
                 producers s !! i = Some q -> i <> j -> q = Finished)
        by (intros i q ? ?; by apply (Inv_others_Finished s j p i q)).
      destruct a as [| | |i|i|i b]; try done; unfold step.
      - unfold producer_step. destruct (decide (i = j)) as [->|Hne].
        + rewrite Hj.
          by destruct Hwait as [(? & ? & ? & ? & ->)|(? & ? & ? & -> & _)].
        + destruct (producers s !! i) as [q|] eqn:Hi; [|done].
          by rewrite (Hothers i q Hi Hne).
      - unfold wake. destruct (decide (i = j)) as [->|Hne].
        + rewrite Hj.
          destruct Hwait as [(? & ? & ? & ? & ->)|(? & ? & ? & -> & Hn & Ht)];
            [done|].
          destruct b; by rewrite bool_decide_eq_false_2.
        + destruct (producers s !! i) as [q|] eqn:Hi; [|done].
          by rewrite (Hothers i q Hi Hne). }
    destruct Hacts as [|a acts Ha _]; simpl in Hrun.
    + injection Hrun as <-. by unfold Group_Sync_return.
    + by rewrite (Hstuck a Ha) in Hrun.
  - intros Hnil.
    assert (Hfin : forall j p, producers s !! j = Some p -> p = Finished).
    { intros j p Hj. destruct (Finished_or_not p) as [|Hlive]; [done|].
      by destruct (inv_live s HI j p Hj Hlive) as [_ []]. }
    split; [done|]. unfold Group_Sync_return, Group_Sync. rewrite Hnil. simpl.
    repeat split; try done.
    intros Hin. apply (inv_closed s HI) in Hin. lia.
Qed.

(** ** A request that panics *)

(** A Group cannot run a request that has no Service, such as one made by
    [NewRequest], nor a nil pointer: the goroutine that comes to it, in
    either mode, panics with a nil dereference, and no envelope is sent
    for the request.  The deferred calls of the goroutine then run, before
    the process ends.  In the sequential mode the goroutine closes the
    channel and clears [g.sync]: the consumer may see the stream end.  In
    the parallel mode the worker calls [wg.Done], which finds the counter
    above zero. *)
Theorem request_without_service_crashes_the_group
  (s : SyncState) (a : AsyncState) (j i f p : nat) (rest : list nat)
  (own : option nat) (fr : Frame) :
  reachable s -> async_reachable a ->
  store s !! p = None \/
  (exists rq r, store s !! p = Some rq /\ Service.service Stream rq = None /\
                fst (Service.Request_Request Stream http_NewRequest rq) = inl r) ->
  a_store a !! p = None \/
  (exists rq r, a_store a !! p = Some rq /\ Service.service Stream rq = None /\
                fst (Service.Request_Request Stream http_NewRequest rq) = inl r) ->
  producers s !! j = Some (AtLoop (p :: rest)) ->
  threads a !! i = Some (WkRun f own) ->
  frames a !! f = Some fr -> captured own fr = Some p ->
  (exists c s1 s3,
     sync s = Some c /\ (c ∉ closed s) /\
     step (Step j) s = Some s1 /\ crashed s1 = Some nil_dereference /\
     producers s1 !! j = Some AtClose /\
     executed s1 = executed s /\ delivered s1 = delivered s /\
     sync s1 = Some c /\ closed s1 = closed s /\
     run [Step j; Step j] s1 = Some s3 /\
     producers s3 !! j = Some Finished /\
     sync s3 = None /\ closed s3 = c :: closed s /\
     executed s3 = executed s /\ delivered s3 = delivered s) /\
  (exists k a1 a2,
     wg fr = S k /\
     async_step (Run i) a = Some a1 /\ a_crashed a1 = Some nil_dereference /\
     threads a1 !! i = Some (WkDone f) /\
     a_executed a1 = a_executed a /\ chans a1 = chans a /\
     frames a1 = frames a /\
     async_step (Run i) a1 = Some a2 /\
     threads a2 !! i = Some Ended /\
     frames a2 !! f = Some (mkFrame (req fr) k) /\
     a_executed a2 = a_executed a /\ chans a2 = chans a).
Proof.
  intros Hreach Hreach' Hp Hp' Hj Hi Hf Hown.
  pose proof (Inv_reachable s Hreach) as HI.
  pose proof (AInv_reachable a Hreach') as HA.
  destruct (run_request_without_service (store s) (world s) p Hp) as [w1 Hrun].
  destruct (run_request_without_service (a_store a) (a_world a) p Hp')
    as [w2 Hrun'].
  assert (Hlen : (j < length (producers s))%nat) by by apply lookup_lt_Some in Hj.
  assert (Hlen' : (i < length (threads a))%nat) by by apply lookup_lt_Some in Hi.
  split.
  - destruct (inv_open s HI j _ Hj) as (c & Hc & Hopen); [done..|].
    set (s1 := crash nil_dereference w1 (set_producer j AtClose s)).
    assert (H1 : step (Step j) s = Some s1)
      by (unfold step, producer_step; by rewrite Hj, Hrun).
    assert (Hj1 : producers s1 !! j = Some AtClose)
      by (simpl; by apply list_lookup_insert_eq).
    pose proof (step_close s1 j c Hj1 Hc Hopen) as H2.
    match type of H2 with
    | _ = Some ?s2 =>
        assert (H3 : run [Step j; Step j] s1 = step (Step j) s2)
          by (cbn [run]; rewrite H2; by destruct (step (Step j) s2));
        rewrite step_clear in H3
          by (simpl; apply list_lookup_insert_eq; by rewrite length_insert)
    end.
    exists c, s1. eexists. split; [done|]. split; [done|].
    split; [exact H1|]. split; [done|]. split; [exact Hj1|].
    do 4 (split; [done|]). split; [exact H3|]. simpl.
    split; [|done]. apply list_lookup_insert_eq. by rewrite !length_insert.
  - assert (HA1 : AInv (a_crash nil_dereference w2 (set_thread i (WkDone f) a))).
    { apply (AInv_thread_step i a); [done|].
      unfold thread_step. by rewrite Hi, Hf, Hown, Hrun'. }
    destruct (Done_goes_through _ i f HA1) as (r & k & Hfr & Hstep).
    { simpl. by apply list_lookup_insert_eq. }
    simpl in Hfr. rewrite Hf in Hfr. simplify_eq.
    exists k. eexists _, _. split; [done|].
    split; [unfold async_step, thread_step; rewrite Hi, Hf, Hown, Hrun';
            reflexivity|].
    simpl. split; [done|].
    split; [by apply list_lookup_insert_eq|].
    do 3 (split; [done|]).
    split; [exact Hstep|]. simpl.
    split; [apply list_lookup_insert_eq; by rewrite length_insert|].
    split; [|done].
    apply list_lookup_insert_eq. by apply lookup_lt_Some in Hf.
Qed.

(** ** One envelope for each request *)

(** What the threads hold, thread by thread. *)
Fixpoint gather {A : Type} (g : Thread -> list A) (ts : list Thread) : list A :=
  match ts with
  | [] => []
  | t :: rest => g t ++ gather g rest
  end.

(** The requests a thread has still to run or to start a worker for. *)
Definition to_run (t : Thread) : list nat :=
  match t with
  | CoLoop _ rest => rest
  | WkRun _ (Some p) => [p]
  | _ => []
  end.

(** The envelope a worker has in hand. *)
Definition outbox (t : Thread) : list ResponseWrapper :=
  match t with
  | WkSend _ env => [env]
  | _ => []
  end.

(** The runs made by the workers of the frame [f]. *)
Definition ran_in (f : nat) (s : AsyncState) : list Ran :=
  filter (fun e => ran_frame e = f) (a_executed s).

(** The envelopes sent on the channel [c], in the order of the sends:
    those received and those in the buffer. *)
Definition sent_on (c : nat) (ch : Chan) (s : AsyncState) : list ResponseWrapper :=
  (snd <$> filter (fun e => fst e = c) (received s)) ++ buf ch.


(** The pointer [p] is to a request of a Service that has a client. *)
Definition served (st : list (Service.Request Stream)) (p : nat) : Prop :=
  exists rq sv,
    st !! p = Some rq /\ Service.service Stream rq = Some sv /\
    Service.client Stream sv <> None.







(** What holds of every state of a Group whose requests are of Services
    with clients, when each iteration of the loop has its own variable. *)
Record Own (s : AsyncState) : Prop := mkOwn {
  own_safe : a_crashed s = None;
  own_served : forall p, p ∈ a_requests s -> served (a_store s) p;
  own_vars : forall i f, threads s !! i <> Some (WkRun f None);
  own_log : forall e, e ∈ a_executed s -> (ran_frame e < length (frames s))%nat;
  own_live : forall i co f,
    threads s !! i = Some co -> coordinator co = Some f ->
    (ran_request <$> ran_in f s) ++ gather to_run (threads s) ≡ₚ a_requests s /\
    (forall c ch,
       async s = Some c -> chans s !! c = Some ch ->
       ran_envelope <$> ran_in f s ≡ₚ sent_on c ch s ++ gather outbox (threads s))
}.














End WithEnvironment.

(** ** Concrete groups *)

Definition get (u : string) : Service.Request Service.SampleStream :=
  Service.Service_Request Service.SampleStream
    (Service.NewService Service.SampleStream None) "GET" u.

(** Three requests in the store; the Group points to them in order. *)
Definition three : list (Service.Request Service.SampleStream) :=
  [get "/a"; get "/b"; get "/c"].

Definition sync_three : SyncState Service.SampleStream :=
  NewGroup Service.SampleStream [0; 1; 2]%nat three Service.w0.

Definition async_two : AsyncState Service.SampleStream :=
  NewGroup_async Service.SampleStream [0; 1]%nat [get "/a"; get "/b"] Service.w0.

(** The machines on a network that answers every call; the parallel one
    with a loop variable for each iteration. *)
Definition sample_run :=
  run Service.SampleStream Service.sample_NewRequest (Service.fails_first 0).
Definition sample_step :=
  step Service.SampleStream Service.sample_NewRequest (Service.fails_first 0).
Definition sample_async_run :=
  async_run Service.SampleStream Service.sample_NewRequest
    (Service.fails_first 0) PerIteration.
Definition sample_async_step :=
  async_step Service.SampleStream Service.sample_NewRequest
    (Service.fails_first 0) PerIteration.

(** The parallel machine with one loop variable for the whole loop. *)
Definition shared_async_run :=
  async_run Service.SampleStream Service.sample_NewRequest
    (Service.fails_first 0) PerLoop.

(** The first envelope of three has been received; the consumer then calls
    [Stop]. *)
Lemma sequential_stream_witness :
  exists s,
    sample_run [CallSync; Step 0; Deliver 0] sync_three = Some s /\
    (forall acts s',
       Forall (fun a => is_call a = false) acts ->
       sample_run acts s = Some s' -> s' = s) /\
    exists c,
      sync _ s = Some c /\
      (forall acts s',
         Forall (fun a => a <> CallContinue /\ a <> CallSync) acts ->
         sample_run acts (Group_Stop _ s) = Some s' ->
         executed _ s' = executed _ s /\ delivered _ s' = delivered _ s /\
         world _ s' = world _ s /\ store _ s' = store _ s /\
         crashed _ s' = None) /\
      exists s2,
        sample_run [Wake 0 true; Step 0; Step 0] (Group_Stop _ s) = Some s2 /\
        producers _ s2 !! 0%nat = Some (Finished _) /\
        sync _ s2 = None /\ c ∈ closed _ s2 /\
        executed _ s2 = executed _ s /\ delivered _ s2 = delivered _ s.
Proof.
  eexists. split; [vm_compute; reflexivity|].
  apply (sequential_stream_waits_for_consumer_and_stops Service.SampleStream
           Service.sample_NewRequest (Service.fails_first 0) _ 0%nat
           [1; 2]%nat 1%nat 2%nat).
  - exists [0; 1; 2]%nat, three, Service.w0, [CallSync; Step 0; Deliver 0].
    vm_compute. reflexivity.
  - reflexivity.
  - reflexivity.
  - apply not_elem_of_nil.
  - apply not_elem_of_nil.
Defined.

(** C7 at its failing inputs.  On a Group with no request the goroutine
    started by [Sync] can close the channel and clear [g.sync] before
    [Sync] reads [g.sync] for its [return]: [Sync] returns nil.  A second
    call of [Sync] made while the stream is at work, after [Continue] on
    the last envelope, finds [g.sync] set and makes nothing; the
    goroutine then ends and the call returns nil, not the channel of the
    stream.  [Async] returns nil in the same way, on a Group with no
    request and on a Group of one request whose worker and goroutine are
    done before the [return]. *)
Theorem Sync_and_Async_can_return_nil :
  (exists s,
     sample_run [CallSync; Step 0; Step 0; Step 0]
       (NewGroup Service.SampleStream [] [] Service.w0) = Some s /\
     Group_Sync_return _ s = None /\ closed _ s = [0%nat] /\
     crashed _ s = None) /\
  (exists s1 s2,
     sample_run [CallSync; Step 0; Deliver 0; CallContinue]
       (NewGroup Service.SampleStream [0%nat] [get "/a"] Service.w0) = Some s1 /\
     sync _ s1 = Some 0%nat /\ closed _ s1 = [] /\
     Group_Sync _ s1 = s1 /\
     sample_run [Wake 0 false; Step 0; Step 0; Step 0] (Group_Sync _ s1)
       = Some s2 /\
     Group_Sync_return _ s2 = None /\ crashed _ s2 = None) /\
  (exists a,
     sample_async_run [CallAsync; Run 0; Run 0; Run 0; Run 0]
       (NewGroup_async Service.SampleStream [] [] Service.w0) = Some a /\
     Group_Async_return _ a = None /\ chans _ a = [mkChan _ 0 [] true] /\
     a_crashed _ a = None) /\
  (exists a env,
     sample_async_run
       [CallAsync; Run 0; Run 0; Run 1; Run 1; Run 1; Run 0; Run 0; Run 0]
       (NewGroup_async Service.SampleStream [0%nat] [get "/a"] Service.w0)
       = Some a /\
     Group_Async_return _ a = None /\ chans _ a = [mkChan _ 1 [env] true] /\
     a_crashed _ a = None).
Proof.
  split; [|split; [|split]].
  - eexists. split; [vm_compute; reflexivity|]. repeat split.
  - eexists _, _. split; [vm_compute; reflexivity|].
    split; [reflexivity|]. split; [reflexivity|]. split; [reflexivity|].
    split; [vm_compute; reflexivity|]. split; reflexivity.
  - eexists. split; [vm_compute; reflexivity|]. repeat split.
  - eexists _, _. split; [vm_compute; reflexivity|]. repeat split.
Qed.


(** With one variable for the whole loop the outcome depends on the
    schedule.  When the goroutine of [Async] goes through its loop,
    starting both workers, before either worker runs, each worker runs
    the request the variable holds then, the second one: two envelopes
    are sent and received and the channel is closed, but both come from
    the request [/b]; the request [/a] is never run, and its wire request
    is never built. *)
Lemma Async_workers_run_the_last_request_twice :
  exists s,
    shared_async_run
      [CallAsync; Run 0; Run 0; Run 1; Run 2; Run 1; Run 2; Run 1; Run 2;
       Run 0; Run 0; Run 0; Run 0; Receive 0; Receive 0] async_two = Some s /\
    ran_thread _ <$> a_executed _ s = [1; 2]%nat /\
    ran_request _ <$> a_executed _ s = [1; 1]%nat /\
    Service.req _ <$> a_store _ s
      = [None; Some (Service.mkWireRequest "GET" "/b" ∅)] /\
    length (received _ s) = 2%nat /\
    chans _ s = [mkChan _ 2 [] true] /\
    async _ s = None /\
    threads _ s = [Ended _; Ended _; Ended _].
Proof. eexists. split; [vm_compute; reflexivity|]. repeat split. Qed.

(** When each worker happens to run before the loop goes on, every request
    is run once, with one variable for the loop too. *)
Lemma Async_workers_run_each_request_when_scheduled_at_once :
  exists s,
    shared_async_run
      [CallAsync; Run 0; Run 1; Run 0; Run 2; Run 1; Run 2; Run 1; Run 2;
       Run 0; Run 0; Run 0; Run 0; Receive 0; Receive 0] async_two = Some s /\
    ran_thread _ <$> a_executed _ s = [1; 2]%nat /\
    ran_request _ <$> a_executed _ s = [0; 1]%nat /\
    length (received _ s) = 2%nat /\
    chans _ s = [mkChan _ 2 [] true].
Proof. eexists. split; [vm_compute; reflexivity|]. repeat split. Qed.

(** ** Instances of the further properties *)

(** The second request of three has been run and its envelope is at the
    send: two requests run, one envelope received, the third left. *)
Lemma stream_order_witness :
  exists s,
    sample_run [CallSync; Step 0; Deliver 0; CallContinue; Wake 0 false; Step 0]
      sync_three = Some s /\
    length (executed _ s) = S (length (delivered _ s)) /\
    exists pre,
      requests _ s = pre ++ [2%nat] /\ pre `suffix_of` executed _ s.
Proof.
  eexists. split; [vm_compute; reflexivity|].
  match goal with
  | |- length (executed _ ?s) = _ /\ _ =>
      destruct (sequential_stream_runs_in_order_one_at_a_time
                  Service.SampleStream Service.sample_NewRequest
                  (Service.fails_first 0) s) as (_ & Hsend & _ & Horder)
  end.
  - exists [0; 1; 2]%nat, three, Service.w0,
      [CallSync; Step 0; Deliver 0; CallContinue; Wake 0 false; Step 0].
    vm_compute. reflexivity.
  - split.
    + eapply (Hsend 0%nat). vm_compute. reflexivity.
    + eapply (Horder 0%nat); vm_compute; reflexivity.
Defined.

(** After the first envelope of three, [Continue] makes the goroutine run
    the second request; after the only envelope of a Group of one,
    [Continue] makes it close the channel. *)
Lemma Continue_witness :
  (exists s s3,
     sample_run [CallSync; Step 0; Deliver 0] sync_three = Some s /\
     sample_step (Wake 0 true) (Group_Continue _ s) = None /\
     sample_run [CallContinue; Wake 0 false; Step 0] s = Some s3 /\
     executed _ s3 = executed _ s ++ [1%nat] /\
     delivered _ s3 = delivered _ s /\
     next _ s3 = Some (fresh _ s) /\ stop _ s3 = Some (S (fresh _ s))) /\
  (exists s c s5,
     sample_run [CallSync; Step 0; Deliver 0]
       (NewGroup Service.SampleStream [0%nat] [get "/a"] Service.w0) = Some s /\
     sync _ s = Some c /\
     sample_run [CallContinue; Wake 0 false; Step 0; Step 0; Step 0] s
       = Some s5 /\
     producers _ s5 !! 0%nat = Some (Finished _) /\
     sync _ s5 = None /\ c ∈ closed _ s5 /\
     executed _ s5 = executed _ s).
Proof.
  split.
  - eexists.
    match goal with
    | |- exists s3, _ = Some ?s /\ _ =>
        destruct (Continue_resumes_or_ends_the_stream Service.SampleStream
                    Service.sample_NewRequest (Service.fails_first 0)
                    s 0%nat [1; 2]%nat 1%nat 2%nat) as (Hstop & Hnext & _)
    end.
    + exists [0; 1; 2]%nat, three, Service.w0, [CallSync; Step 0; Deliver 0].
      vm_compute. reflexivity.
    + reflexivity.
    + reflexivity.
    + apply not_elem_of_nil.
    + apply not_elem_of_nil.
    + edestruct (Hnext 1%nat [2%nat])
        as (s3 & Hrun & _ & Hex & Hdel & _ & _ & Hn & Ht & _);
        [reflexivity | vm_compute; reflexivity |].
      exists s3. split; [vm_compute; reflexivity|].
      split; [exact Hstop|]. split; [exact Hrun|]. split; [exact Hex|].
      split; [exact Hdel|]. split; [exact Hn | exact Ht].
  - eexists.
    match goal with
    | |- exists c s5, _ = Some ?s /\ _ =>
        destruct (Continue_resumes_or_ends_the_stream Service.SampleStream
                    Service.sample_NewRequest (Service.fails_first 0)
                    s 0%nat [] 1%nat 2%nat) as (_ & _ & Hend)
    end.
    + exists [0%nat], [get "/a"], Service.w0, [CallSync; Step 0; Deliver 0].
      vm_compute. reflexivity.
    + reflexivity.
    + reflexivity.
    + apply not_elem_of_nil.
    + apply not_elem_of_nil.
    + destruct (Hend eq_refl)
        as (c & s5 & Hc & Hrun & Hfin & Hsync & Hclosed & Hex & _).
      exists c, s5. split; [vm_compute; reflexivity|].
      split; [exact Hc|]. split; [exact Hrun|]. split; [exact Hfin|].
      split; [exact Hsync|]. split; [exact Hclosed | exact Hex].
Defined.

(** With the first envelope of three received and [Continue] not called,
    a call of [Sync] returns the channel of the stream; on a new Group a
    call makes the channel 0 and starts the first goroutine. *)
Lemma Sync_again_witness :
  (exists s,
     sample_run [CallSync; Step 0; Deliver 0] sync_three = Some s /\
     Group_Sync _ s = s /\
     forall acts s',
       Forall (fun a => of_goroutine a = true) acts ->
       sample_run acts (Group_Sync _ s) = Some s' ->
       s' = s /\ Group_Sync_return _ s' = Some 0%nat) /\
  Group_Sync_return _ (Group_Sync _ sync_three) = Some 0%nat /\
  producers _ (Group_Sync _ sync_three) = [AtLoop _ [0; 1; 2]%nat].
Proof.
  split.
  - eexists. split; [vm_compute; reflexivity|].
    match goal with
    | |- Group_Sync _ ?s = _ /\ _ =>
        destruct (Sync_again_returns_the_stream_of_a_waiting_goroutine
                    Service.SampleStream Service.sample_NewRequest
                    (Service.fails_first 0) s) as [Hwait _]
    end.
    + exists [0; 1; 2]%nat, three, Service.w0, [CallSync; Step 0; Deliver 0].
      vm_compute. reflexivity.
    + destruct (Hwait 0%nat (AtSelect _ [1; 2]%nat 1%nat 2%nat) eq_refl)
        as (c & Hc & _ & Hsame & Hret).
      { right. exists [1; 2]%nat, 1%nat, 2%nat.
        split; [reflexivity|]. split; apply not_elem_of_nil. }
      injection Hc as <-. split; [exact Hsame | exact Hret].
  - destruct (Sync_again_returns_the_stream_of_a_waiting_goroutine
                Service.SampleStream Service.sample_NewRequest
                (Service.fails_first 0) sync_three) as [_ Hnew].
    + exists [0; 1; 2]%nat, three, Service.w0, []. reflexivity.
    + destruct (Hnew eq_refl) as (_ & _ & Hret & _ & Hprod & _).
      split; [exact Hret | exact Hprod].
Defined.

(** A Group of one request made by [NewRequest]. *)
Definition lone : list (Service.Request Service.SampleStream) :=
  [Service.NewRequest Service.SampleStream "GET" "/a"].

Lemma request_without_service_witness :
  (exists s s1 s3,
     sample_run [CallSync] (NewGroup Service.SampleStream [0%nat] lone Service.w0)
       = Some s /\
     sample_step (Step 0) s = Some s1 /\
     crashed _ s1 = Some nil_dereference /\
     delivered _ s1 = [] /\ closed _ s1 = [] /\
     sample_run [Step 0; Step 0] s1 = Some s3 /\
     sync _ s3 = None /\ closed _ s3 = [0%nat] /\ delivered _ s3 = []) /\
  (exists a a1 a2,
     sample_async_run [CallAsync; Run 0]
       (NewGroup_async Service.SampleStream [0%nat] lone Service.w0) = Some a /\
     sample_async_step (Run 1) a = Some a1 /\
     a_crashed _ a1 = Some nil_dereference /\
     threads _ a1 !! 1%nat = Some (WkDone _ 0) /\
     chans _ a1 = chans _ a /\
     sample_async_step (Run 1) a1 = Some a2 /\
     threads _ a2 !! 1%nat = Some (Ended _) /\
     frames _ a2 !! 0%nat = Some (mkFrame None 0) /\
     chans _ a2 = chans _ a).
Proof.
  eassert (Hs : sample_run [CallSync]
                  (NewGroup Service.SampleStream [0%nat] lone Service.w0)
                = Some _) by (vm_compute; reflexivity).
  eassert (Ha : sample_async_run [CallAsync; Run 0]
                  (NewGroup_async Service.SampleStream [0%nat] lone Service.w0)
                = Some _) by (vm_compute; reflexivity).
  match type of Hs with
  | _ = Some ?s =>
      match type of Ha with
      | _ = Some ?a =>
          destruct (request_without_service_crashes_the_group
                      Service.SampleStream Service.sample_NewRequest
                      (Service.fails_first 0) PerIteration
                      s a 0%nat 1%nat 0%nat 0%nat [] (Some 0%nat)
                      (mkFrame None 1))
            as ((c & s1 & s3 & Hc & _ & Hstep & Hcrash & _ & _ & Hdel & _ &
                 Hcl & Hrun & _ & Hsync & Hcl3 & _ & Hdel3) &
                (k & a1 & a2 & Hk & Hstep1 & Hcrash1 & Hth1 & _ & Hch1 & _ &
                 Hstep2 & Hth2 & Hfr2 & _ & Hch2))
      end
  end.
  - exists [0%nat], lone, Service.w0, [CallSync]. exact Hs.
  - exists [0%nat], lone, Service.w0, [CallAsync; Run 0]. exact Ha.
  - right. eexists _, _. split; [reflexivity|]. split; reflexivity.
  - right. eexists _, _. split; [reflexivity|]. split; reflexivity.
  - reflexivity.
  - reflexivity.
  - reflexivity.
  - reflexivity.
  - injection Hc as <-. injection Hk as <-. split.
    + eexists _, s1, s3. split; [exact Hs|]. split; [exact Hstep|].
      split; [exact Hcrash|]. split; [exact Hdel|]. split; [exact Hcl|].
      split; [exact Hrun|]. split; [exact Hsync|].
      split; [exact Hcl3 | exact Hdel3].
    + eexists _, a1, a2. split; [exact Ha|]. split; [exact Hstep1|].
      split; [exact Hcrash1|]. split; [exact Hth1|]. split; [exact Hch1|].
      split; [exact Hstep2|]. split; [exact Hth2|].
      split; [exact Hfr2 | exact Hch2].
Defined.

(** Two workers started, the first one about to send: its send goes
    through, and the channel of two places has been sent nothing yet. *)
Lemma Async_accounting_witness :
  exists s s',
    sample_async_run [CallAsync; Run 0; Run 0; Run 1] async_two = Some s /\
    sample_async_step (Run 1) s = Some s' /\
    a_crashed _ s' = None /\
    threads _ s' !! 1%nat = Some (WkDone _ 0) /\
    forall c ch,
      chans _ s !! c = Some ch ->
      cap _ ch = 2%nat /\ (sent _ c ch s <= cap _ ch)%nat.
Proof.
  eexists.
  match goal with
  | |- exists s', _ = Some ?s /\ _ =>
      destruct (Async_sends_one_envelope_per_worker_then_closes
                  Service.SampleStream Service.sample_NewRequest
                  (Service.fails_first 0) PerIteration s) as (Hch & Hsend & _)
  end.
  - exists [0; 1]%nat, [get "/a"; get "/b"], Service.w0,
      [CallAsync; Run 0; Run 0; Run 1].
    vm_compute. reflexivity.
  - edestruct (Hsend 1%nat 0%nat) as (s' & Hstep & Hcrash & Hth);
      [reflexivity | vm_compute; reflexivity |].
    exists s'. split; [vm_compute; reflexivity|].
    split; [exact Hstep|]. split; [exact Hcrash|]. split; [exact Hth|].
    intros c ch Hc. destruct (Hch c ch Hc) as (H1 & H2 & _).
    split; [exact H1 | exact H2].
Defined.

End Group.

(** * The repository of named Services

    The file that defines [Repo] and its two mappers.  A [*Service] is
    modelled by the address it holds, [None] for nil. *)

Module Repo.

Definition ServicePtr : Type := option nat.

(** [type unsafeMapper map[string]*Service]; a nil map is [None]. *)
Definition unsafeMapper : Type := option (gmap string ServicePtr).

(** [m[key] = service] *)
Definition unsafeMapper_Store (m : unsafeMapper) (key : string) (service : ServicePtr)
  : result unsafeMapper :=
  match m with
  | None => Panic "assignment to entry in nil map"
  | Some g => Normal (Some (<[key := service]> g))
  end.

(** [s, ok = m[key]] *)
Definition unsafeMapper_Load (m : unsafeMapper) (key : string) : ServicePtr * bool :=
  match m with
  | None => (None, false)
  | Some g =>
      match g !! key with
      | Some p => (p, true)
      | None => (None, false)
      end
  end.

(** [delete(m, key)], which does nothing on a nil map. *)
Definition unsafeMapper_Remove (m : unsafeMapper) (key : string) : unsafeMapper :=
  match m with
  | None => None
  | Some g => Some (delete key g)
  end.

(** [NewRepo]: the mapper is [make(unsafeMapper)]. *)
Definition NewRepo : unsafeMapper := Some ∅.

(** On the map-backed mapper, [Load] finds what [Store] stored last under
    the key and reports it found, also when a nil Service was stored;
    other keys are not affected.  After [Remove] the key is reported
    missing.  A new repository finds nothing.  [Store] on a nil mapper
    panics, while [Load] and [Remove] do not. *)
Theorem unsafeMapper_Store_Load_Remove
  (g : gmap string ServicePtr) (key other : string) (p q : ServicePtr) :
  other <> key ->
  exists m1 m2,
    unsafeMapper_Store (Some g) key p = Normal m1 /\
    unsafeMapper_Load m1 key = (p, true) /\
    unsafeMapper_Load m1 other = unsafeMapper_Load (Some g) other /\
    unsafeMapper_Store m1 key q = Normal m2 /\
    unsafeMapper_Load m2 key = (q, true) /\
    unsafeMapper_Load (unsafeMapper_Remove m1 key) key = (None, false) /\
    unsafeMapper_Load (unsafeMapper_Remove m1 other) key = (p, true) /\
    unsafeMapper_Load NewRepo key = (None, false) /\
    unsafeMapper_Store None key p = Panic "assignment to entry in nil map" /\
    unsafeMapper_Load None key = (None, false) /\
    unsafeMapper_Remove None key = None.
Proof.
  intros Hne. exists (Some (<[key := p]> g)), (Some (<[key := q]> (<[key := p]> g))).
  split; [reflexivity|]. simpl.
  rewrite !lookup_insert_eq, lookup_delete_eq, lookup_insert_ne by done.
  rewrite lookup_delete_ne, lookup_insert_eq by done.
  rewrite lookup_empty. done.
Qed.

Lemma unsafeMapper_witness :
  exists m1 m2,
    unsafeMapper_Store (Some ∅) "users" (Some 1%nat) = Normal m1 /\
    unsafeMapper_Load m1 "users" = (Some 1%nat, true) /\
    unsafeMapper_Load m1 "orders" = unsafeMapper_Load (Some ∅) "orders" /\
    unsafeMapper_Store m1 "users" None = Normal m2 /\
    unsafeMapper_Load m2 "users" = (None, true) /\
    unsafeMapper_Load (unsafeMapper_Remove m1 "users") "users" = (None, false) /\
    unsafeMapper_Load (unsafeMapper_Remove m1 "orders") "users" = (Some 1%nat, true) /\
    unsafeMapper_Load NewRepo "users" = (None, false) /\
    unsafeMapper_Store None "users" (Some 1%nat)
      = Panic "assignment to entry in nil map" /\
    unsafeMapper_Load None "users" = (None, false) /\
    unsafeMapper_Remove None "users" = None.
Proof.
  apply (unsafeMapper_Store_Load_Remove ∅ "users" "orders" (Some 1%nat) None).
  discriminate.
Defined.

End Repo.
